(** * Half-precision WMMA GEMM kernels (kernel/wmma.cu): model and verification

    The development embeds the two device kernels
    [hgemm_m16n16k16mma2x4_wp4x2] (synchronous staging) and
    [hgemm_m16n16k16mma2x4_wp4x2_async] (double-buffered cp.async staging)
    together with their host wrappers.

    - C++ [int] values are integers of [Z]; every [int] operation wraps to
      32 bits ([Int32.wrap]), division and remainder truncate.
    - Global and shared memory are maps from element offsets to halves.
    - A block runs in barrier-delimited phases.  What the hardware is free to
      choose inside a phase (the order in which the threads' copies land, how
      many in-flight cp.async copies a warp already sees, the garbage that
      uninitialised shared memory holds) is collected in a [block_env].
    - The tensor-core primitive [wmma::mma_sync] is a parameter of the
      kernel model; it is instantiated with IEEE binary16 arithmetic where a
      statement is about numeric values. *)

From Stdlib Require Import ZArith List Lia Bool Permutation.
From Stdlib Require String QArith Qabs.
From Stdlib Require Import Floats.SpecFloat.
Import ListNotations.
Local Open Scope Z_scope.

(** ** 32-bit [int] arithmetic *)

Module Int32.

Definition min_int : Z := - 2 ^ 31.
Definition max_int : Z := 2 ^ 31 - 1.

Definition in_range (z : Z) : Prop := min_int <= z <= max_int.

  (** Two's complement wrap-around of a mathematical integer. *)
Definition wrap (z : Z) : Z := (z + 2 ^ 31) mod 2 ^ 32 - 2 ^ 31.

Definition add (x y : Z) : Z := wrap (x + y).
Definition sub (x y : Z) : Z := wrap (x - y).
Definition mul (x y : Z) : Z := wrap (x * y).
  (** [/] and [%] of C++ truncate towards zero. *)
Definition div (x y : Z) : Z := wrap (Z.quot x y).
Definition rem (x y : Z) : Z := Z.rem x y.
Definition land (x y : Z) : Z := Z.land x y.

End Int32.

Infix "+i" := Int32.add (at level 50, left associativity).
Infix "-i" := Int32.sub (at level 50, left associativity).
Infix "*i" := Int32.mul (at level 40, left associativity).
Infix "/i" := Int32.div (at level 40, left associativity).
Infix "%i" := Int32.rem (at level 40, left associativity).
Infix "&i" := Int32.land (at level 40, left associativity).

(** ** Compile-time tile geometry (the template arguments the wrappers pass) *)

Definition WARP_SIZE : Z := 32.
Definition WMMA_SIZE_M : Z := 16.
Definition WMMA_SIZE_N : Z := 16.
Definition WMMA_SIZE_K : Z := 16.
Definition WARPS_PER_BLOCK_M : Z := 4.
Definition WARPS_PER_BLOCK_N : Z := 2.
Definition WMMA_PER_WARP_M : Z := 2.
Definition WMMA_PER_WARP_N : Z := 4.

Definition BM : Z := WMMA_SIZE_M * WMMA_PER_WARP_M * WARPS_PER_BLOCK_M.
Definition BN : Z := WMMA_SIZE_N * WMMA_PER_WARP_N * WARPS_PER_BLOCK_N.
Definition BK : Z := WMMA_SIZE_K.

Definition NUM_THREADS : Z := WARPS_PER_BLOCK_M * WARPS_PER_BLOCK_N * WARP_SIZE.
Definition NUM_WARPS : Z := WARPS_PER_BLOCK_M * WARPS_PER_BLOCK_N.

(** Halves moved by one 128-bit transfer ([LDST128BITS], 16-byte cp.async). *)
Definition VEC : Z := 8.

(** [zrange n] is [0; 1; ...; n-1], the index set of a counted loop. *)
Definition zrange (n : Z) : list Z := map Z.of_nat (seq 0 (Z.to_nat n)).

(** [zrange_from lo hi] is [lo; ...; hi-1]. *)
Definition zrange_from (lo hi : Z) : list Z := map (fun i => lo + i) (zrange (hi - lo)).

(** The threads of a block launched with [dim3 block(NUM_THREADS)]:
    [threadIdx.y = 0], so [tid = threadIdx.x]. *)
Definition block_threads : list Z := zrange NUM_THREADS.

(** ** Per-thread index arithmetic (identical in both kernels) *)

Definition warp_id (tid : Z) : Z := tid /i WARP_SIZE.
Definition warp_m (tid : Z) : Z := warp_id tid /i 2.
Definition warp_n (tid : Z) : Z := warp_id tid %i 2.

Definition load_s_A_m (tid : Z) : Z := tid /i 2.
Definition load_s_A_k (tid : Z) : Z := if (tid %i 2) =? 0 then 0 else 8.
Definition load_s_B_k (tid : Z) : Z := tid /i 16.
Definition load_s_B_n (tid : Z) : Z := (tid %i 16) *i 8.

Definition load_g_A_m (b_y tid : Z) : Z := b_y *i BM +i load_s_A_m tid.
Definition load_g_B_n (b_x tid : Z) : Z := b_x *i BN +i load_s_B_n tid.

Definition load_g_A_k (idx_k tid : Z) : Z := idx_k *i WMMA_SIZE_K +i load_s_A_k tid.
Definition load_g_A_off (K b_y idx_k tid : Z) : Z :=
  load_g_A_m b_y tid *i K +i load_g_A_k idx_k tid.
Definition load_g_B_k (idx_k tid : Z) : Z := idx_k *i WMMA_SIZE_K +i load_s_B_k tid.
Definition load_g_B_off (N b_x idx_k tid : Z) : Z :=
  load_g_B_k idx_k tid *i N +i load_g_B_n b_x tid.

(** Row of the warp's [i]-th A fragment and column of its [j]-th B fragment
    inside the block tile. *)
Definition frag_row (wm i : Z) : Z := wm *i (WMMA_PER_WARP_M *i WMMA_SIZE_M) +i i *i WMMA_SIZE_M.
Definition frag_col (wn j : Z) : Z := wn *i (WMMA_PER_WARP_N *i WMMA_SIZE_N) +i j *i WMMA_SIZE_N.

Definition store_g_C_m (b_y wm i : Z) : Z :=
  b_y *i BM +i wm *i (WMMA_SIZE_M *i WMMA_PER_WARP_M) +i i *i WMMA_SIZE_M.
Definition store_g_C_n (b_x wn j : Z) : Z :=
  b_x *i BN +i wn *i (WMMA_SIZE_N *i WMMA_PER_WARP_N) +i j *i WMMA_SIZE_N.
(** [C + store_g_C_m * N + store_g_C_n]: the product is an [int], the two
    additions are pointer arithmetic. *)
Definition store_g_C_off (N b_x b_y wm wn i j : Z) : Z :=
  store_g_C_m b_y wm i *i N + store_g_C_n b_x wn j.

(** Row-major element offset inside a shared array declared
    [half s[..][rows][ld]]; a two-dimensional [half s[rows][ld]] is the
    case [buf = 0]. *)
Definition s_A_idx (ld buf m k : Z) : Z := (buf * BM + m) * ld + k.
Definition s_B_idx (ld buf k n : Z) : Z := (buf * BK + k) * ld + n.

(** Double-buffer slots of reduction step [idx_k] and of the drain pass. *)
Definition curr_buf (idx_k : Z) : Z := (idx_k -i 1) &i 1.
Definition next_buf (idx_k : Z) : Z := idx_k &i 1.
Definition last_buf (K : Z) : Z := ((K /i WMMA_SIZE_K) -i 1) &i 1.

(** Counted loop [for (i = 0; i < n; i++) body]. *)
Definition for_ {S : Type} (n : Z) (body : Z -> S -> S) (s : S) : S :=
  fold_left (fun s i => body i s) (zrange n) s.

(** Loop [for (i = lo; i < hi; i++) body]. *)
Definition for_from {S : Type} (lo hi : Z) (body : Z -> S -> S) (s : S) : S :=
  fold_left (fun s i => body i s) (zrange_from lo hi) s.

(** Accumulator register events of one warp, in program order. *)
Inductive acc_event : Type :=
| EvFill (i j : Z)    (* wmma::fill_fragment(frag_C[i][j], 0) *)
| EvMma (i j : Z)     (* wmma::mma_sync(frag_C[i][j], .., .., frag_C[i][j]) *)
| EvStore (i j : Z).  (* wmma::store_matrix_sync(.., frag_C[i][j], ..) *)

(** The events of one pass over the 2x4 accumulators of a warp. *)
Definition per_accumulator (ev : Z -> Z -> acc_event) : list acc_event :=
  flat_map (fun i => map (fun j => ev i j) (zrange WMMA_PER_WARP_N)) (zrange WMMA_PER_WARP_M).

(** Staging events of the asynchronous pipeline of one block. *)
Inductive pipe_event : Type :=
| PvIssue (slot idx_k : Z)  (* cp.async of slice idx_k into slot *)
| PvWait                    (* commit_group; wait_group(0); __syncthreads *)
| PvCompute (slot : Z).     (* fragment loads from slot and mma_sync *)

Section Kernel.

  (** The element type [half] and the constant [__float2half(0.0f)]. *)
Context {half : Type}.
Variable hzero : half.

  (** *** Memory *)

Definition mem : Type := Z -> half.
Definition write : Type := (Z * half)%type.

Definition upd (m : mem) (a : Z) (v : half) : mem :=
    fun x => if x =? a then v else m x.

  (** Writes take effect in list order. *)
Definition write_all (ws : list write) (m : mem) : mem :=
    fold_left (fun m w => upd m (fst w) (snd w)) ws m.

  (** One 128-bit transfer: [VEC] consecutive halves. *)
Definition copy128 (src : mem) (src_off dst_off : Z) : list write :=
    map (fun e => (dst_off + e, src (src_off + e))) (zrange VEC).

  (** *** WMMA fragments: 16x16 tiles, kept row-major *)

Definition fragment : Type := list half.

  (** [mma_sync a b c] is the [d] of [wmma::mma_sync(d, a, b, c)]. *)
Variable mma_sync : fragment -> fragment -> fragment -> fragment.

Definition fill_fragment (v : half) : fragment :=
    map (fun _ => v) (zrange (WMMA_SIZE_M * WMMA_SIZE_N)).

Definition load_matrix_sync (rows cols : Z) (m : mem) (base ldm : Z) : fragment :=
    flat_map (fun r => map (fun c => m (base + r * ldm + c)) (zrange cols)) (zrange rows).

Definition frag_elt (f : fragment) (r c : Z) : half :=
    nth (Z.to_nat (r * WMMA_SIZE_N + c)) f hzero.

Definition store_matrix_sync (base : Z) (f : fragment) (ldm : Z) : list write :=
    flat_map (fun r => map (fun c => (base + r * ldm + c, frag_elt f r c))
                           (zrange WMMA_SIZE_N))
             (zrange WMMA_SIZE_M).

  (** *** Staging copies of one thread *)

Definition stage_A (A : mem) (K b_y ld buf idx_k tid : Z) : list write :=
    copy128 A (load_g_A_off K b_y idx_k tid)
            (s_A_idx ld buf (load_s_A_m tid) (load_s_A_k tid)).

Definition stage_B (B : mem) (N b_x ld buf idx_k tid : Z) : list write :=
    copy128 B (load_g_B_off N b_x idx_k tid)
            (s_B_idx ld buf (load_s_B_k tid) (load_s_B_n tid)).

  (** *** Warp registers *)

Record warp_state : Type := {
    frag_C : Z -> Z -> fragment;
    trace : list acc_event
  }.

Definition set_frag_C (ws : warp_state) (i j : Z) (f : fragment) (ev : acc_event)
    : warp_state :=
    {| frag_C := fun i' j' => if (i' =? i) && (j' =? j) then f else frag_C ws i' j';
       trace := trace ws ++ [ev] |}.

  (** First thread of warp [w]; the warp-collective operations are
      modelled once per warp with this thread's [warp_m], [warp_n]. *)
Definition lane0 (w : Z) : Z := w * WARP_SIZE.

Definition init_frag_C (ws : warp_state) : warp_state :=
    for_ WMMA_PER_WARP_M (fun i =>
      for_ WMMA_PER_WARP_N (fun j ws =>
        set_frag_C ws i j (fill_fragment hzero) (EvFill i j))) ws.

Definition load_frag_A (sA : mem) (ld buf w i : Z) : fragment :=
    load_matrix_sync WMMA_SIZE_M WMMA_SIZE_K sA
      (s_A_idx ld buf (frag_row (warp_m (lane0 w)) i) 0) ld.

Definition load_frag_B (sB : mem) (ld buf w j : Z) : fragment :=
    load_matrix_sync WMMA_SIZE_K WMMA_SIZE_N sB
      (s_B_idx ld buf 0 (frag_col (warp_n (lane0 w)) j)) ld.

Definition mma_pass (fa fb : Z -> fragment) (ws : warp_state) : warp_state :=
    for_ WMMA_PER_WARP_M (fun i =>
      for_ WMMA_PER_WARP_N (fun j ws =>
        set_frag_C ws i j (mma_sync (fa i) (fb j) (frag_C ws i j)) (EvMma i j))) ws.

  (** Fragment loads from slot [buf] followed by the 2x4 mma_sync block. *)
Definition warp_compute (sA sB : mem) (ldA ldB buf w : Z) (ws : warp_state)
    : warp_state :=
    mma_pass (load_frag_A sA ldA buf w) (load_frag_B sB ldB buf w) ws.

  (** Writing back: the stores of warp [w] and its final register state. *)
Definition write_back (N b_x b_y w : Z) (ws : warp_state)
    : list write * warp_state :=
    for_ WMMA_PER_WARP_M (fun i =>
      for_ WMMA_PER_WARP_N (fun j acc =>
        (fst acc ++ store_matrix_sync
                      (store_g_C_off N b_x b_y (warp_m (lane0 w)) (warp_n (lane0 w)) i j)
                      (frag_C (snd acc) i j) N,
         {| frag_C := frag_C (snd acc);
            trace := trace (snd acc) ++ [EvStore i j] |}))) ([], ws).

  (** *** What the hardware chooses during the run of one block *)

Record block_env : Type := {
    (** order in which the threads' copies of step [idx_k] reach shared memory *)
    order : Z -> list Z;
    (** asynchronous kernel: how many of the in-flight copies of step [idx_k]
        into [s_A], [s_B] have landed when warp [w] loads its fragments *)
    landed_A : Z -> Z -> nat;
    landed_B : Z -> Z -> nat;
    (** contents of shared memory and of the accumulator registers at entry *)
    s_A0 : mem;
    s_B0 : mem;
    frag_C0 : Z -> Z -> Z -> fragment
  }.

  (** Every thread of the block performs its copies, in some order. *)
Definition fair (env : block_env) : Prop :=
    forall idx_k, Permutation (order env idx_k) block_threads.

Record block_state : Type := {
    s_A : mem;
    s_B : mem;
    warps : Z -> warp_state;
    pipe : list pipe_event
  }.

Definition block_entry (env : block_env) : block_state :=
    {| s_A := s_A0 env;
       s_B := s_B0 env;
       warps := fun w => init_frag_C {| frag_C := frag_C0 env w; trace := [] |};
       pipe := [] |}.

  (** Stores of a block: warp after warp. *)
Definition block_stores (N b_x b_y : Z) (st : block_state) : list write :=
    flat_map (fun w => fst (write_back N b_x b_y w (warps st w))) (zrange NUM_WARPS).

Definition warp_final (N b_x b_y w : Z) (st : block_state) : warp_state :=
    snd (write_back N b_x b_y w (warps st w)).

  (** *** Synchronous kernel, lines 43-142 *)

Section Sync.
Variables (A B : mem) (N K : Z) (b_x b_y : Z) (env : block_env).

    (** One iteration of the reduction loop: staging copy, barrier,
        fragment loads and mma, barrier. *)
Definition sync_step (idx_k : Z) (st : block_state) : block_state :=
      let sA := write_all (flat_map (stage_A A K b_y BK 0 idx_k) (order env idx_k)) (s_A st) in
      let sB := write_all (flat_map (stage_B B N b_x BN 0 idx_k) (order env idx_k)) (s_B st) in
      {| s_A := sA;
         s_B := sB;
         warps := fun w => warp_compute sA sB BK BN 0 w (warps st w);
         pipe := pipe st |}.

Definition sync_block : block_state :=
      for_ (K /i WMMA_SIZE_K) sync_step (block_entry env).

End Sync.

  (** *** Asynchronous double-buffered kernel, lines 158-325 *)

Section Async.
Variables (PAD : Z) (A B : mem) (N K : Z) (b_x b_y : Z) (env : block_env).

Definition ldA : Z := BK + PAD.
Definition ldB : Z := BN + PAD.

Definition pending_A (buf idx_k : Z) : list write :=
      flat_map (stage_A A K b_y ldA buf idx_k) (order env idx_k).
Definition pending_B (buf idx_k : Z) : list write :=
      flat_map (stage_B B N b_x ldB buf idx_k) (order env idx_k).

    (** Lines 209-225: slice 0 into slot 0, commit, wait, barrier. *)
Definition async_fill (st : block_state) : block_state :=
      {| s_A := write_all (pending_A 0 0) (s_A st);
         s_B := write_all (pending_B 0 0) (s_B st);
         warps := warps st;
         pipe := pipe st ++ [PvIssue 0 0; PvWait] |}.

    (** Shared memory as warp [w] sees it while the copies of step [idx_k]
        are in flight. *)
Definition seen_A (idx_k w : Z) (st : block_state) : mem :=
      write_all (firstn (landed_A env idx_k w) (pending_A (next_buf idx_k) idx_k)) (s_A st).
Definition seen_B (idx_k w : Z) (st : block_state) : mem :=
      write_all (firstn (landed_B env idx_k w) (pending_B (next_buf idx_k) idx_k)) (s_B st).

    (** Lines 231-282: issue the copies of slice [idx_k] into [next_buf],
        compute from [curr_buf], then commit, wait and barrier. *)
Definition async_step (idx_k : Z) (st : block_state) : block_state :=
      {| s_A := write_all (pending_A (next_buf idx_k) idx_k) (s_A st);
         s_B := write_all (pending_B (next_buf idx_k) idx_k) (s_B st);
         warps := fun w =>
           warp_compute (seen_A idx_k w st) (seen_B idx_k w st) ldA ldB
                        (curr_buf idx_k) w (warps st w);
         pipe := pipe st ++ [PvIssue (next_buf idx_k) idx_k;
                             PvCompute (curr_buf idx_k); PvWait] |}.

    (** Lines 284-312: the compute pass on the last slot. *)
Definition async_drain (st : block_state) : block_state :=
      {| s_A := s_A st;
         s_B := s_B st;
         warps := fun w => warp_compute (s_A st) (s_B st) ldA ldB (last_buf K) w (warps st w);
         pipe := pipe st ++ [PvCompute (last_buf K)] |}.

Definition async_loop (st : block_state) : block_state :=
      for_from 1 (K /i WMMA_SIZE_K) async_step st.

Definition async_block : block_state :=
      async_drain (async_loop (async_fill (block_entry env))).

End Async.

  (** *** Reference quantities the kernels are compared with *)

  (** Cell [(m, k)] of slice [idx_k] of the block's 128 rows of [A], read at
      the global offset that the owning thread computes; likewise for [B]. *)
Definition slice_A (A : mem) (K b_y idx_k m k : Z) : half :=
    A (load_g_A_off K b_y idx_k (2 * m + k / VEC) + k mod VEC).
Definition slice_B (B : mem) (N b_x idx_k k n : Z) : half :=
    B (load_g_B_off N b_x idx_k (16 * k + n / VEC) + n mod VEC).

  (** Slot [buf] of a staging buffer with leading dimension [ld] holds
      slice [idx_k]. *)
Definition holds_A (A : mem) (K b_y ld buf idx_k : Z) (sA : mem) : Prop :=
    forall m k, 0 <= m < BM -> 0 <= k < BK ->
                sA (s_A_idx ld buf m k) = slice_A A K b_y idx_k m k.
Definition holds_B (B : mem) (N b_x ld buf idx_k : Z) (sB : mem) : Prop :=
    forall k n, 0 <= k < BK -> 0 <= n < BN ->
                sB (s_B_idx ld buf k n) = slice_B B N b_x idx_k k n.

  (** The fragments of warp [w] for slice [idx_k]. *)
Definition tile_A (A : mem) (K b_y idx_k w i : Z) : fragment :=
    flat_map (fun r => map (fun c =>
                slice_A A K b_y idx_k (frag_row (warp_m (lane0 w)) i + r) c)
              (zrange WMMA_SIZE_K)) (zrange WMMA_SIZE_M).
Definition tile_B (B : mem) (N b_x idx_k w j : Z) : fragment :=
    flat_map (fun r => map (fun c =>
                slice_B B N b_x idx_k r (frag_col (warp_n (lane0 w)) j + c))
              (zrange WMMA_SIZE_N)) (zrange WMMA_SIZE_K).

  (** Accumulator [(i, j)] of warp [w] after multiply-accumulating the
      slices of the list, one after the other, from a zero fragment. *)
Definition reduce (A B : mem) (N K b_x b_y : Z) (slices : list Z) (w i j : Z)
    : fragment :=
    fold_left (fun c idx_k => mma_sync (tile_A A K b_y idx_k w i)
                                       (tile_B B N b_x idx_k w j) c)
              slices (fill_fragment hzero).

  (** The environment in which the threads' copies land in thread order,
      in-flight copies are not yet visible, and shared memory and registers
      hold [g] and empty fragments at entry. *)
Definition lockstep_env (g : half) : block_env :=
  {| order := fun _ => block_threads;
     landed_A := fun _ _ => 0%nat;
     landed_B := fun _ _ => 0%nat;
     s_A0 := fun _ => g;
     s_B0 := fun _ => g;
     frag_C0 := fun _ _ _ => [] |}.

  (** *** The grid *)

  (** [kernel<<<dim3(gridDim_x, gridDim_y), NUM_THREADS>>>]: the stores of
      the launch, block after block. *)
Definition launch (gridDim_x gridDim_y : Z) (block : Z -> Z -> list write) : list write :=
  flat_map (fun b_y => flat_map (fun b_x => block b_x b_y) (zrange gridDim_x))
           (zrange gridDim_y).

  (** The two device kernels; [envs b_x b_y] is the environment of block
      [(b_x, b_y)], [PAD] the template argument of the asynchronous one. *)
Definition hgemm_m16n16k16mma2x4_wp4x2
           (A B : mem) (M N K : Z) (gridDim_x gridDim_y : Z)
           (envs : Z -> Z -> block_env) : list write :=
  launch gridDim_x gridDim_y (fun b_x b_y =>
    block_stores N b_x b_y (sync_block A B N K b_x b_y (envs b_x b_y))).

Definition hgemm_m16n16k16mma2x4_wp4x2_async
           (PAD : Z) (A B : mem) (M N K : Z) (gridDim_x gridDim_y : Z)
           (envs : Z -> Z -> block_env) : list write :=
  launch gridDim_x gridDim_y (fun b_x b_y =>
    block_stores N b_x b_y (async_block PAD A B N K b_x b_y (envs b_x b_y))).

  (** Contents of [C] after the launch. *)
Definition C_after (C0 : mem) (stores : list write) : mem := write_all stores C0.

End Kernel.


(** Launch geometry of the host wrappers:
    [dim3 grid(N / (16*4*2), M / (16*2*4))]. *)
Definition grid_x (N : Z) : Z := N /i (WMMA_SIZE_N *i WMMA_PER_WARP_N *i WARPS_PER_BLOCK_N).
Definition grid_y (M : Z) : Z := M /i (WMMA_SIZE_M *i WMMA_PER_WARP_M *i WARPS_PER_BLOCK_M).

Definition acc_event_eq_dec (x y : acc_event) : {x = y} + {x <> y}.
Proof. decide equality; apply Z.eq_dec. Defined.

(** One store of one element: block, warp, accumulator, position. *)
Record writer : Type := {
  w_bx : Z; w_by : Z; w_warp : Z; w_i : Z; w_j : Z; w_r : Z; w_c : Z
}.

Definition writer_valid (gridDim_x gridDim_y : Z) (t : writer) : Prop :=
  0 <= w_bx t < gridDim_x /\ 0 <= w_by t < gridDim_y /\ 0 <= w_warp t < NUM_WARPS /\
  0 <= w_i t < WMMA_PER_WARP_M /\ 0 <= w_j t < WMMA_PER_WARP_N /\
  0 <= w_r t < WMMA_SIZE_M /\ 0 <= w_c t < WMMA_SIZE_N.

(** Offset into [C] that [store_matrix_sync] gives to the element. *)
Definition writer_off (N : Z) (t : writer) : Z :=
  store_g_C_off N (w_bx t) (w_by t) (warp_m (lane0 (w_warp t))) (warp_n (lane0 (w_warp t)))
                (w_i t) (w_j t)
  + w_r t * N + w_c t.

(** The row and the column of the element that a valid writer stores. *)
Definition writer_row (t : writer) : Z :=
  128 * w_by t + 32 * (w_warp t / 2) + 16 * w_i t + w_r t.
Definition writer_col (t : writer) : Z :=
  128 * w_bx t + 64 * (w_warp t mod 2) + 16 * w_j t + w_c t.

(** The writer of element [(m, n)]. *)
Definition writer_of (m n : Z) : writer :=
  {| w_bx := n / 128; w_by := m / 128;
     w_warp := 2 * ((m mod 128) / 32) + (n mod 128) / 64;
     w_i := (m mod 32) / 16; w_j := (n mod 64) / 16;
     w_r := m mod 16; w_c := n mod 16 |}.

(** ** Host wrappers, lines 343-417 *)

Module Host.

Import String.
Local Open Scope string_scope.
Local Open Scope Z_scope.

(** Element types of a [torch::Tensor]. *)
Inductive ScalarType : Type :=
| kHalf | kBFloat16 | kFloat | kDouble | kByte | kChar | kShort | kInt | kLong | kBool.

Definition ScalarType_eqb (x y : ScalarType) : bool :=
  match x, y with
  | kHalf, kHalf | kBFloat16, kBFloat16 | kFloat, kFloat | kDouble, kDouble
  | kByte, kByte | kChar, kChar | kShort, kShort | kInt, kInt | kLong, kLong
  | kBool, kBool => true
  | _, _ => false
  end.

(** What the wrappers read of a tensor: its element type and [size(d)],
    a 64-bit integer. *)
Record Tensor : Type := {
  dtype : ScalarType;
  size : Z -> Z
}.

(** The device kernel a wrapper launches; the asynchronous one is a
    template in [PAD]. *)
Inductive kernel : Type :=
| Sync
| Async (PAD : Z).

(** A wrapper either throws [std::runtime_error(what)] or launches its
    kernel with [<<<dim3(grid_x, grid_y), dim3(block)>>>(a, b, c, M, N, K)]. *)
Inductive outcome : Type :=
| Throws (what : string)
| Launches (k : kernel) (gridDim_x gridDim_y blockDim_x : Z) (M N K : Z).


Definition throw_if (cond : bool) (what : string) (k : outcome) : outcome :=
  if cond then Throws what else k.

Notation "'throw' what 'when' cond ';;' k" :=
  (throw_if cond what k) (at level 10, what at level 9, cond at level 100, k at level 200).

(** [CHECK_TORCH_TENSOR_DTYPE(T, torch::kHalf)] *)
Definition dtype_mismatch (T : Tensor) : bool := negb (ScalarType_eqb (dtype T) kHalf).

(** [CHECK_TORCH_TENSOR_SHAPE(T, S0, S1)]: [S0], [S1] are [int]s compared
    with 64-bit sizes. *)
Definition shape_mismatch (T : Tensor) (S0 S1 : Z) : bool :=
  negb (size T 0 =? S0) || negb (size T 1 =? S1).

Definition not_divisible (M N K : Z) : bool :=
  negb (M %i 128 =? 0) || negb (N %i 128 =? 0) || negb (K %i 16 =? 0).

Definition dtype_message : string := "values must be torch::kHalf".
Definition divisibility_message : string :=
  "M and N must be divisible by 128. K must be divisible by 16.".
Definition shape_message : string := "Tensor size mismatch!".

(** The two wrappers run the same checks and compute the same launch
    geometry; they differ in the kernel they launch. *)
Definition checked_launch (kern : kernel) (a b c : Tensor) : outcome :=
  throw dtype_message when dtype_mismatch a ;;
  throw dtype_message when dtype_mismatch b ;;
  throw dtype_message when dtype_mismatch c ;;
  let M := Int32.wrap (size a 0) in
  let K := Int32.wrap (size a 1) in
  let N := Int32.wrap (size b 1) in
  throw divisibility_message when not_divisible M N K ;;
  throw shape_message when shape_mismatch a M K ;;
  throw shape_message when shape_mismatch b K N ;;
  throw shape_message when shape_mismatch c M N ;;
  Launches kern (grid_x N) (grid_y M) NUM_THREADS M N K.

Definition hgemm_m16n16k16mma2x4_wp4x2 (a b c : Tensor) : outcome :=
  checked_launch Sync a b c.

Definition hgemm_m16n16k16mma2x4_wp4x2_async (a b c : Tensor) : outcome :=
  checked_launch (Async 8) a b c.



(** A matrix of element type [t] with [rows x cols] elements. *)
Definition matrix (t : ScalarType) (rows cols : Z) : Tensor :=
  {| dtype := t; size := fun d => if d =? 0 then rows else if d =? 1 then cols else 1 |}.

End Host.

(** ** Arithmetic of the tensor-core primitive *)

Section MmaModel.

Context {half : Type} (hzero : half).
Variables (hadd hmul : half -> half -> half).

(** Modelled from the spec: [wmma::mma_sync] is a hardware primitive, not
    code of the repository.  Following section 4.4 ([accumulator +=
    operandA * operandB] with half-precision accumulation) entry [(i, j)]
    of the result adds the sixteen products [a[i][k] * b[k][j]] to
    [c[i][j]], in increasing [k], each product and each sum being one
    operation on halves. *)
Definition mma_dot (a b c : @fragment half) (i j : Z) : half :=
  fold_left (fun acc k => hadd acc (hmul (frag_elt hzero a i k) (frag_elt hzero b k j)))
            (zrange WMMA_SIZE_K) (frag_elt hzero c i j).

Definition mma_seq (a b c : @fragment half) : @fragment half :=
  flat_map (fun i => map (fun j => mma_dot a b c i j) (zrange WMMA_SIZE_N))
           (zrange WMMA_SIZE_M).

(** The product accumulated in half arithmetic, in increasing [k]. *)
Definition hdot (K : Z) (row col : Z -> half) : half :=
  fold_left (fun acc k => hadd acc (hmul (row k) (col k))) (zrange K) hzero.

(** Element [(m, n)] of the product of the row-major matrices [A] ([M x K])
    and [B] ([K x N]) in that arithmetic. *)
Definition gemm_half (A B : @mem half) (N K m n : Z) : half :=
  hdot K (fun k => A (m * K + k)) (fun k => B (k * N + n)).

End MmaModel.

(** ** IEEE 754 binary16 *)

Module Binary16.

Import QArith Qabs.
Local Open Scope Z_scope.

Definition prec : Z := 11.
Definition emax : Z := 16.

(** A value of [half]. *)
Definition half16 : Type := spec_float.

Definition hadd : half16 -> half16 -> half16 := SFadd prec emax.
Definition hmul : half16 -> half16 -> half16 := SFmul prec emax.

(** [__float2half(0.0f)] *)
Definition hzero : half16 := S754_zero false.

(** [of_Z z] is the half nearest to the integer [z]. *)
Definition of_Z (z : Z) : half16 := binary_normalize prec emax z 0 false.

Definition mma_sync : @fragment half16 -> @fragment half16 -> @fragment half16 -> @fragment half16 :=
  mma_seq hzero hadd hmul.






(** Matrices with one value everywhere. *)
Definition filled (h : half16) : @mem half16 := fun _ => h.


(** An environment whose shared memory holds 1.0 below element 3072 of
    [s_A] and everywhere in [s_B], left there by an earlier kernel. *)
Definition stale_env : @block_env half16 :=
  Build_block_env
    (fun _ => block_threads) (fun _ _ => 0%nat) (fun _ _ => 0%nat)
    (fun a => if a <? 3072 then of_Z 1 else hzero)
    (fun _ => of_Z 1)
    (fun _ _ _ => []).

End Binary16.

(** ** Memory accesses of a block *)

(** Global offsets read by the 128-bit copies of thread [tid] for slice
    [idx_k]. *)
Definition stage_A_src (K b_y idx_k tid : Z) : list Z :=
  map (fun e => load_g_A_off K b_y idx_k tid + e) (zrange VEC).
Definition stage_B_src (N b_x idx_k tid : Z) : list Z :=
  map (fun e => load_g_B_off N b_x idx_k tid + e) (zrange VEC).

(** Slices staged by the synchronous loop, and by the prologue and the
    loop of the asynchronous kernel. *)
Definition slices_sync (K : Z) : list Z := zrange (K /i WMMA_SIZE_K).
Definition slices_async (K : Z) : list Z := 0 :: zrange_from 1 (K /i WMMA_SIZE_K).

(** Global offsets a block reads while staging the slices of a list. *)
Definition reads_A (K b_y : Z) (slices : list Z) : list Z :=
  flat_map (fun idx_k => flat_map (stage_A_src K b_y idx_k) block_threads) slices.
Definition reads_B (N b_x : Z) (slices : list Z) : list Z :=
  flat_map (fun idx_k => flat_map (stage_B_src N b_x idx_k) block_threads) slices.


(** Offsets of the [128 x K] row panel of [A] of block row [b_y] (it is
    contiguous) and of the [K x 128] column panel of [B] of block column
    [b_x]. *)
Definition panel_A (K b_y : Z) : list Z :=
  zrange_from (128 * b_y * K) (128 * b_y * K + 128 * K).
Definition panel_B (N K b_x : Z) : list Z :=
  flat_map (fun k => map (fun c => k * N + 128 * b_x + c) (zrange BN)) (zrange K).

(** Shared offsets a fragment load reads. *)
Definition frag_offsets (rows cols base ldm : Z) : list Z :=
  flat_map (fun r => map (fun c => base + r * ldm + c) (zrange cols)) (zrange rows).
Definition frag_A_offsets (ld buf w i : Z) : list Z :=
  frag_offsets WMMA_SIZE_M WMMA_SIZE_K (s_A_idx ld buf (frag_row (warp_m (lane0 w)) i) 0) ld.
Definition frag_B_offsets (ld buf w j : Z) : list Z :=
  frag_offsets WMMA_SIZE_K WMMA_SIZE_N (s_B_idx ld buf 0 (frag_col (warp_n (lane0 w)) j)) ld.

(** Number of halves in the staging arrays [s_A[slots][BM][ld]] and
    [s_B[slots][BK][ld]]. *)
Definition s_A_size (slots ld : Z) : Z := slots * BM * ld.
Definition s_B_size (slots ld : Z) : Z := slots * BK * ld.

(** An environment whose copies land in reverse thread order, with all
    in-flight copies already visible and arbitrary entry contents. *)
Definition reversed_env : @block_env Z :=
  {| order := fun _ => rev block_threads;
     landed_A := fun _ _ => Z.to_nat 2048;
     landed_B := fun _ _ => Z.to_nat 2048;
     s_A0 := fun a => a;
     s_B0 := fun a => - a;
     frag_C0 := fun w i j => [w; i; j] |}.
(** * Index arithmetic *)

Ltac zlia := Z.to_euclidean_division_equations; lia.

Lemma wrap_in_range z : Int32.in_range (Int32.wrap z).
Proof.
  unfold Int32.in_range, Int32.wrap, Int32.min_int, Int32.max_int.
  pose proof (Z.mod_pos_bound (z + 2 ^ 31) (2 ^ 32) ltac:(lia)). lia.
Qed.

Lemma wrap_small z : Int32.in_range z -> Int32.wrap z = z.
Proof.
  unfold Int32.in_range, Int32.wrap, Int32.min_int, Int32.max_int. intros H.
  rewrite Z.mod_small by lia. lia.
Qed.


(** Unfolds the compile-time tile constants. *)
Ltac geom :=
  unfold NUM_THREADS, NUM_WARPS, BM, BN, BK, VEC, WARP_SIZE,
    WMMA_SIZE_M, WMMA_SIZE_N, WMMA_SIZE_K, WARPS_PER_BLOCK_M, WARPS_PER_BLOCK_N,
    WMMA_PER_WARP_M, WMMA_PER_WARP_N in *.

Ltac int_range :=
  unfold Int32.in_range, Int32.min_int, Int32.max_int; zlia.

(** Removes the wrap-arounds whose argument provably fits in an [int]. *)
Ltac unwrap :=
  unfold Int32.add, Int32.sub, Int32.mul, Int32.div, Int32.rem, Int32.land;
  repeat match goal with
         | |- context [Int32.wrap ?z] => rewrite (wrap_small z) by int_range
         end.

Lemma In_zrange (n x : Z) : In x (zrange n) <-> 0 <= x < n.
Proof.
  unfold zrange. rewrite in_map_iff. split.
  - intros [k [<- Hk]]. apply in_seq in Hk. lia.
  - intros H. exists (Z.to_nat x). split; [lia|]. apply in_seq. lia.
Qed.

Lemma NoDup_zrange (n : Z) : NoDup (zrange n).
Proof.
  unfold zrange. apply Finite.Injective_map_NoDup.
  - intros a b H. lia.
  - apply seq_NoDup.
Qed.

Lemma zrange_succ (n : Z) : 0 <= n -> zrange (n + 1) = zrange n ++ [n].
Proof.
  intros H. unfold zrange.
  replace (Z.to_nat (n + 1)) with (S (Z.to_nat n)) by lia.
  rewrite seq_S, map_app. simpl. f_equal. f_equal. lia.
Qed.

Lemma zrange_nonpos (n : Z) : n <= 0 -> zrange n = [].
Proof.
  intros H. unfold zrange. replace (Z.to_nat n) with 0%nat by lia. reflexivity.
Qed.

Lemma In_zrange_from (lo hi x : Z) : In x (zrange_from lo hi) <-> lo <= x < hi.
Proof.
  unfold zrange_from. rewrite in_map_iff. split.
  - intros [k [<- Hk]]. apply In_zrange in Hk. lia.
  - intros H. exists (x - lo). split; [lia|]. apply In_zrange. lia.
Qed.

Lemma zrange_from_succ (lo hi : Z) :
  lo <= hi -> zrange_from lo (hi + 1) = zrange_from lo hi ++ [hi].
Proof.
  intros H. unfold zrange_from.
  replace (hi + 1 - lo) with ((hi - lo) + 1) by lia.
  rewrite zrange_succ by lia. rewrite map_app. simpl. do 2 f_equal. lia.
Qed.

Lemma In_block_threads (tid : Z) : In tid block_threads <-> 0 <= tid < NUM_THREADS.
Proof. apply In_zrange. Qed.

Lemma land_1 (x : Z) : x &i 1 = x mod 2.
Proof.
  unfold Int32.land. change 1 with (Z.ones 1) at 1.
  rewrite Z.land_ones by lia. reflexivity.
Qed.

(** Shared-memory offsets of a thread, without wrap-around. *)
Lemma load_s_A_m_eq tid : 0 <= tid < NUM_THREADS -> load_s_A_m tid = tid / 2.
Proof. unfold load_s_A_m. geom. intros H. unwrap. zlia. Qed.

Lemma load_s_A_k_eq tid : 0 <= tid < NUM_THREADS -> load_s_A_k tid = 8 * (tid mod 2).
Proof.
  unfold load_s_A_k. geom. intros H. unwrap.
  destruct (Z.eqb_spec (Z.rem tid 2) 0); zlia.
Qed.

Lemma load_s_B_k_eq tid : 0 <= tid < NUM_THREADS -> load_s_B_k tid = tid / 16.
Proof. unfold load_s_B_k. geom. intros H. unwrap. zlia. Qed.

Lemma load_s_B_n_eq tid : 0 <= tid < NUM_THREADS -> load_s_B_n tid = 8 * (tid mod 16).
Proof. unfold load_s_B_n. geom. intros H. unwrap. zlia. Qed.

Lemma warp_id_eq tid : 0 <= tid < NUM_THREADS -> warp_id tid = tid / 32.
Proof. unfold warp_id. geom. intros H. unwrap. zlia. Qed.

Lemma warp_m_eq tid : 0 <= tid < NUM_THREADS -> warp_m tid = tid / 64.
Proof.
  intros H. unfold warp_m. rewrite warp_id_eq by assumption.
  geom. unwrap. zlia.
Qed.

Lemma warp_n_eq tid : 0 <= tid < NUM_THREADS -> warp_n tid = (tid / 32) mod 2.
Proof.
  intros H. unfold warp_n. rewrite warp_id_eq by assumption.
  geom. unwrap. zlia.
Qed.

Lemma frag_row_eq wm i :
  0 <= wm < WARPS_PER_BLOCK_M -> 0 <= i < WMMA_PER_WARP_M -> frag_row wm i = 32 * wm + 16 * i.
Proof. unfold frag_row. geom. intros Hw Hi. unwrap. lia. Qed.

Lemma frag_col_eq wn j :
  0 <= wn < WARPS_PER_BLOCK_N -> 0 <= j < WMMA_PER_WARP_N -> frag_col wn j = 64 * wn + 16 * j.
Proof. unfold frag_col. geom. intros Hw Hj. unwrap. lia. Qed.

(** The 32 threads of a warp agree on the warp tile, so a warp-collective
    operation is well defined. *)
Lemma warp_tile_uniform tid :
  0 <= tid < NUM_THREADS ->
  warp_m tid = warp_m (tid / 32 * WARP_SIZE) /\ warp_n tid = warp_n (tid / 32 * WARP_SIZE).
Proof.
  intros H. assert (H' : 0 <= tid / 32 * WARP_SIZE < NUM_THREADS) by (geom; zlia).
  rewrite !warp_m_eq, !warp_n_eq by assumption. geom. zlia.
Qed.

(** C8. The load offsets of the 256 threads cut the 128x16 slice of A and
    the 16x128 slice of B into whole 8-half segments: every segment lies
    inside one row of its slice, and every cell of either slice belongs to
    the segment of exactly one thread, at exactly one position. *)
Theorem load_offsets_partition_slices (tid m k n : Z) :
  0 <= tid < NUM_THREADS -> 0 <= m < BM -> 0 <= k < BK -> 0 <= n < BN ->
  (load_s_A_m tid = tid / 2 /\ 0 <= load_s_A_m tid < BM /\
   (load_s_A_k tid = 0 \/ load_s_A_k tid = 8) /\ load_s_A_k tid + VEC <= BK) /\
  (load_s_B_k tid = tid / 16 /\ 0 <= load_s_B_k tid < BK /\
   load_s_B_n tid = (tid mod 16) * 8 /\ 0 <= load_s_B_n tid /\ load_s_B_n tid + VEC <= BN) /\
  (exists! te : Z * Z,
      0 <= fst te < NUM_THREADS /\ 0 <= snd te < VEC /\
      load_s_A_m (fst te) = m /\ load_s_A_k (fst te) + snd te = k) /\
  (exists! te : Z * Z,
      0 <= fst te < NUM_THREADS /\ 0 <= snd te < VEC /\
      load_s_B_k (fst te) = k /\ load_s_B_n (fst te) + snd te = n).
Proof.
  intros Ht Hm Hk Hn.
  rewrite load_s_A_m_eq, load_s_A_k_eq, load_s_B_k_eq, load_s_B_n_eq by assumption.
  split; [geom; zlia|]. split; [geom; zlia|]. split.
  - exists (2 * m + k / 8, k mod 8). split.
    + cbn [fst snd]. rewrite load_s_A_m_eq, load_s_A_k_eq by (geom; zlia). geom. zlia.
    + intros [t e]. cbn [fst snd]. intros (Ht' & He & H1 & H2).
      rewrite load_s_A_m_eq in H1 by assumption.
      rewrite load_s_A_k_eq in H2 by assumption.
      geom. f_equal; zlia.
  - exists (16 * k + n / 8, n mod 8). split.
    + cbn [fst snd]. rewrite load_s_B_k_eq, load_s_B_n_eq by (geom; zlia). geom. zlia.
    + intros [t e]. cbn [fst snd]. intros (Ht' & He & H1 & H2).
      rewrite load_s_B_k_eq in H1 by assumption.
      rewrite load_s_B_n_eq in H2 by assumption.
      geom. f_equal; zlia.
Qed.

Lemma load_offsets_partition_slices_witness :
  (load_s_A_m 37 = 37 / 2 /\ 0 <= load_s_A_m 37 < BM /\
   (load_s_A_k 37 = 0 \/ load_s_A_k 37 = 8) /\ load_s_A_k 37 + VEC <= BK) /\
  (load_s_B_k 37 = 37 / 16 /\ 0 <= load_s_B_k 37 < BK /\
   load_s_B_n 37 = (37 mod 16) * 8 /\ 0 <= load_s_B_n 37 /\ load_s_B_n 37 + VEC <= BN) /\
  (exists! te : Z * Z,
      0 <= fst te < NUM_THREADS /\ 0 <= snd te < VEC /\
      load_s_A_m (fst te) = 100 /\ load_s_A_k (fst te) + snd te = 11) /\
  (exists! te : Z * Z,
      0 <= fst te < NUM_THREADS /\ 0 <= snd te < VEC /\
      load_s_B_k (fst te) = 11 /\ load_s_B_n (fst te) + snd te = 77).
Proof.
  apply (load_offsets_partition_slices 37 100 11 77); vm_compute; split; congruence.
Defined.

(** * Memory and staging *)

Section MemoryFacts.
Context {half : Type}.
Implicit Types (sm : @mem half) (ws : list (@write half)).

Lemma write_all_app ws1 ws2 sm :
  write_all (ws1 ++ ws2) sm = write_all ws2 (write_all ws1 sm).
Proof. unfold write_all. apply fold_left_app. Qed.

Lemma write_all_cons w ws sm :
  write_all (w :: ws) sm = write_all ws (upd sm (fst w) (snd w)).
Proof. reflexivity. Qed.

(** An address no write targets keeps its content. *)
Lemma write_all_notin ws sm a :
  ~ In a (map fst ws) -> write_all ws sm a = sm a.
Proof.
  revert sm. induction ws as [|w ws IH]; intros sm Hn; [reflexivity|].
  rewrite write_all_cons, IH.
  - unfold upd. destruct (Z.eqb_spec a (fst w)) as [->|]; [|reflexivity].
    exfalso. apply Hn. now left.
  - intros H. apply Hn. now right.
Qed.

(** An address whose writes all carry the value [v] ends up holding [v],
    whatever the order of the writes. *)
Lemma write_all_in ws sm a v :
  In (a, v) ws -> (forall v', In (a, v') ws -> v' = v) -> write_all ws sm a = v.
Proof.
  revert sm. induction ws as [|w ws IH]; intros sm Hin Hfun; [contradiction|].
  rewrite write_all_cons.
  destruct (in_dec Z.eq_dec a (map fst ws)) as [Hlater|Hlater].
  - apply in_map_iff in Hlater. destruct Hlater as [[a' v'] [Ha Hin']].
    simpl in Ha. subst a'.
    assert (v' = v) by (apply Hfun; now right). subst v'.
    apply IH; [assumption|]. intros v'' H. apply Hfun. now right.
  - rewrite write_all_notin by assumption.
    destruct Hin as [->|Hin].
    + unfold upd. simpl. now rewrite Z.eqb_refl.
    + exfalso. apply Hlater. apply in_map_iff. now exists (a, v).
Qed.

Lemma In_copy128 (src : @mem half) src_off dst_off a v :
  In (a, v) (copy128 src src_off dst_off) <->
  exists e, 0 <= e < VEC /\ a = dst_off + e /\ v = src (src_off + e).
Proof.
  unfold copy128. rewrite in_map_iff. split.
  - intros [e [Heq He]]. apply In_zrange in He. inversion Heq. eauto.
  - intros [e (He & -> & ->)]. exists e. split; [reflexivity|]. now apply In_zrange.
Qed.

(** A write of the staging copy of [A] determines its thread and lane. *)
Lemma In_stage_A (A : @mem half) K b_y ld buf idx_k ord a v :
  Permutation ord block_threads ->
  In (a, v) (flat_map (stage_A A K b_y ld buf idx_k) ord) <->
  exists tid e, 0 <= tid < NUM_THREADS /\ 0 <= e < VEC /\
                a = s_A_idx ld buf (tid / 2) (8 * (tid mod 2) + e) /\
                v = A (load_g_A_off K b_y idx_k tid + e).
Proof.
  intros Hp. rewrite in_flat_map. split.
  - intros [tid [Ht Hin]].
    apply (Permutation_in _ Hp), In_block_threads in Ht.
    unfold stage_A in Hin. apply In_copy128 in Hin. destruct Hin as [e (He & -> & ->)].
    exists tid, e. rewrite load_s_A_m_eq, load_s_A_k_eq by assumption.
    unfold s_A_idx. repeat split; try lia.
  - intros [tid [e (Ht & He & -> & ->)]]. exists tid. split.
    + apply (Permutation_in _ (Permutation_sym Hp)), In_block_threads, Ht.
    + unfold stage_A. apply In_copy128. exists e.
      rewrite load_s_A_m_eq, load_s_A_k_eq by assumption.
      unfold s_A_idx. repeat split; try lia.
Qed.

Lemma In_stage_B (B : @mem half) N b_x ld buf idx_k ord a v :
  Permutation ord block_threads ->
  In (a, v) (flat_map (stage_B B N b_x ld buf idx_k) ord) <->
  exists tid e, 0 <= tid < NUM_THREADS /\ 0 <= e < VEC /\
                a = s_B_idx ld buf (tid / 16) (8 * (tid mod 16) + e) /\
                v = B (load_g_B_off N b_x idx_k tid + e).
Proof.
  intros Hp. rewrite in_flat_map. split.
  - intros [tid [Ht Hin]].
    apply (Permutation_in _ Hp), In_block_threads in Ht.
    unfold stage_B in Hin. apply In_copy128 in Hin. destruct Hin as [e (He & -> & ->)].
    exists tid, e. rewrite load_s_B_k_eq, load_s_B_n_eq by assumption.
    unfold s_B_idx. repeat split; try lia.
  - intros [tid [e (Ht & He & -> & ->)]]. exists tid. split.
    + apply (Permutation_in _ (Permutation_sym Hp)), In_block_threads, Ht.
    + unfold stage_B. apply In_copy128. exists e.
      rewrite load_s_B_k_eq, load_s_B_n_eq by assumption.
      unfold s_B_idx. repeat split; try lia.
Qed.

(** Two cells of a staging buffer share an offset only if they are the
    same cell (the leading dimension is at least the row length). *)
Lemma s_A_idx_inj ld buf m k buf' m' k' :
  BK <= ld -> 0 <= m < BM -> 0 <= m' < BM -> 0 <= k < BK -> 0 <= k' < BK ->
  0 <= buf -> 0 <= buf' ->
  s_A_idx ld buf m k = s_A_idx ld buf' m' k' -> buf = buf' /\ m = m' /\ k = k'.
Proof.
  unfold s_A_idx. geom. intros Hld Hm Hm' Hk Hk' Hb Hb' H.
  assert (buf * 128 + m = buf' * 128 + m') by nia.
  assert (k = k') by nia. lia.
Qed.

Lemma s_B_idx_inj ld buf k n buf' k' n' :
  BN <= ld -> 0 <= k < BK -> 0 <= k' < BK -> 0 <= n < BN -> 0 <= n' < BN ->
  0 <= buf -> 0 <= buf' ->
  s_B_idx ld buf k n = s_B_idx ld buf' k' n' -> buf = buf' /\ k = k' /\ n = n'.
Proof.
  unfold s_B_idx. geom. intros Hld Hk Hk' Hn Hn' Hb Hb' H.
  assert (buf * 16 + k = buf' * 16 + k') by nia.
  assert (n = n') by nia. lia.
Qed.

(** After the staging copy of slice [idx_k] into slot [buf], in any thread
    order, the slot holds the slice. *)
Lemma stage_A_holds (A : @mem half) K b_y ld buf idx_k ord sA :
  Permutation ord block_threads -> BK <= ld -> 0 <= buf ->
  holds_A A K b_y ld buf idx_k
          (write_all (flat_map (stage_A A K b_y ld buf idx_k) ord) sA).
Proof.
  intros Hp Hld Hb m k Hm Hk. unfold slice_A.
  apply write_all_in.
  - apply In_stage_A; [assumption|]. exists (2 * m + k / VEC), (k mod VEC).
    geom. repeat split; try zlia. f_equal; zlia.
  - intros v' Hin. apply In_stage_A in Hin; [|assumption].
    destruct Hin as [tid [e (Ht & He & Ha & ->)]].
    apply s_A_idx_inj in Ha; try (geom; zlia).
    destruct Ha as (_ & Hm' & Hk').
    assert (tid = 2 * m + k / VEC) by (geom; zlia).
    assert (e = k mod VEC) by (geom; zlia). congruence.
Qed.

Lemma stage_B_holds (B : @mem half) N b_x ld buf idx_k ord sB :
  Permutation ord block_threads -> BN <= ld -> 0 <= buf ->
  holds_B B N b_x ld buf idx_k
          (write_all (flat_map (stage_B B N b_x ld buf idx_k) ord) sB).
Proof.
  intros Hp Hld Hb k n Hk Hn. unfold slice_B.
  apply write_all_in.
  - apply In_stage_B; [assumption|]. exists (16 * k + n / VEC), (n mod VEC).
    geom. repeat split; try zlia. f_equal; zlia.
  - intros v' Hin. apply In_stage_B in Hin; [|assumption].
    destruct Hin as [tid [e (Ht & He & Ha & ->)]].
    apply s_B_idx_inj in Ha; try (geom; zlia).
    destruct Ha as (_ & Hk' & Hn').
    assert (tid = 16 * k + n / VEC) by (geom; zlia).
    assert (e = n mod VEC) by (geom; zlia). congruence.
Qed.

End MemoryFacts.

(** * Warp-level operations *)

Lemma flat_map_ext_in {X Y : Type} (f g : X -> list Y) (l : list X) :
  (forall x, In x l -> f x = g x) -> flat_map f l = flat_map g l.
Proof.
  induction l as [|x l IH]; intros H; [reflexivity|].
  simpl. rewrite (H x) by now left. rewrite IH; [reflexivity|].
  intros y Hy. apply H. now right.
Qed.

Lemma In_firstn {X : Type} (n : nat) (l : list X) (x : X) :
  In x (firstn n l) -> In x l.
Proof.
  revert l. induction n as [|n IH]; intros [|y l]; simpl; try contradiction.
  intros [->|H]; [now left|right; now apply IH].
Qed.

Lemma lane0_range w : 0 <= w < NUM_WARPS -> 0 <= lane0 w < NUM_THREADS.
Proof. unfold lane0. geom. lia. Qed.

Lemma warp_m_lane0 w : 0 <= w < NUM_WARPS -> warp_m (lane0 w) = w / 2.
Proof.
  intros H. rewrite warp_m_eq by now apply lane0_range.
  unfold lane0. geom. zlia.
Qed.

Lemma warp_n_lane0 w : 0 <= w < NUM_WARPS -> warp_n (lane0 w) = w mod 2.
Proof.
  intros H. rewrite warp_n_eq by now apply lane0_range.
  unfold lane0. geom. zlia.
Qed.

Lemma frag_row_range w i :
  0 <= w < NUM_WARPS -> 0 <= i < WMMA_PER_WARP_M ->
  frag_row (warp_m (lane0 w)) i = 32 * (w / 2) + 16 * i.
Proof.
  intros Hw Hi. rewrite warp_m_lane0 by assumption.
  apply frag_row_eq; [geom; zlia|assumption].
Qed.

Lemma frag_col_range w j :
  0 <= w < NUM_WARPS -> 0 <= j < WMMA_PER_WARP_N ->
  frag_col (warp_n (lane0 w)) j = 64 * (w mod 2) + 16 * j.
Proof.
  intros Hw Hj. rewrite warp_n_lane0 by assumption.
  apply frag_col_eq; [geom; zlia|assumption].
Qed.

Lemma acc_cases i j :
  0 <= i < WMMA_PER_WARP_M -> 0 <= j < WMMA_PER_WARP_N ->
  (i = 0 \/ i = 1) /\ (j = 0 \/ j = 1 \/ j = 2 \/ j = 3).
Proof. geom. lia. Qed.

Ltac each_accumulator Hi Hj :=
  destruct (acc_cases _ _ Hi Hj) as [[-> | ->] [-> | [-> | [-> | ->]]]].

Section WarpFacts.
Context {half : Type} (hzero : half).
Variable mma_sync : @fragment half -> @fragment half -> @fragment half -> @fragment half.

(** Writes into one slot leave the cells of another slot alone, also when
    only some of them have landed. *)
Lemma stage_A_frame (A : @mem half) K b_y ld buf idx_k ord sA n buf' m k :
  Permutation ord block_threads -> BK <= ld -> 0 <= buf -> 0 <= buf' -> buf <> buf' ->
  0 <= m < BM -> 0 <= k < BK ->
  write_all (firstn n (flat_map (stage_A A K b_y ld buf idx_k) ord)) sA (s_A_idx ld buf' m k)
  = sA (s_A_idx ld buf' m k).
Proof.
  intros Hp Hld Hb Hb' Hne Hm Hk. apply write_all_notin. intros Hin.
  apply in_map_iff in Hin. destruct Hin as [[a v] [Ha Hin]]. simpl in Ha. subst a.
  apply In_firstn, In_stage_A in Hin; [|assumption].
  destruct Hin as [tid [e (Ht & He & Ha & _)]].
  apply s_A_idx_inj in Ha; geom; zlia.
Qed.

Lemma stage_B_frame (B : @mem half) N b_x ld buf idx_k ord sB n buf' k n' :
  Permutation ord block_threads -> BN <= ld -> 0 <= buf -> 0 <= buf' -> buf <> buf' ->
  0 <= k < BK -> 0 <= n' < BN ->
  write_all (firstn n (flat_map (stage_B B N b_x ld buf idx_k) ord)) sB (s_B_idx ld buf' k n')
  = sB (s_B_idx ld buf' k n').
Proof.
  intros Hp Hld Hb Hb' Hne Hk Hn. apply write_all_notin. intros Hin.
  apply in_map_iff in Hin. destruct Hin as [[a v] [Ha Hin]]. simpl in Ha. subst a.
  apply In_firstn, In_stage_B in Hin; [|assumption].
  destruct Hin as [tid [e (Ht & He & Ha & _)]].
  apply s_B_idx_inj in Ha; geom; zlia.
Qed.

(** A fragment loaded from a slot that holds a slice is the tile of the
    slice, whatever the leading dimension. *)
Lemma load_frag_A_holds (A : @mem half) K b_y ld buf idx_k sA w i :
  holds_A A K b_y ld buf idx_k sA -> 0 <= w < NUM_WARPS -> 0 <= i < WMMA_PER_WARP_M ->
  load_frag_A sA ld buf w i = tile_A A K b_y idx_k w i.
Proof.
  intros Hh Hw Hi. unfold load_frag_A, load_matrix_sync, tile_A.
  apply flat_map_ext_in. intros r Hr. apply map_ext_in. intros c Hc.
  apply In_zrange in Hr, Hc. rewrite <- Hh.
  - f_equal. unfold s_A_idx. generalize (frag_row (warp_m (lane0 w)) i) BM. intros; ring.
  - rewrite frag_row_range by assumption. geom. zlia.
  - geom. lia.
Qed.

Lemma load_frag_B_holds (B : @mem half) N b_x ld buf idx_k sB w j :
  holds_B B N b_x ld buf idx_k sB -> 0 <= w < NUM_WARPS -> 0 <= j < WMMA_PER_WARP_N ->
  load_frag_B sB ld buf w j = tile_B B N b_x idx_k w j.
Proof.
  intros Hh Hw Hj. unfold load_frag_B, load_matrix_sync, tile_B.
  apply flat_map_ext_in. intros r Hr. apply map_ext_in. intros c Hc.
  apply In_zrange in Hr, Hc. rewrite <- Hh.
  - f_equal. unfold s_B_idx. generalize (frag_col (warp_n (lane0 w)) j) BK. intros; ring.
  - geom. lia.
  - rewrite frag_col_range by assumption. geom. zlia.
Qed.

(** The fill loop zeroes the eight accumulators, once each. *)
Lemma init_frag_C_frag (ws : @warp_state half) i j :
  0 <= i < WMMA_PER_WARP_M -> 0 <= j < WMMA_PER_WARP_N ->
  frag_C (init_frag_C hzero ws) i j = fill_fragment hzero.
Proof. intros Hi Hj. each_accumulator Hi Hj; reflexivity. Qed.

Lemma init_frag_C_trace (ws : @warp_state half) :
  trace (init_frag_C hzero ws) = trace ws ++ per_accumulator EvFill.
Proof.
  unfold init_frag_C, for_, per_accumulator.
  change (zrange WMMA_PER_WARP_M) with [0; 1].
  change (zrange WMMA_PER_WARP_N) with [0; 1; 2; 3].
  simpl. repeat rewrite <- app_assoc. reflexivity.
Qed.

(** The mma loop updates every accumulator in place, once. *)
Lemma mma_pass_frag fa fb (ws : @warp_state half) i j :
  0 <= i < WMMA_PER_WARP_M -> 0 <= j < WMMA_PER_WARP_N ->
  frag_C (mma_pass mma_sync fa fb ws) i j = mma_sync (fa i) (fb j) (frag_C ws i j).
Proof. intros Hi Hj. each_accumulator Hi Hj; reflexivity. Qed.

Lemma mma_pass_trace fa fb (ws : @warp_state half) :
  trace (mma_pass mma_sync fa fb ws) = trace ws ++ per_accumulator EvMma.
Proof.
  unfold mma_pass, for_, per_accumulator.
  change (zrange WMMA_PER_WARP_M) with [0; 1].
  change (zrange WMMA_PER_WARP_N) with [0; 1; 2; 3].
  simpl. repeat rewrite <- app_assoc. reflexivity.
Qed.

(** Writing back stores the eight accumulators and changes none. *)
Lemma write_back_stores N b_x b_y w (ws : @warp_state half) :
  fst (write_back hzero N b_x b_y w ws) =
  flat_map (fun i => flat_map (fun j =>
      store_matrix_sync hzero
        (store_g_C_off N b_x b_y (warp_m (lane0 w)) (warp_n (lane0 w)) i j)
        (frag_C ws i j) N) (zrange WMMA_PER_WARP_N)) (zrange WMMA_PER_WARP_M).
Proof.
  unfold write_back, for_.
  change (zrange WMMA_PER_WARP_M) with [0; 1].
  change (zrange WMMA_PER_WARP_N) with [0; 1; 2; 3].
  cbn [fold_left flat_map fst snd frag_C app].
  repeat rewrite <- app_assoc. repeat rewrite app_nil_r. reflexivity.
Qed.

Lemma write_back_frag N b_x b_y w (ws : @warp_state half) i j :
  frag_C (snd (write_back hzero N b_x b_y w ws)) i j = frag_C ws i j.
Proof. reflexivity. Qed.

Lemma write_back_trace N b_x b_y w (ws : @warp_state half) :
  trace (snd (write_back hzero N b_x b_y w ws)) = trace ws ++ per_accumulator EvStore.
Proof.
  unfold write_back, for_, per_accumulator.
  change (zrange WMMA_PER_WARP_M) with [0; 1].
  change (zrange WMMA_PER_WARP_N) with [0; 1; 2; 3].
  simpl. repeat rewrite <- app_assoc. reflexivity.
Qed.

End WarpFacts.

(** * The reduction loops of a block *)

Lemma curr_buf_eq idx_k : 1 <= idx_k <= Int32.max_int -> curr_buf idx_k = (idx_k - 1) mod 2.
Proof.
  intros H. unfold curr_buf. rewrite land_1. unfold Int32.sub.
  rewrite wrap_small; [reflexivity|]. unfold Int32.in_range, Int32.min_int, Int32.max_int in *. lia.
Qed.

Lemma next_buf_eq idx_k : next_buf idx_k = idx_k mod 2.
Proof. apply land_1. Qed.

Lemma last_buf_eq K : 1 <= K /i WMMA_SIZE_K -> last_buf K = (K /i WMMA_SIZE_K - 1) mod 2.
Proof.
  intros H. unfold last_buf. rewrite land_1. set (n := K /i WMMA_SIZE_K) in *.
  assert (Hn : Int32.in_range n) by apply wrap_in_range.
  unfold Int32.sub. rewrite wrap_small; [reflexivity|].
  unfold Int32.in_range, Int32.min_int, Int32.max_int in *. lia.
Qed.

Lemma steps_in_range K : K /i WMMA_SIZE_K <= Int32.max_int.
Proof. apply wrap_in_range. Qed.

Section BlockFacts.
Context {half : Type} (hzero : half).
Variable mma_sync : @fragment half -> @fragment half -> @fragment half -> @fragment half.
Variables (A B : @mem half) (N K b_x b_y : Z) (env : @block_env half).
Hypothesis env_fair : fair env.

(** The multiply-accumulate of slice [idx_k] on one accumulator. *)
Local Abbreviation mac w i j :=
  (fun c idx_k => mma_sync (tile_A A K b_y idx_k w i) (tile_B B N b_x idx_k w j) c).

Lemma reduce_snoc l idx_k w i j :
  reduce hzero mma_sync A B N K b_x b_y (l ++ [idx_k]) w i j =
  mma_sync (tile_A A K b_y idx_k w i) (tile_B B N b_x idx_k w j)
           (reduce hzero mma_sync A B N K b_x b_y l w i j).
Proof. unfold reduce. rewrite fold_left_app. reflexivity. Qed.

(** *** Synchronous kernel *)

Lemma sync_step_frag idx_k st w i j :
  0 <= w < NUM_WARPS -> 0 <= i < WMMA_PER_WARP_M -> 0 <= j < WMMA_PER_WARP_N ->
  frag_C (warps (sync_step mma_sync A B N K b_x b_y env idx_k st) w) i j =
  mma_sync (tile_A A K b_y idx_k w i) (tile_B B N b_x idx_k w j) (frag_C (warps st w) i j).
Proof.
  intros Hw Hi Hj. unfold sync_step. cbn [warps]. unfold warp_compute.
  rewrite mma_pass_frag by assumption.
  rewrite (load_frag_A_holds A K b_y BK 0 idx_k), (load_frag_B_holds B N b_x BN 0 idx_k);
    try assumption; try reflexivity.
  - apply stage_B_holds; [apply env_fair|lia|lia].
  - apply stage_A_holds; [apply env_fair|lia|lia].
Qed.

Lemma sync_step_trace idx_k st w :
  trace (warps (sync_step mma_sync A B N K b_x b_y env idx_k st) w) =
  trace (warps st w) ++ per_accumulator EvMma.
Proof. unfold sync_step. cbn [warps]. apply mma_pass_trace. Qed.

Lemma sync_loop_frag l st w i j :
  0 <= w < NUM_WARPS -> 0 <= i < WMMA_PER_WARP_M -> 0 <= j < WMMA_PER_WARP_N ->
  frag_C (warps (fold_left (fun s idx_k => sync_step mma_sync A B N K b_x b_y env idx_k s) l st) w) i j
  = fold_left (mac w i j) l (frag_C (warps st w) i j).
Proof.
  intros Hw Hi Hj. revert st. induction l as [|idx_k l IH]; intros st; [reflexivity|].
  cbn [fold_left]. rewrite IH. now rewrite sync_step_frag.
Qed.

Lemma sync_loop_trace l st w :
  trace (warps (fold_left (fun s idx_k => sync_step mma_sync A B N K b_x b_y env idx_k s) l st) w)
  = trace (warps st w) ++ flat_map (fun _ => per_accumulator EvMma) l.
Proof.
  revert st. induction l as [|idx_k l IH]; intros st.
  - simpl. now rewrite app_nil_r.
  - cbn [fold_left flat_map]. rewrite IH, sync_step_trace. now rewrite app_assoc.
Qed.

(** After the loop every accumulator is the reduction over the slices
    [0 .. K/16 - 1], in this order. *)
Lemma sync_block_frag w i j :
  0 <= w < NUM_WARPS -> 0 <= i < WMMA_PER_WARP_M -> 0 <= j < WMMA_PER_WARP_N ->
  frag_C (warps (sync_block hzero mma_sync A B N K b_x b_y env) w) i j =
  reduce hzero mma_sync A B N K b_x b_y (zrange (K /i WMMA_SIZE_K)) w i j.
Proof.
  intros Hw Hi Hj. unfold sync_block, for_. rewrite sync_loop_frag by assumption.
  unfold block_entry. cbn [warps]. now rewrite init_frag_C_frag.
Qed.

Lemma sync_block_trace w :
  trace (warps (sync_block hzero mma_sync A B N K b_x b_y env) w) =
  per_accumulator EvFill ++
  flat_map (fun _ => per_accumulator EvMma) (zrange (K /i WMMA_SIZE_K)).
Proof.
  unfold sync_block, for_. rewrite sync_loop_trace.
  unfold block_entry. cbn [warps]. now rewrite init_frag_C_trace.
Qed.

(** *** Asynchronous kernel *)

Variable PAD : Z.
Hypothesis PAD_nonneg : 0 <= PAD.

Local Abbreviation astep := (fun s idx_k => async_step mma_sync PAD A B N K b_x b_y env idx_k s).

(** The events of steady-state iteration [idx_k]. *)
Local Abbreviation iteration_events :=
  (fun idx_k => [PvIssue (idx_k mod 2) idx_k; PvCompute ((idx_k - 1) mod 2); PvWait]).

Lemma async_fill_holds st :
  holds_A A K b_y (ldA PAD) 0 0 (s_A (async_fill PAD A B N K b_x b_y env st)) /\
  holds_B B N b_x (ldB PAD) 0 0 (s_B (async_fill PAD A B N K b_x b_y env st)).
Proof.
  unfold async_fill, pending_A, pending_B, ldA, ldB. cbn [s_A s_B]. split.
  - apply stage_A_holds; [apply env_fair|lia|lia].
  - apply stage_B_holds; [apply env_fair|lia|lia].
Qed.

(** One steady-state iteration: from a state whose slot [(idx_k-1) mod 2]
    holds slice [idx_k - 1], the warps multiply-accumulate that slice, and
    slot [idx_k mod 2] holds slice [idx_k] afterwards. *)
Lemma async_step_spec idx_k st :
  1 <= idx_k <= Int32.max_int ->
  holds_A A K b_y (ldA PAD) ((idx_k - 1) mod 2) (idx_k - 1) (s_A st) ->
  holds_B B N b_x (ldB PAD) ((idx_k - 1) mod 2) (idx_k - 1) (s_B st) ->
  let st' := async_step mma_sync PAD A B N K b_x b_y env idx_k st in
  holds_A A K b_y (ldA PAD) (idx_k mod 2) idx_k (s_A st') /\
  holds_B B N b_x (ldB PAD) (idx_k mod 2) idx_k (s_B st') /\
  (forall w i j,
      0 <= w < NUM_WARPS -> 0 <= i < WMMA_PER_WARP_M -> 0 <= j < WMMA_PER_WARP_N ->
      frag_C (warps st' w) i j =
      mma_sync (tile_A A K b_y (idx_k - 1) w i) (tile_B B N b_x (idx_k - 1) w j)
               (frag_C (warps st w) i j)) /\
  (forall w, trace (warps st' w) = trace (warps st w) ++ per_accumulator EvMma) /\
  pipe st' = pipe st ++ iteration_events idx_k.
Proof.
  intros Hidx HA HB st'. subst st'. unfold async_step. cbn [s_A s_B warps pipe].
  rewrite curr_buf_eq, next_buf_eq by assumption.
  assert (Hslot : 0 <= idx_k mod 2 /\ 0 <= (idx_k - 1) mod 2 /\ idx_k mod 2 <> (idx_k - 1) mod 2)
    by zlia.
  destruct Hslot as (Hs1 & Hs2 & Hs3).
  split; [|split; [|split; [|split]]].
  - unfold pending_A, ldA. apply stage_A_holds; [apply env_fair|lia|lia].
  - unfold pending_B, ldB. apply stage_B_holds; [apply env_fair|lia|lia].
  - intros w i j Hw Hi Hj. unfold warp_compute. rewrite mma_pass_frag by assumption.
    rewrite (load_frag_A_holds A K b_y (ldA PAD) ((idx_k - 1) mod 2) (idx_k - 1)),
            (load_frag_B_holds B N b_x (ldB PAD) ((idx_k - 1) mod 2) (idx_k - 1));
      try assumption; try reflexivity.
    + intros k n Hk Hn. unfold seen_B, pending_B.
      rewrite next_buf_eq, stage_B_frame; try assumption;
        [now apply HB|apply env_fair|unfold ldB; lia].
    + intros m k Hm Hk. unfold seen_A, pending_A.
      rewrite next_buf_eq, stage_A_frame; try assumption;
        [now apply HA|apply env_fair|unfold ldA; lia].
  - intros w. unfold warp_compute. apply mma_pass_trace.
  - reflexivity.
Qed.

(** The state after the iterations [1 .. k] of the main loop. *)
Lemma async_loop_spec (k : nat) st0 :
  Z.of_nat k <= Int32.max_int ->
  holds_A A K b_y (ldA PAD) 0 0 (s_A st0) ->
  holds_B B N b_x (ldB PAD) 0 0 (s_B st0) ->
  let st := fold_left astep (zrange_from 1 (1 + Z.of_nat k)) st0 in
  holds_A A K b_y (ldA PAD) (Z.of_nat k mod 2) (Z.of_nat k) (s_A st) /\
  holds_B B N b_x (ldB PAD) (Z.of_nat k mod 2) (Z.of_nat k) (s_B st) /\
  (forall w i j,
      0 <= w < NUM_WARPS -> 0 <= i < WMMA_PER_WARP_M -> 0 <= j < WMMA_PER_WARP_N ->
      frag_C (warps st w) i j =
      fold_left (mac w i j) (zrange (Z.of_nat k)) (frag_C (warps st0 w) i j)) /\
  (forall w, trace (warps st w) =
             trace (warps st0 w) ++
             flat_map (fun _ => per_accumulator EvMma) (zrange_from 1 (1 + Z.of_nat k))) /\
  pipe st = pipe st0 ++ flat_map iteration_events (zrange_from 1 (1 + Z.of_nat k)).
Proof.
  intros Hk HA HB. induction k as [|k IH].
  - cbn. repeat split; try assumption; intros; now rewrite app_nil_r.
  - cbv zeta in *.
    replace (1 + Z.of_nat (S k)) with ((1 + Z.of_nat k) + 1) by lia.
    rewrite zrange_from_succ by lia. rewrite fold_left_app. cbn [fold_left].
    destruct IH as (IA & IB & IF & IT & IP); [lia|].
    set (st := fold_left astep (zrange_from 1 (1 + Z.of_nat k)) st0) in *.
    replace (Z.of_nat (S k)) with ((1 + Z.of_nat k)) by lia.
    destruct (async_step_spec (1 + Z.of_nat k) st) as (SA & SB & SF & ST & SP).
    + lia.
    + now replace (1 + Z.of_nat k - 1) with (Z.of_nat k) by lia.
    + now replace (1 + Z.of_nat k - 1) with (Z.of_nat k) by lia.
    + split; [exact SA|]. split; [exact SB|]. split; [|split].
      * intros w i j Hw Hi Hj. rewrite SF, IF by assumption.
        replace (1 + Z.of_nat k) with (Z.of_nat k + 1) by lia.
        rewrite zrange_succ by lia. rewrite fold_left_app. cbn [fold_left].
        now replace (Z.of_nat k + 1 - 1) with (Z.of_nat k) by lia.
      * intros w. rewrite ST, IT, flat_map_app. cbn [flat_map].
        now rewrite app_nil_r, app_assoc.
      * rewrite SP, IP, flat_map_app. cbn [flat_map].
        now rewrite app_nil_r, app_assoc.
Qed.

(** Event traces of the asynchronous kernel need no assumption. *)
Lemma async_loop_trace l st w :
  trace (warps (fold_left astep l st) w) =
  trace (warps st w) ++ flat_map (fun _ => per_accumulator EvMma) l.
Proof.
  revert st. induction l as [|idx_k l IH]; intros st.
  - simpl. now rewrite app_nil_r.
  - cbn [fold_left flat_map]. rewrite IH. unfold async_step. cbn [warps].
    unfold warp_compute. rewrite mma_pass_trace. now rewrite app_assoc.
Qed.


Lemma async_block_trace w :
  trace (warps (async_block hzero mma_sync PAD A B N K b_x b_y env) w) =
  per_accumulator EvFill ++
  flat_map (fun _ => per_accumulator EvMma) (zrange_from 1 (K /i WMMA_SIZE_K)) ++
  per_accumulator EvMma.
Proof.
  unfold async_block, async_drain, async_loop, for_from. cbn [warps].
  unfold warp_compute. rewrite mma_pass_trace, async_loop_trace.
  unfold async_fill, block_entry. cbn [warps]. rewrite init_frag_C_trace.
  cbn [trace app]. now rewrite <- app_assoc.
Qed.


(** With at least one slice, the state before the drain pass has slice
    [K/16 - 1] in slot [(K/16 - 1) mod 2] and the first [K/16 - 1] slices
    accumulated. *)
Lemma async_before_drain :
  1 <= K /i WMMA_SIZE_K ->
  let n := K /i WMMA_SIZE_K in
  let st := async_loop mma_sync PAD A B N K b_x b_y env
              (async_fill PAD A B N K b_x b_y env (block_entry hzero env)) in
  holds_A A K b_y (ldA PAD) ((n - 1) mod 2) (n - 1) (s_A st) /\
  holds_B B N b_x (ldB PAD) ((n - 1) mod 2) (n - 1) (s_B st) /\
  (forall w i j,
      0 <= w < NUM_WARPS -> 0 <= i < WMMA_PER_WARP_M -> 0 <= j < WMMA_PER_WARP_N ->
      frag_C (warps st w) i j = reduce hzero mma_sync A B N K b_x b_y (zrange (n - 1)) w i j).
Proof.
  intros Hn n st. subst st. unfold async_loop, for_from. fold n.
  pose proof (steps_in_range K) as Hmax. fold n in Hmax.
  destruct (async_fill_holds (block_entry hzero env)) as [FA FB].
  destruct (async_loop_spec (Z.to_nat (n - 1)) _ ltac:(lia) FA FB) as (LA & LB & LF & _).
  replace (1 + Z.of_nat (Z.to_nat (n - 1))) with n in * by lia.
  replace (Z.of_nat (Z.to_nat (n - 1))) with (n - 1) in * by lia.
  split; [exact LA|]. split; [exact LB|].
  intros w i j Hw Hi Hj. rewrite LF by assumption.
  unfold async_fill, block_entry. cbn [warps]. now rewrite init_frag_C_frag.
Qed.

(** After the drain pass every accumulator is the reduction over the
    slices [0 .. K/16 - 1], in this order. *)
Lemma async_block_frag w i j :
  1 <= K /i WMMA_SIZE_K ->
  0 <= w < NUM_WARPS -> 0 <= i < WMMA_PER_WARP_M -> 0 <= j < WMMA_PER_WARP_N ->
  frag_C (warps (async_block hzero mma_sync PAD A B N K b_x b_y env) w) i j =
  reduce hzero mma_sync A B N K b_x b_y (zrange (K /i WMMA_SIZE_K)) w i j.
Proof.
  intros Hn Hw Hi Hj. destruct (async_before_drain Hn) as (DA & DB & DF).
  unfold async_block, async_drain. cbn [warps]. unfold warp_compute.
  rewrite mma_pass_frag by assumption. rewrite last_buf_eq by assumption.
  rewrite (load_frag_A_holds A K b_y (ldA PAD) _ _ _ _ _ DA),
          (load_frag_B_holds B N b_x (ldB PAD) _ _ _ _ _ DB) by assumption.
  rewrite DF by assumption.
  replace (zrange (K /i WMMA_SIZE_K)) with (zrange ((K /i WMMA_SIZE_K - 1) + 1))
    by (f_equal; lia).
  rewrite zrange_succ by lia. now rewrite reduce_snoc.
Qed.

(** Without a slice ([K/16 = 0]) the loop does not run and the drain pass
    reads slot 1, which no copy has filled: the accumulators are one
    mma_sync of whatever shared memory held at entry. *)
Lemma async_block_no_slice w i j :
  K /i WMMA_SIZE_K = 0 ->
  0 <= w < NUM_WARPS -> 0 <= i < WMMA_PER_WARP_M -> 0 <= j < WMMA_PER_WARP_N ->
  frag_C (warps (async_block hzero mma_sync PAD A B N K b_x b_y env) w) i j =
  mma_sync (load_frag_A (s_A0 env) (ldA PAD) 1 w i) (load_frag_B (s_B0 env) (ldB PAD) 1 w j)
           (fill_fragment hzero).
Proof.
  intros HK Hw Hi Hj. unfold async_block, async_drain, async_loop, for_from, last_buf.
  rewrite HK. cbn [zrange_from zrange Z.sub Z.opp Z.add Z.pos_sub Z.to_nat seq map fold_left warps].
  replace ((0 -i 1) &i 1) with 1 by reflexivity.
  unfold warp_compute. rewrite mma_pass_frag by assumption.
  unfold async_fill, block_entry. cbn [warps s_A s_B]. rewrite init_frag_C_frag by assumption.
  f_equal.
  - unfold load_frag_A, load_matrix_sync. apply flat_map_ext_in. intros r Hr.
    apply map_ext_in. intros c Hc. apply In_zrange in Hr, Hc.
    unfold pending_A.
    rewrite <- (firstn_all (flat_map (stage_A A K b_y (ldA PAD) 0 0) (order env 0))).
    replace (s_A_idx (ldA PAD) 1 (frag_row (warp_m (lane0 w)) i) 0 + r * ldA PAD + c)
      with (s_A_idx (ldA PAD) 1 (frag_row (warp_m (lane0 w)) i + r) c)
      by (unfold s_A_idx; generalize (frag_row (warp_m (lane0 w)) i) BM; intros; ring).
    apply stage_A_frame; try (unfold ldA; geom; lia); try apply env_fair.
    rewrite frag_row_range by assumption. geom. zlia.
  - unfold load_frag_B, load_matrix_sync. apply flat_map_ext_in. intros r Hr.
    apply map_ext_in. intros c Hc. apply In_zrange in Hr, Hc.
    unfold pending_B.
    rewrite <- (firstn_all (flat_map (stage_B B N b_x (ldB PAD) 0 0) (order env 0))).
    replace (s_B_idx (ldB PAD) 1 0 (frag_col (warp_n (lane0 w)) j) + r * ldB PAD + c)
      with (s_B_idx (ldB PAD) 1 r (frag_col (warp_n (lane0 w)) j + c))
      by (unfold s_B_idx; generalize (frag_col (warp_n (lane0 w)) j) BK; intros; ring).
    apply stage_B_frame; try (unfold ldB; geom; lia); try apply env_fair.
    rewrite frag_col_range by assumption. geom. zlia.
Qed.

End BlockFacts.

(** * The output writer *)

Lemma length_zrange (n : Z) : length (zrange n) = Z.to_nat n.
Proof. unfold zrange. now rewrite length_map, length_seq. Qed.

Lemma length_flat_map_const {X Y : Type} (f : X -> list Y) (l : list X) (k : nat) :
  (forall x, In x l -> length (f x) = k) -> length (flat_map f l) = (length l * k)%nat.
Proof.
  induction l as [|x l IH]; intros H; [reflexivity|].
  cbn [flat_map length]. rewrite length_app, (H x) by now left.
  rewrite IH; [lia|]. intros y Hy. apply H. now right.
Qed.

Lemma map_flat_map {X Y W : Type} (g : Y -> W) (f : X -> list Y) (l : list X) :
  map g (flat_map f l) = flat_map (fun x => map g (f x)) l.
Proof.
  induction l as [|x l IH]; [reflexivity|].
  cbn [flat_map]. now rewrite map_app, IH.
Qed.

Lemma NoDup_fst_functional {X : Type} (l : list (Z * X)) a v v' :
  NoDup (map fst l) -> In (a, v) l -> In (a, v') l -> v' = v.
Proof.
  induction l as [|[b u] l IH]; intros Hnd H1 H2; [contradiction|].
  cbn [map fst] in Hnd. inversion Hnd as [|? ? Hnotin Hnd']; subst.
  destruct H1 as [H1|H1], H2 as [H2|H2].
  - congruence.
  - inversion H1; subst. exfalso. apply Hnotin. apply in_map_iff. now exists (a, v').
  - inversion H2; subst. exfalso. apply Hnotin. apply in_map_iff. now exists (a, v).
  - now apply IH.
Qed.

(** Offsets of the stores, without wrap-around, when every element of the
    [M x N] output is addressable with an [int]. *)
Lemma writer_off_eq M N gx gy t :
  0 <= M -> 0 <= N -> M * N <= Int32.max_int ->
  128 * gx <= N -> 128 * gy <= M -> writer_valid gx gy t ->
  writer_off N t =
  (128 * w_by t + 32 * (w_warp t / 2) + 16 * w_i t + w_r t) * N
  + (128 * w_bx t + 64 * (w_warp t mod 2) + 16 * w_j t + w_c t).
Proof.
  intros HM HN HMN Hgx Hgy (Hbx & Hby & Hw & Hi & Hj & Hr & Hc).
  unfold writer_off, store_g_C_off.
  rewrite warp_m_lane0, warp_n_lane0 by assumption.
  assert (Hn1 : 1 <= N) by lia.
  assert (HMmax : M <= Int32.max_int) by nia.
  assert (HNmax : N <= Int32.max_int) by nia.
  assert (Em : store_g_C_m (w_by t) (w_warp t / 2) (w_i t)
               = 128 * w_by t + 32 * (w_warp t / 2) + 16 * w_i t).
  { unfold store_g_C_m. geom. unfold Int32.max_int in *. unwrap. lia. }
  assert (En : store_g_C_n (w_bx t) (w_warp t mod 2) (w_j t)
               = 128 * w_bx t + 64 * (w_warp t mod 2) + 16 * w_j t).
  { unfold store_g_C_n. geom. unfold Int32.max_int in *. unwrap. lia. }
  rewrite Em, En. unfold Int32.mul. rewrite wrap_small; [ring|].
  unfold Int32.in_range, Int32.min_int, Int32.max_int in *. geom.
  assert (0 <= 128 * w_by t + 32 * (w_warp t / 2) + 16 * w_i t <= M - 16) by zlia.
  nia.
Qed.

Lemma writer_of_valid M N m n :
  0 <= m < M -> 0 <= n < N -> M mod 128 = 0 -> N mod 128 = 0 ->
  writer_valid (N / 128) (M / 128) (writer_of m n) /\
  writer_row (writer_of m n) = m /\ writer_col (writer_of m n) = n.
Proof.
  intros Hm Hn HM HN. unfold writer_valid, writer_row, writer_col, writer_of.
  cbn [w_bx w_by w_warp w_i w_j w_r w_c]. geom. zlia.
Qed.


Lemma row_col_unique N m n m' n' :
  0 <= n < N -> 0 <= n' < N -> m * N + n = m' * N + n' -> m = m' /\ n = n'.
Proof. intros Hn Hn' H. assert (m = m') by nia. subst. lia. Qed.

Section StoreFacts.
Context {half : Type} (hzero : half).

Lemma In_store_matrix_sync base (f : @fragment half) ldm a v :
  In (a, v) (store_matrix_sync hzero base f ldm) <->
  exists r c, 0 <= r < WMMA_SIZE_M /\ 0 <= c < WMMA_SIZE_N /\
              a = base + r * ldm + c /\ v = frag_elt hzero f r c.
Proof.
  unfold store_matrix_sync. rewrite in_flat_map. split.
  - intros [r [Hr Hin]]. apply in_map_iff in Hin. destruct Hin as [c [Heq Hc]].
    apply In_zrange in Hr, Hc. inversion Heq. now exists r, c.
  - intros [r [c (Hr & Hc & -> & ->)]]. exists r. split; [now apply In_zrange|].
    apply in_map_iff. exists c. split; [reflexivity|now apply In_zrange].
Qed.

Lemma length_store_matrix_sync base (f : @fragment half) ldm :
  length (store_matrix_sync hzero base f ldm) = Z.to_nat 256.
Proof.
  unfold store_matrix_sync.
  rewrite (length_flat_map_const _ _ (Z.to_nat 16)).
  - rewrite length_zrange. geom. lia.
  - intros r _. rewrite length_map, length_zrange. reflexivity.
Qed.

Lemma length_block_stores N b_x b_y (st : @block_state half) :
  length (block_stores hzero N b_x b_y st) = Z.to_nat 16384.
Proof.
  unfold block_stores.
  rewrite (length_flat_map_const _ _ (Z.to_nat 2048)).
  - rewrite length_zrange. geom. lia.
  - intros w _. rewrite write_back_stores.
    rewrite (length_flat_map_const _ _ (Z.to_nat 1024)).
    + rewrite length_zrange. geom. lia.
    + intros i _. rewrite (length_flat_map_const _ _ (Z.to_nat 256)).
      * rewrite length_zrange. geom. lia.
      * intros j _. apply length_store_matrix_sync.
Qed.

Lemma length_launch gx gy (blk : Z -> Z -> list (@write half)) (k : nat) :
  (forall b_x b_y, length (blk b_x b_y) = k) ->
  length (launch gx gy blk) = (Z.to_nat gy * (Z.to_nat gx * k))%nat.
Proof.
  intros H. unfold launch.
  rewrite (length_flat_map_const _ _ (Z.to_nat gx * k)%nat).
  - now rewrite length_zrange.
  - intros b_y _. rewrite (length_flat_map_const _ _ k).
    + now rewrite length_zrange.
    + intros b_x _. apply H.
Qed.

(** The stores of a launch are the stores of the valid writers. *)
Lemma In_launch_stores N gx gy (blk : Z -> Z -> @block_state half) a v :
  In (a, v) (launch gx gy (fun b_x b_y => block_stores hzero N b_x b_y (blk b_x b_y))) <->
  exists t, writer_valid gx gy t /\ a = writer_off N t /\
            v = frag_elt hzero
                  (frag_C (warps (blk (w_bx t) (w_by t)) (w_warp t)) (w_i t) (w_j t))
                  (w_r t) (w_c t).
Proof.
  unfold launch, block_stores. split.
  - intros H. apply in_flat_map in H. destruct H as [b_y [Hby H]].
    apply in_flat_map in H. destruct H as [b_x [Hbx H]].
    apply in_flat_map in H. destruct H as [w [Hw H]].
    rewrite write_back_stores in H.
    apply in_flat_map in H. destruct H as [i [Hi H]].
    apply in_flat_map in H. destruct H as [j [Hj H]].
    apply In_store_matrix_sync in H. destruct H as [r [c (Hr & Hc & -> & ->)]].
    apply In_zrange in Hby, Hbx, Hw, Hi, Hj.
    exists {| w_bx := b_x; w_by := b_y; w_warp := w; w_i := i; w_j := j;
              w_r := r; w_c := c |}.
    unfold writer_valid, writer_off. cbn [w_bx w_by w_warp w_i w_j w_r w_c].
    repeat split; try lia.
  - intros [[b_x b_y w i j r c] (V & -> & ->)].
    unfold writer_valid, writer_off in *. cbn [w_bx w_by w_warp w_i w_j w_r w_c] in *.
    destruct V as (Hbx & Hby & Hw & Hi & Hj & Hr & Hc).
    apply in_flat_map. exists b_y. split; [now apply In_zrange|].
    apply in_flat_map. exists b_x. split; [now apply In_zrange|].
    apply in_flat_map. exists w. split; [now apply In_zrange|].
    rewrite write_back_stores.
    apply in_flat_map. exists i. split; [now apply In_zrange|].
    apply in_flat_map. exists j. split; [now apply In_zrange|].
    apply In_store_matrix_sync. exists r, c. repeat split; try lia.
Qed.

(** Whatever the blocks computed, the offsets stored by a launch over the
    grid [(N/128, M/128)] are the offsets [0 .. M*N - 1], once each. *)
Lemma launch_offsets_permutation M N (blk : Z -> Z -> @block_state half) :
  0 <= M -> 0 <= N -> M mod 128 = 0 -> N mod 128 = 0 -> M * N <= Int32.max_int ->
  Permutation
    (zrange (M * N))
    (map fst (launch (N / 128) (M / 128)
                     (fun b_x b_y => block_stores hzero N b_x b_y (blk b_x b_y)))).
Proof.
  intros HM HN HM128 HN128 HMN.
  apply NoDup_Permutation_bis.
  - apply NoDup_zrange.
  - rewrite length_map, length_zrange.
    rewrite (length_launch _ _ _ (Z.to_nat 16384)) by (intros; apply length_block_stores).
    assert (M * N = (M / 128) * ((N / 128) * 16384)) by zlia.
    assert (0 <= M / 128 /\ 0 <= N / 128) by zlia. nia.
  - intros a Ha. apply In_zrange in Ha.
    assert (Hn : 0 < N) by nia.
    destruct (writer_of_valid M N (a / N) (a mod N)) as (V & Hrow & Hcol);
      try assumption; try zlia.
    { split; [apply Z.div_pos; lia|]. apply Z.div_lt_upper_bound; nia. }
    apply in_map_iff.
    eexists (a, _). split; [reflexivity|].
    apply In_launch_stores. exists (writer_of (a / N) (a mod N)).
    split; [exact V|]. split; [|reflexivity].
    rewrite (writer_off_eq M N (N / 128) (M / 128)); try assumption; try zlia.
    fold (writer_row (writer_of (a / N) (a mod N))).
    fold (writer_col (writer_of (a / N) (a mod N))).
    rewrite Hrow, Hcol. zlia.
Qed.

(** The element [(m, n)] of [C] after the launch is the element of the
    accumulator of the warp that owns it. *)
Lemma C_after_launch M N (blk : Z -> Z -> @block_state half) (C0 : @mem half) m n :
  0 <= M -> 0 <= N -> M mod 128 = 0 -> N mod 128 = 0 -> M * N <= Int32.max_int ->
  0 <= m < M -> 0 <= n < N ->
  let t := writer_of m n in
  C_after C0 (launch (N / 128) (M / 128)
                     (fun b_x b_y => block_stores hzero N b_x b_y (blk b_x b_y)))
          (m * N + n)
  = frag_elt hzero (frag_C (warps (blk (w_bx t) (w_by t)) (w_warp t)) (w_i t) (w_j t))
             (w_r t) (w_c t).
Proof.
  intros HM HN HM128 HN128 HMN Hm Hn t. unfold C_after.
  destruct (writer_of_valid M N m n) as (V & Hrow & Hcol); try assumption.
  assert (Hin : In (m * N + n, frag_elt hzero
                 (frag_C (warps (blk (w_bx t) (w_by t)) (w_warp t)) (w_i t) (w_j t))
                 (w_r t) (w_c t))
                (launch (N / 128) (M / 128)
                   (fun b_x b_y => block_stores hzero N b_x b_y (blk b_x b_y)))).
  { apply In_launch_stores. exists t. split; [exact V|]. split; [|reflexivity].
    subst t. rewrite (writer_off_eq M N (N / 128) (M / 128)); try assumption; try zlia.
    fold (writer_row (writer_of m n)). fold (writer_col (writer_of m n)).
    now rewrite Hrow, Hcol. }
  apply write_all_in; [exact Hin|].
  intros v' Hin'. apply (NoDup_fst_functional _ _ _ _ (Permutation_NoDup
    (launch_offsets_permutation M N blk HM HN HM128 HN128 HMN) (NoDup_zrange _)) Hin Hin').
Qed.

(** Block stores depend on the accumulators only. *)
Lemma block_stores_ext N b_x b_y (st st' : @block_state half) :
  (forall w i j,
      0 <= w < NUM_WARPS -> 0 <= i < WMMA_PER_WARP_M -> 0 <= j < WMMA_PER_WARP_N ->
      frag_C (warps st w) i j = frag_C (warps st' w) i j) ->
  block_stores hzero N b_x b_y st = block_stores hzero N b_x b_y st'.
Proof.
  intros H. unfold block_stores. apply flat_map_ext_in. intros w Hw.
  rewrite !write_back_stores. apply flat_map_ext_in. intros i Hi.
  apply flat_map_ext_in. intros j Hj. apply In_zrange in Hw, Hi, Hj.
  now rewrite H.
Qed.

Lemma launch_ext gx gy (blk blk' : Z -> Z -> list (@write half)) :
  (forall b_x b_y, blk b_x b_y = blk' b_x b_y) -> launch gx gy blk = launch gx gy blk'.
Proof.
  intros H. unfold launch. apply flat_map_ext_in. intros b_y _.
  apply flat_map_ext_in. intros b_x _. apply H.
Qed.

End StoreFacts.

Lemma grid_x_eq N : 0 <= N <= Int32.max_int -> grid_x N = N / 128.
Proof. unfold grid_x, Int32.max_int. geom. intros H. unwrap. zlia. Qed.

Lemma grid_y_eq M : 0 <= M <= Int32.max_int -> grid_y M = M / 128.
Proof. unfold grid_y, Int32.max_int. geom. intros H. unwrap. zlia. Qed.

(** * The kernels *)

Lemma steps_eq K : 0 <= K <= Int32.max_int -> K /i WMMA_SIZE_K = K / 16.
Proof. unfold Int32.max_int. geom. intros H. unwrap. zlia. Qed.

Section KernelTheorems.
Context {half : Type} (hzero : half).
Variable mma_sync : @fragment half -> @fragment half -> @fragment half -> @fragment half.

Lemma lockstep_env_fair (g : half) : fair (lockstep_env g).
Proof. intros idx_k. apply Permutation_refl. Qed.

(** With at least one slice the two kernels store the same values at the
    same offsets, in the same order, whatever their environments and the
    padding. *)
Lemma sync_async_agree PAD (A B : @mem half) M M' N K gx gy envs envs' :
  (forall b_x b_y, fair (envs b_x b_y)) -> (forall b_x b_y, fair (envs' b_x b_y)) ->
  0 <= PAD -> 1 <= K /i WMMA_SIZE_K ->
  hgemm_m16n16k16mma2x4_wp4x2_async hzero mma_sync PAD A B M' N K gx gy envs' =
  hgemm_m16n16k16mma2x4_wp4x2 hzero mma_sync A B M N K gx gy envs.
Proof.
  intros Hf Hf' HP HK.
  unfold hgemm_m16n16k16mma2x4_wp4x2_async, hgemm_m16n16k16mma2x4_wp4x2.
  apply launch_ext. intros b_x b_y. apply block_stores_ext. intros w i j Hw Hi Hj.
  rewrite async_block_frag, sync_block_frag; auto.
Qed.

(** The synchronous kernel does not depend on its environment. *)
Lemma sync_deterministic (A B : @mem half) M N K gx gy envs envs' :
  (forall b_x b_y, fair (envs b_x b_y)) -> (forall b_x b_y, fair (envs' b_x b_y)) ->
  hgemm_m16n16k16mma2x4_wp4x2 hzero mma_sync A B M N K gx gy envs =
  hgemm_m16n16k16mma2x4_wp4x2 hzero mma_sync A B M N K gx gy envs'.
Proof.
  intros Hf Hf'. unfold hgemm_m16n16k16mma2x4_wp4x2.
  apply launch_ext. intros b_x b_y. apply block_stores_ext. intros w i j Hw Hi Hj.
  rewrite !sync_block_frag; auto.
Qed.

(** With at least one slice, the asynchronous kernel depends neither on its
    environment nor on the padding. *)
Lemma async_deterministic PAD PAD' (A B : @mem half) M N K gx gy envs envs' :
  (forall b_x b_y, fair (envs b_x b_y)) -> (forall b_x b_y, fair (envs' b_x b_y)) ->
  0 <= PAD -> 0 <= PAD' -> 1 <= K /i WMMA_SIZE_K ->
  hgemm_m16n16k16mma2x4_wp4x2_async hzero mma_sync PAD A B M N K gx gy envs =
  hgemm_m16n16k16mma2x4_wp4x2_async hzero mma_sync PAD' A B M N K gx gy envs'.
Proof.
  intros Hf Hf' HP HP' HK.
  rewrite (sync_async_agree PAD A B M M N K gx gy envs envs) by assumption.
  now rewrite (sync_async_agree PAD' A B M M N K gx gy envs envs') by assumption.
Qed.


Lemma count_fill_in_fills i j :
  0 <= i < WMMA_PER_WARP_M -> 0 <= j < WMMA_PER_WARP_N ->
  count_occ acc_event_eq_dec (per_accumulator EvFill) (EvFill i j) = 1%nat.
Proof. intros Hi Hj. each_accumulator Hi Hj; reflexivity. Qed.

Lemma count_fill_in_mmas (l : list Z) i j :
  count_occ acc_event_eq_dec (flat_map (fun _ => per_accumulator EvMma) l) (EvFill i j) = 0%nat.
Proof.
  induction l as [|x l IH]; [reflexivity|].
  cbn [flat_map]. rewrite count_occ_app, IH. reflexivity.
Qed.

Lemma count_fill_in_stores i j :
  count_occ acc_event_eq_dec (per_accumulator EvStore) (EvFill i j) = 0%nat.
Proof. reflexivity. Qed.

(** C6. In both kernels every accumulator is zeroed once, before the
    reduction loop: the register events of a warp are the eight fills, then
    mma_sync events only, then the eight stores; each [EvFill i j] occurs
    once; every loop iteration and the drain pass replace an accumulator by
    [mma_sync a b] of its previous value, and writing back leaves it as it
    is. *)
Theorem accumulators_zeroed_once
        PAD (A B : @mem half) N K b_x b_y (env : @block_env half) w i j :
  0 <= i < WMMA_PER_WARP_M -> 0 <= j < WMMA_PER_WARP_N ->
  let mmas l := flat_map (fun _ : Z => per_accumulator EvMma) l in
  let ts := trace (warp_final hzero N b_x b_y w
                     (sync_block hzero mma_sync A B N K b_x b_y env)) in
  let ta := trace (warp_final hzero N b_x b_y w
                     (async_block hzero mma_sync PAD A B N K b_x b_y env)) in
  (frag_C (warps (block_entry hzero env) w) i j = fill_fragment hzero /\
   fill_fragment hzero = repeat hzero 256) /\
  ts = per_accumulator EvFill ++ mmas (zrange (K /i WMMA_SIZE_K)) ++ per_accumulator EvStore /\
  ta = per_accumulator EvFill ++
       (mmas (zrange_from 1 (K /i WMMA_SIZE_K)) ++ per_accumulator EvMma) ++
       per_accumulator EvStore /\
  count_occ acc_event_eq_dec ts (EvFill i j) = 1%nat /\
  count_occ acc_event_eq_dec ta (EvFill i j) = 1%nat /\
  (forall idx_k st, exists a b,
      frag_C (warps (sync_step mma_sync A B N K b_x b_y env idx_k st) w) i j =
      mma_sync a b (frag_C (warps st w) i j)) /\
  (forall idx_k st, exists a b,
      frag_C (warps (async_step mma_sync PAD A B N K b_x b_y env idx_k st) w) i j =
      mma_sync a b (frag_C (warps st w) i j)) /\
  (forall st, exists a b,
      frag_C (warps (async_drain mma_sync PAD K st) w) i j =
      mma_sync a b (frag_C (warps st w) i j)) /\
  (forall st, frag_C (warp_final hzero N b_x b_y w st) i j = frag_C (warps st w) i j).
Proof.
  intros Hi Hj mmas ts ta.
  assert (Hts : ts = per_accumulator EvFill ++ mmas (zrange (K /i WMMA_SIZE_K))
                     ++ per_accumulator EvStore).
  { subst ts. unfold warp_final. rewrite write_back_trace, sync_block_trace.
    now rewrite <- app_assoc. }
  assert (Hta : ta = per_accumulator EvFill ++
                     (mmas (zrange_from 1 (K /i WMMA_SIZE_K)) ++ per_accumulator EvMma)
                     ++ per_accumulator EvStore).
  { subst ta. unfold warp_final. rewrite write_back_trace, async_block_trace.
    now rewrite <- !app_assoc. }
  split; [split|].
  - unfold block_entry. cbn [warps]. now apply init_frag_C_frag.
  - reflexivity.
  - split; [exact Hts|]. split; [exact Hta|].
    split; [|split; [|split; [|split; [|split]]]].
    + rewrite Hts, !count_occ_app, count_fill_in_fills by assumption.
      subst mmas. cbv beta. now rewrite count_fill_in_mmas, count_fill_in_stores.
    + rewrite Hta, !count_occ_app, count_fill_in_fills by assumption.
      subst mmas. cbv beta. rewrite count_fill_in_mmas, count_fill_in_stores.
      replace (per_accumulator EvMma) with (flat_map (fun _ : Z => per_accumulator EvMma) [0])
        by (cbn [flat_map]; apply app_nil_r).
      now rewrite count_fill_in_mmas.
    + intros idx_k st. unfold sync_step. cbn [warps]. unfold warp_compute.
      rewrite mma_pass_frag by assumption. eauto.
    + intros idx_k st. unfold async_step. cbn [warps]. unfold warp_compute.
      rewrite mma_pass_frag by assumption. eauto.
    + intros st. unfold async_drain. cbn [warps]. unfold warp_compute.
      rewrite mma_pass_frag by assumption. eauto.
    + intros st. unfold warp_final. apply write_back_frag.
Qed.



End KernelTheorems.

(** * The values the kernels compute *)

Lemma fold_left_ext_in {X Y : Type} (f g : X -> Y -> X) (l : list Y) (a : X) :
  (forall acc y, In y l -> f acc y = g acc y) -> fold_left f l a = fold_left g l a.
Proof.
  revert a. induction l as [|y l IH]; intros a H; [reflexivity|].
  cbn [fold_left]. rewrite (H a y) by now left. apply IH.
  intros acc z Hz. apply H. now right.
Qed.

Lemma fold_left_map {X Y W : Type} (f : X -> W -> X) (g : Y -> W) (l : list Y) (a : X) :
  fold_left f (map g l) a = fold_left (fun acc y => f acc (g y)) l a.
Proof. revert a. induction l as [|y l IH]; intros a; [reflexivity|]. cbn. apply IH. Qed.

Lemma seq_from (s n : nat) : seq s n = map (Nat.add s) (seq 0 n).
Proof.
  induction s as [|s IH].
  - cbn. now rewrite map_id.
  - rewrite <- seq_shift, IH, map_map. reflexivity.
Qed.

Lemma zrange_add (a b : Z) :
  0 <= a -> 0 <= b -> zrange (a + b) = zrange a ++ map (fun k => a + k) (zrange b).
Proof.
  intros Ha Hb. unfold zrange.
  replace (Z.to_nat (a + b)) with (Z.to_nat a + Z.to_nat b)%nat by lia.
  rewrite seq_app, map_app. f_equal. cbn [Nat.add].
  rewrite seq_from, !map_map. apply map_ext. intros i. lia.
Qed.

(** Entry [(r, c)] of a row-major grid. *)
Lemma nth_grid {X : Type} (f : Z -> Z -> X) (rows cols r c : Z) (d : X) :
  0 <= r < rows -> 0 <= c < cols ->
  nth (Z.to_nat (r * cols + c))
      (flat_map (fun r => map (fun c => f r c) (zrange cols)) (zrange rows)) d = f r c.
Proof.
  intros Hr Hc.
  assert (Hlen : forall n, 0 <= n ->
            length (flat_map (fun r => map (fun c => f r c) (zrange cols)) (zrange n))
            = Z.to_nat (n * cols)).
  { intros n Hn. rewrite (length_flat_map_const _ _ (Z.to_nat cols)).
    - rewrite length_zrange. nia.
    - intros x _. now rewrite length_map, length_zrange. }
  replace rows with ((r + 1) + (rows - (r + 1))) by lia.
  rewrite zrange_add by lia. rewrite flat_map_app, zrange_succ by lia.
  rewrite flat_map_app. cbn [flat_map]. rewrite app_nil_r.
  rewrite app_nth1.
  - rewrite app_nth2; rewrite Hlen by lia; [|nia].
    replace (Z.to_nat (r * cols + c) - Z.to_nat (r * cols))%nat with (Z.to_nat c) by nia.
    rewrite (nth_indep _ d (f r 0)) by (rewrite length_map, length_zrange; lia).
    rewrite (map_nth (fun c => f r c)). f_equal.
    unfold zrange. rewrite (nth_indep _ 0 (Z.of_nat 0)) by (rewrite length_map, length_seq; lia).
    rewrite map_nth, seq_nth by lia. lia.
  - rewrite length_app, Hlen, length_map, length_zrange by lia. nia.
Qed.

Section GemmFacts.
Context {half : Type} (hzero : half).
Variables (hadd hmul : half -> half -> half).

Lemma frag_elt_mma_seq (a b c : @fragment half) i j :
  0 <= i < WMMA_SIZE_M -> 0 <= j < WMMA_SIZE_N ->
  frag_elt hzero (mma_seq hzero hadd hmul a b c) i j = mma_dot hzero hadd hmul a b c i j.
Proof. intros Hi Hj. unfold frag_elt, mma_seq. now apply nth_grid. Qed.

Lemma frag_elt_load (sm : @mem half) base ldm r c :
  0 <= r < 16 -> 0 <= c < 16 ->
  frag_elt hzero (load_matrix_sync 16 16 sm base ldm) r c = sm (base + r * ldm + c).
Proof.
  intros Hr Hc. unfold frag_elt, load_matrix_sync.
  now apply (nth_grid (fun r c => sm (base + r * ldm + c))).
Qed.

Lemma frag_elt_tile_A (A : @mem half) K b_y idx_k w i r c :
  0 <= r < 16 -> 0 <= c < 16 ->
  frag_elt hzero (tile_A A K b_y idx_k w i) r c =
  slice_A A K b_y idx_k (frag_row (warp_m (lane0 w)) i + r) c.
Proof.
  intros Hr Hc. unfold frag_elt, tile_A.
  now apply (nth_grid (fun r c => slice_A A K b_y idx_k (frag_row (warp_m (lane0 w)) i + r) c)).
Qed.

Lemma frag_elt_tile_B (B : @mem half) N b_x idx_k w j r c :
  0 <= r < 16 -> 0 <= c < 16 ->
  frag_elt hzero (tile_B B N b_x idx_k w j) r c =
  slice_B B N b_x idx_k r (frag_col (warp_n (lane0 w)) j + c).
Proof.
  intros Hr Hc. unfold frag_elt, tile_B.
  now apply (nth_grid (fun r c => slice_B B N b_x idx_k r (frag_col (warp_n (lane0 w)) j + c))).
Qed.

Lemma frag_elt_fill r c :
  0 <= r < 16 -> 0 <= c < 16 -> frag_elt hzero (fill_fragment hzero) r c = hzero.
Proof.
  intros Hr Hc. unfold frag_elt, fill_fragment.
  assert (H : forall (l : list Z) n, nth n (map (fun _ : Z => hzero) l) hzero = hzero)
    by (induction l; destruct n; simpl; auto).
  apply H.
Qed.

(** Element [(r, c)] of an accumulator after [n] slices: the products over
    [k = 0 .. 16 n - 1] accumulated in increasing [k]. *)
Lemma reduce_elt (A B : @mem half) N K b_x b_y n w i j r c :
  0 <= n -> 0 <= r < 16 -> 0 <= c < 16 ->
  frag_elt hzero (reduce hzero (mma_seq hzero hadd hmul) A B N K b_x b_y (zrange n) w i j) r c
  = fold_left (fun acc k =>
       hadd acc (hmul (slice_A A K b_y (k / 16) (frag_row (warp_m (lane0 w)) i + r) (k mod 16))
                      (slice_B B N b_x (k / 16) (k mod 16) (frag_col (warp_n (lane0 w)) j + c))))
      (zrange (16 * n)) hzero.
Proof.
  intros Hn Hr Hc. pattern n. apply natlike_ind; [| |exact Hn].
  - cbn. now apply frag_elt_fill.
  - clear n Hn. intros n Hn IH. unfold Z.succ.
    rewrite zrange_succ, reduce_snoc by assumption.
    rewrite frag_elt_mma_seq by (geom; lia). unfold mma_dot. rewrite IH.
    replace (16 * (n + 1)) with (16 * n + 16) by lia.
    rewrite zrange_add, fold_left_app, fold_left_map by lia.
    apply fold_left_ext_in. intros acc k Hk. apply In_zrange in Hk.
    change WMMA_SIZE_K with 16 in Hk.
    rewrite frag_elt_tile_A, frag_elt_tile_B by lia.
    replace ((16 * n + k) / 16) with n by zlia.
    replace ((16 * n + k) mod 16) with k by zlia. reflexivity.
Qed.

End GemmFacts.

(** Global offsets of the staged cells, without wrap-around, when the
    operands are addressable with an [int]. *)
Section SliceFacts.
Context {half : Type}.

Lemma slice_A_eq (A : @mem half) M K b_y idx_k m k :
  0 <= M -> 0 <= K -> M * K <= Int32.max_int ->
  0 <= b_y -> 128 * b_y + 128 <= M -> 0 <= idx_k -> 16 * idx_k + 16 <= K ->
  0 <= m < 128 -> 0 <= k < 16 ->
  slice_A A K b_y idx_k m k = A ((128 * b_y + m) * K + 16 * idx_k + k).
Proof.
  intros HM HK HMK Hby Hby' Hidx Hidx' Hm Hk. unfold slice_A, load_g_A_off.
  assert (Ht : 0 <= 2 * m + k / VEC < NUM_THREADS) by (geom; zlia).
  assert (HMmax : M <= Int32.max_int) by nia.
  assert (HKmax : K <= Int32.max_int) by nia.
  assert (Em : load_g_A_m b_y (2 * m + k / VEC) = 128 * b_y + m).
  { unfold load_g_A_m. rewrite load_s_A_m_eq by assumption.
    geom. unfold Int32.max_int in *. unwrap. zlia. }
  assert (Ek : load_g_A_k idx_k (2 * m + k / VEC) = 16 * idx_k + 8 * (k / 8)).
  { unfold load_g_A_k. rewrite load_s_A_k_eq by assumption.
    geom. unfold Int32.max_int in *. unwrap. zlia. }
  rewrite Em, Ek. f_equal.
  assert (Hprod : 0 <= (128 * b_y + m) * K <= (M - 1) * K) by nia.
  assert (Hk8 : 0 <= 8 * (k / 8) <= 8 /\ k = 8 * (k / 8) + k mod VEC) by (geom; zlia).
  unfold Int32.mul, Int32.add.
  rewrite (wrap_small ((128 * b_y + m) * K))
    by (unfold Int32.in_range, Int32.min_int, Int32.max_int in *; nia).
  rewrite wrap_small by (unfold Int32.in_range, Int32.min_int, Int32.max_int in *; nia).
  lia.
Qed.

Lemma slice_B_eq (B : @mem half) N K b_x idx_k k n :
  0 <= N -> 0 <= K -> K * N <= Int32.max_int ->
  0 <= b_x -> 128 * b_x + 128 <= N -> 0 <= idx_k -> 16 * idx_k + 16 <= K ->
  0 <= k < 16 -> 0 <= n < 128 ->
  slice_B B N b_x idx_k k n = B ((16 * idx_k + k) * N + 128 * b_x + n).
Proof.
  intros HN HK HKN Hbx Hbx' Hidx Hidx' Hk Hn. unfold slice_B, load_g_B_off.
  assert (Ht : 0 <= 16 * k + n / VEC < NUM_THREADS) by (geom; zlia).
  assert (HNmax : N <= Int32.max_int) by nia.
  assert (HKmax : K <= Int32.max_int) by nia.
  assert (Ek : load_g_B_k idx_k (16 * k + n / VEC) = 16 * idx_k + k).
  { unfold load_g_B_k. rewrite load_s_B_k_eq by assumption.
    geom. unfold Int32.max_int in *. unwrap. zlia. }
  assert (En : load_g_B_n b_x (16 * k + n / VEC) = 128 * b_x + 8 * (n / 8)).
  { unfold load_g_B_n. rewrite load_s_B_n_eq by assumption.
    geom. unfold Int32.max_int in *. unwrap. zlia. }
  rewrite Ek, En. f_equal.
  assert (Hprod : 0 <= (16 * idx_k + k) * N <= (K - 1) * N) by nia.
  assert (Hn8 : 0 <= 8 * (n / 8) <= 120 /\ n = 8 * (n / 8) + n mod VEC) by (geom; zlia).
  unfold Int32.mul, Int32.add.
  rewrite (wrap_small ((16 * idx_k + k) * N))
    by (unfold Int32.in_range, Int32.min_int, Int32.max_int in *; nia).
  rewrite wrap_small by (unfold Int32.in_range, Int32.min_int, Int32.max_int in *; nia).
  lia.
Qed.

End SliceFacts.

Section ValueFacts.
Context {half : Type} (hzero : half).
Variables (hadd hmul : half -> half -> half).

(** The accumulator element of the writer of [(m, n)] after all slices is
    element [(m, n)] of the half-precision product. *)
Lemma reduce_is_gemm_half (A B : @mem half) M N K m n :
  0 <= M -> 0 <= N -> 0 <= K -> M mod 128 = 0 -> N mod 128 = 0 -> K mod 16 = 0 ->
  M * K <= Int32.max_int -> K * N <= Int32.max_int ->
  0 <= m < M -> 0 <= n < N ->
  let t := writer_of m n in
  frag_elt hzero
    (reduce hzero (mma_seq hzero hadd hmul) A B N K (w_bx t) (w_by t)
            (zrange (K / 16)) (w_warp t) (w_i t) (w_j t))
    (w_r t) (w_c t)
  = gemm_half hzero hadd hmul A B N K m n.
Proof.
  intros HM HN HK HM128 HN128 HK16 HMK HKN Hm Hn t.
  destruct (writer_of_valid M N m n) as (V & Hrow & Hcol); try assumption.
  fold t in V, Hrow, Hcol. destruct V as (Vbx & Vby & Vw & Vi & Vj & Vr & Vc).
  rewrite reduce_elt by (geom; zlia).
  replace (16 * (K / 16)) with K by zlia.
  unfold gemm_half, hdot. apply fold_left_ext_in. intros acc k Hk.
  apply In_zrange in Hk.
  rewrite frag_row_range, frag_col_range by assumption.
  unfold writer_row in Hrow. unfold writer_col in Hcol.
  rewrite (slice_A_eq A M K), (slice_B_eq B N K); try assumption; try (geom; zlia).
  replace (128 * w_by t + (32 * (w_warp t / 2) + 16 * w_i t + w_r t)) with m by lia.
  replace (16 * (k / 16) + k mod 16) with k by zlia.
  replace (m * K + 16 * (k / 16) + k mod 16) with (m * K + k) by zlia.
  replace (k * N + 128 * w_bx t + (64 * (w_warp t mod 2) + 16 * w_j t + w_c t))
    with (k * N + n) by lia.
  reflexivity.
Qed.

(** What the synchronous kernel leaves in [C]. *)
Lemma sync_kernel_value (A B C0 : @mem half) M N K envs m n :
  (forall b_x b_y, fair (envs b_x b_y)) ->
  0 <= M -> 0 <= N -> 0 <= K -> M mod 128 = 0 -> N mod 128 = 0 -> K mod 16 = 0 ->
  M * N <= Int32.max_int -> M * K <= Int32.max_int -> K * N <= Int32.max_int ->
  0 <= m < M -> 0 <= n < N ->
  C_after C0 (hgemm_m16n16k16mma2x4_wp4x2 hzero (mma_seq hzero hadd hmul) A B M N K
                (grid_x N) (grid_y M) envs) (m * N + n)
  = gemm_half hzero hadd hmul A B N K m n.
Proof.
  intros Hf HM HN HK HM128 HN128 HK16 HMN HMK HKN Hm Hn.
  assert (HMmax : M <= Int32.max_int) by nia.
  assert (HNmax : N <= Int32.max_int) by nia.
  assert (HKmax : K <= Int32.max_int) by nia.
  rewrite grid_x_eq, grid_y_eq by lia. unfold hgemm_m16n16k16mma2x4_wp4x2.
  rewrite (C_after_launch hzero M N
             (fun b_x b_y => sync_block hzero (mma_seq hzero hadd hmul) A B N K b_x b_y
                                        (envs b_x b_y))) by assumption.
  destruct (writer_of_valid M N m n) as (V & _); try assumption.
  destruct V as (Vbx & Vby & Vw & Vi & Vj & Vr & Vc).
  rewrite sync_block_frag by auto. rewrite steps_eq by lia.
  now apply (reduce_is_gemm_half A B M).
Qed.


End ValueFacts.

(** * The host wrappers *)

Section HostFacts.
Import Host.

Lemma dtype_mismatch_false T : dtype_mismatch T = false <-> dtype T = kHalf.
Proof. unfold dtype_mismatch. destruct (dtype T); cbn; split; congruence. Qed.

Lemma shape_mismatch_false T S0 S1 :
  shape_mismatch T S0 S1 = false <-> size T 0 = S0 /\ size T 1 = S1.
Proof.
  unfold shape_mismatch. rewrite orb_false_iff, !negb_false_iff, !Z.eqb_eq. tauto.
Qed.

Lemma not_divisible_false M N K :
  not_divisible M N K = false <-> M %i 128 = 0 /\ N %i 128 = 0 /\ K %i 16 = 0.
Proof.
  unfold not_divisible. rewrite !orb_false_iff, !negb_false_iff, !Z.eqb_eq. tauto.
Qed.


End HostFacts.



(** * Numeric statements, in binary16 arithmetic *)

Section Binary16Facts.
Import Binary16 QArith Qabs.
Local Open Scope Z_scope.

Lemma lockstep_envs_fair (g : half16) (b_x b_y : Z) :
  fair ((fun _ _ : Z => lockstep_env g) b_x b_y).
Proof. apply lockstep_env_fair. Qed.






Lemma stale_env_fair (b_x b_y : Z) : fair ((fun _ _ : Z => stale_env) b_x b_y).
Proof. intros idx_k. apply Permutation_refl. Qed.

(** Element [(0, 0)] of [C] after the asynchronous kernel on operands with
    [K = 0]. *)
Lemma async_128_0 PAD (A B C0 : @mem half16) envs :
  (forall b_x b_y, fair (envs b_x b_y)) -> 0 <= PAD ->
  C_after C0 (hgemm_m16n16k16mma2x4_wp4x2_async hzero mma_sync PAD A B 128 128 0
                (grid_x 128) (grid_y 128) envs) (0 * 128 + 0)
  = mma_dot hzero hadd hmul
            (load_frag_A (s_A0 (envs 0 0)) (ldA PAD) 1 0 0)
            (load_frag_B (s_B0 (envs 0 0)) (ldB PAD) 1 0 0)
            (fill_fragment hzero) 0 0.
Proof.
  intros Hf HP. rewrite grid_x_eq, grid_y_eq by (unfold Int32.max_int; lia).
  unfold hgemm_m16n16k16mma2x4_wp4x2_async.
  rewrite (C_after_launch hzero 128 128
             (fun b_x b_y => async_block hzero mma_sync PAD A B 128 0 b_x b_y (envs b_x b_y)))
    by first [reflexivity | unfold Int32.max_int; lia].
  change (writer_of 0 0) with
    {| w_bx := 0; w_by := 0; w_warp := 0; w_i := 0; w_j := 0; w_r := 0; w_c := 0 |}.
  cbn [w_bx w_by w_warp w_i w_j w_r w_c].
  rewrite async_block_no_slice by first [apply Hf | assumption | reflexivity | geom; lia].
  unfold mma_sync. apply frag_elt_mma_seq; geom; lia.
Qed.

(** C2 at the input [M = N = 128], [K = 0], which passes the wrappers'
    checks: the synchronous kernel stores 0 (the empty product) in
    [C[0][0]], the asynchronous kernel stores 16.0 when shared memory holds
    1.0 at entry. *)
Lemma kernels_differ_without_slices :
  let envs := fun _ _ : Z => lockstep_env (of_Z 1) in
  Host.hgemm_m16n16k16mma2x4_wp4x2_async
    (Host.matrix Host.kHalf 128 0) (Host.matrix Host.kHalf 0 128)
    (Host.matrix Host.kHalf 128 128)
  = Host.Launches (Host.Async 8) 1 1 256 128 128 0 /\
  C_after (filled hzero)
          (hgemm_m16n16k16mma2x4_wp4x2 hzero mma_sync (filled hzero) (filled hzero)
             128 128 0 (grid_x 128) (grid_y 128) envs) (0 * 128 + 0)
  = hzero /\
  C_after (filled hzero)
          (hgemm_m16n16k16mma2x4_wp4x2_async hzero mma_sync 8 (filled hzero) (filled hzero)
             128 128 0 (grid_x 128) (grid_y 128) envs) (0 * 128 + 0)
  = of_Z 16.
Proof.
  cbv zeta. split; [reflexivity|]. split.
  - unfold mma_sync. rewrite sync_kernel_value;
      first [apply lockstep_envs_fair | reflexivity | unfold Int32.max_int; lia].
  - rewrite async_128_0 by (try apply lockstep_envs_fair; lia).
    vm_compute. reflexivity.
Qed.

(** C9 at the same input: two runs of the asynchronous kernel on the same
    operands store different values when shared memory held different
    contents at entry. *)
Lemma async_output_depends_on_stale_memory :
  let run envs :=
    C_after (filled hzero)
            (hgemm_m16n16k16mma2x4_wp4x2_async hzero mma_sync 8 (filled hzero) (filled hzero)
               128 128 0 (grid_x 128) (grid_y 128) envs) (0 * 128 + 0) in
  run (fun _ _ => lockstep_env (of_Z 1)) = of_Z 16 /\
  run (fun _ _ => lockstep_env hzero) = hzero /\
  run (fun _ _ => lockstep_env (of_Z 1)) <> run (fun _ _ => lockstep_env hzero).
Proof.
  cbv beta zeta.
  rewrite !async_128_0 by (try apply lockstep_envs_fair; lia).
  vm_compute. repeat split; discriminate.
Qed.

(** C7 at the same input: with stale shared memory the asynchronous kernel
    stores 16.0 in [C[0][0]] for [PAD = 0] and 0 for [PAD = 8]. *)
Lemma padding_changes_output_without_slices :
  let run PAD :=
    C_after (filled hzero)
            (hgemm_m16n16k16mma2x4_wp4x2_async hzero mma_sync PAD (filled hzero) (filled hzero)
               128 128 0 (grid_x 128) (grid_y 128) (fun _ _ => stale_env)) (0 * 128 + 0) in
  run 0 = of_Z 16 /\ run 8 = hzero /\ run 0 <> run 8.
Proof.
  cbv beta zeta.
  rewrite !async_128_0 by (try apply stale_env_fair; lia).
  vm_compute. repeat split; discriminate.
Qed.

End Binary16Facts.

(** * The theorems at concrete launches *)


Lemma accumulators_zeroed_once_witness :
  let env := lockstep_env 0 in
  let final := sync_block 0 (fun a b c : list Z => c) (fun x => x) (fun x => x)
                          128 32 0 0 env in
  0 <= 1 < WMMA_PER_WARP_M /\ 0 <= 3 < WMMA_PER_WARP_N /\
  count_occ acc_event_eq_dec (trace (warp_final 0 128 0 0 5 final)) (EvFill 1 3) = 1%nat.
Proof.
  cbv zeta.
  assert (Hi : 0 <= 1 < WMMA_PER_WARP_M) by (geom; lia).
  assert (Hj : 0 <= 3 < WMMA_PER_WARP_N) by (geom; lia).
  split; [exact Hi|]. split; [exact Hj|].
  destruct (accumulators_zeroed_once
              0 (fun a b c : list Z => c) 8 (fun x => x) (fun x => x) 128 32 0 0
              (lockstep_env 0) 5 1 3 Hi Hj)
    as (_ & _ & _ & Hc & _).
  exact Hc.
Defined.


(** * Memory accesses *)

Lemma wrap_mod8 z : Int32.wrap z mod 8 = z mod 8.
Proof.
  unfold Int32.wrap. change (2 ^ 31) with 2147483648. change (2 ^ 32) with 4294967296. zlia.
Qed.

Lemma wrap_mod2 z : Int32.wrap z mod 2 = z mod 2.
Proof.
  unfold Int32.wrap. change (2 ^ 31) with 2147483648. change (2 ^ 32) with 4294967296. zlia.
Qed.

Lemma NoDup_zrange_from lo hi : NoDup (zrange_from lo hi).
Proof.
  unfold zrange_from. apply Finite.Injective_map_NoDup; [|apply NoDup_zrange].
  intros a b H. lia.
Qed.

Lemma length_zrange_from lo hi : length (zrange_from lo hi) = Z.to_nat (hi - lo).
Proof. unfold zrange_from. now rewrite length_map, length_zrange. Qed.

Lemma NoDup_flat_map {X Y : Type} (f : X -> list Y) (l : list X) :
  NoDup l -> (forall x, In x l -> NoDup (f x)) ->
  (forall x x' y, In x l -> In x' l -> In y (f x) -> In y (f x') -> x = x') ->
  NoDup (flat_map f l).
Proof.
  induction l as [|x l IH]; intros Hl Hf Hd; [constructor|].
  cbn [flat_map]. inversion Hl as [|? ? Hx Hl']; subst. apply NoDup_app.
  - apply Hf. now left.
  - apply IH; [assumption| |].
    + intros z Hz. apply Hf. now right.
    + intros z z' y Hz Hz'. apply Hd; now right.
  - intros y Hy Hin. apply in_flat_map in Hin. destruct Hin as [x' [Hx' Hy']].
    assert (x = x') by (apply (Hd x x' y); [now left|now right|assumption|assumption]).
    subst x'. contradiction.
Qed.

(** The slices of the asynchronous kernel are those of the synchronous one
    as soon as there is one. *)
Lemma slices_async_eq K : 1 <= K /i WMMA_SIZE_K -> slices_async K = slices_sync K.
Proof.
  intros H. unfold slices_async, slices_sync, zrange_from.
  generalize dependent (K /i WMMA_SIZE_K). intros n Hn.
  unfold zrange. replace (Z.to_nat n) with (S (Z.to_nat (n - 1))) by lia.
  cbn [seq map]. f_equal. rewrite <- seq_shift, !map_map. apply map_ext. intros k. lia.
Qed.

Lemma In_stage_A_src K b_y idx_k tid a :
  In a (stage_A_src K b_y idx_k tid) <->
  exists e, 0 <= e < VEC /\ a = load_g_A_off K b_y idx_k tid + e.
Proof.
  unfold stage_A_src. rewrite in_map_iff. split.
  - intros [e [<- He]]. apply In_zrange in He. eauto.
  - intros [e [He ->]]. exists e. split; [reflexivity|]. now apply In_zrange.
Qed.

Lemma In_stage_B_src N b_x idx_k tid a :
  In a (stage_B_src N b_x idx_k tid) <->
  exists e, 0 <= e < VEC /\ a = load_g_B_off N b_x idx_k tid + e.
Proof.
  unfold stage_B_src. rewrite in_map_iff. split.
  - intros [e [<- He]]. apply In_zrange in He. eauto.
  - intros [e [He ->]]. exists e. split; [reflexivity|]. now apply In_zrange.
Qed.

Lemma In_reads_A K b_y slices a :
  In a (reads_A K b_y slices) <->
  exists idx_k tid e, In idx_k slices /\ 0 <= tid < NUM_THREADS /\ 0 <= e < VEC /\
                      a = load_g_A_off K b_y idx_k tid + e.
Proof.
  unfold reads_A. rewrite in_flat_map. split.
  - intros [idx_k [Hi Hin]]. apply in_flat_map in Hin. destruct Hin as [tid [Ht Hin]].
    apply In_block_threads in Ht. apply In_stage_A_src in Hin. destruct Hin as [e [He ->]].
    eauto 8.
  - intros (idx_k & tid & e & Hi & Ht & He & ->). exists idx_k. split; [assumption|].
    apply in_flat_map. exists tid. split; [now apply In_block_threads|].
    apply In_stage_A_src. eauto.
Qed.

Lemma In_reads_B N b_x slices a :
  In a (reads_B N b_x slices) <->
  exists idx_k tid e, In idx_k slices /\ 0 <= tid < NUM_THREADS /\ 0 <= e < VEC /\
                      a = load_g_B_off N b_x idx_k tid + e.
Proof.
  unfold reads_B. rewrite in_flat_map. split.
  - intros [idx_k [Hi Hin]]. apply in_flat_map in Hin. destruct Hin as [tid [Ht Hin]].
    apply In_block_threads in Ht. apply In_stage_B_src in Hin. destruct Hin as [e [He ->]].
    eauto 8.
  - intros (idx_k & tid & e & Hi & Ht & He & ->). exists idx_k. split; [assumption|].
    apply in_flat_map. exists tid. split; [now apply In_block_threads|].
    apply In_stage_B_src. eauto.
Qed.

Lemma length_reads_A K b_y slices :
  length (reads_A K b_y slices) = (length slices * Z.to_nat 2048)%nat.
Proof.
  unfold reads_A. apply length_flat_map_const. intros idx_k _.
  rewrite (length_flat_map_const _ _ (Z.to_nat 8)).
  - unfold block_threads. rewrite length_zrange. geom. lia.
  - intros tid _. unfold stage_A_src. rewrite length_map, length_zrange. reflexivity.
Qed.

Lemma length_reads_B N b_x slices :
  length (reads_B N b_x slices) = (length slices * Z.to_nat 2048)%nat.
Proof.
  unfold reads_B. apply length_flat_map_const. intros idx_k _.
  rewrite (length_flat_map_const _ _ (Z.to_nat 8)).
  - unfold block_threads. rewrite length_zrange. geom. lia.
  - intros tid _. unfold stage_B_src. rewrite length_map, length_zrange. reflexivity.
Qed.

(** The global offsets of the copies when nothing wraps around. *)
Lemma load_g_A_off_eq K b_y idx_k tid :
  0 <= K -> 0 <= b_y -> (128 * b_y + 128) * K <= Int32.max_int ->
  0 <= idx_k -> 16 * idx_k + 16 <= K -> 0 <= tid < NUM_THREADS ->
  load_g_A_off K b_y idx_k tid = (128 * b_y + tid / 2) * K + 16 * idx_k + 8 * (tid mod 2).
Proof.
  intros HK Hby Hmax Hidx Hidx' Ht. unfold load_g_A_off.
  assert (HKmax : K <= Int32.max_int) by nia.
  assert (Hbmax : 128 * b_y + 128 <= Int32.max_int) by nia.
  assert (Em : load_g_A_m b_y tid = 128 * b_y + tid / 2).
  { unfold load_g_A_m. rewrite load_s_A_m_eq by assumption.
    geom. unfold Int32.max_int in *. unwrap. zlia. }
  assert (Ek : load_g_A_k idx_k tid = 16 * idx_k + 8 * (tid mod 2)).
  { unfold load_g_A_k. rewrite load_s_A_k_eq by assumption.
    geom. unfold Int32.max_int in *. unwrap. zlia. }
  rewrite Em, Ek.
  assert (Hrow : 0 <= tid / 2 < 128) by (geom; zlia).
  assert (Hcol : 0 <= 8 * (tid mod 2) <= 8) by zlia.
  assert (Hprod : 0 <= (128 * b_y + tid / 2) * K <= (128 * b_y + 127) * K) by nia.
  unfold Int32.mul, Int32.add.
  rewrite (wrap_small ((128 * b_y + tid / 2) * K))
    by (unfold Int32.in_range, Int32.min_int, Int32.max_int in *; nia).
  rewrite wrap_small by (unfold Int32.in_range, Int32.min_int, Int32.max_int in *; nia).
  lia.
Qed.

Lemma load_g_B_off_eq N K b_x idx_k tid :
  0 <= b_x -> 128 * b_x + 128 <= N -> K * N <= Int32.max_int ->
  0 <= idx_k -> 16 * idx_k + 16 <= K -> 0 <= tid < NUM_THREADS ->
  load_g_B_off N b_x idx_k tid = (16 * idx_k + tid / 16) * N + 128 * b_x + 8 * (tid mod 16).
Proof.
  intros Hbx Hbx' Hmax Hidx Hidx' Ht. unfold load_g_B_off.
  assert (HNmax : N <= Int32.max_int) by nia.
  assert (HKmax : K <= Int32.max_int) by nia.
  assert (Ek : load_g_B_k idx_k tid = 16 * idx_k + tid / 16).
  { unfold load_g_B_k. rewrite load_s_B_k_eq by assumption.
    geom. unfold Int32.max_int in *. unwrap. zlia. }
  assert (En : load_g_B_n b_x tid = 128 * b_x + 8 * (tid mod 16)).
  { unfold load_g_B_n. rewrite load_s_B_n_eq by assumption.
    geom. unfold Int32.max_int in *. unwrap. zlia. }
  rewrite Ek, En.
  assert (Hrow : 0 <= tid / 16 < 16) by (geom; zlia).
  assert (Hcol : 0 <= 8 * (tid mod 16) <= 120) by zlia.
  assert (Hprod : 0 <= (16 * idx_k + tid / 16) * N <= (K - 1) * N) by nia.
  unfold Int32.mul, Int32.add.
  rewrite (wrap_small ((16 * idx_k + tid / 16) * N))
    by (unfold Int32.in_range, Int32.min_int, Int32.max_int in *; nia).
  rewrite wrap_small by (unfold Int32.in_range, Int32.min_int, Int32.max_int in *; nia).
  lia.
Qed.

(** The offsets a block reads are those of its panels, each once. *)
Lemma reads_A_panel M K b_y :
  0 <= K -> K mod 16 = 0 -> 0 <= b_y -> 128 * b_y + 128 <= M -> M * K <= Int32.max_int ->
  Permutation (panel_A K b_y) (reads_A K b_y (slices_sync K)).
Proof.
  intros HK HK16 Hby HbyM HMK.
  assert (HKmax : K <= Int32.max_int) by nia.
  assert (Hsl : slices_sync K = zrange (K / 16)).
  { unfold slices_sync. now rewrite steps_eq by lia. }
  apply NoDup_Permutation_bis.
  - apply NoDup_zrange_from.
  - rewrite length_reads_A, Hsl, length_zrange. unfold panel_A.
    rewrite length_zrange_from. zlia.
  - intros a Ha. unfold panel_A in Ha. apply In_zrange_from in Ha.
    assert (HK0 : 16 <= K) by zlia.
    apply In_reads_A. rewrite Hsl.
    set (m := a / K - 128 * b_y). set (col := a mod K).
    assert (Hcol : 0 <= col < K) by (subst col; apply Z.mod_pos_bound; lia).
    assert (Ea : a = K * (a / K) + col) by (subst col; apply Z.div_mod; lia).
    assert (Hm : 0 <= m < 128) by (subst m; nia).
    exists (col / 16), (2 * m + (col mod 16) / 8), (col mod 8).
    split; [apply In_zrange; zlia|]. split; [geom; zlia|]. split; [geom; zlia|].
    rewrite load_g_A_off_eq by first [assumption | geom; zlia | nia].
    replace ((2 * m + col mod 16 / 8) / 2) with m by zlia.
    replace ((128 * b_y + m) * K) with (K * (a / K)) by (subst m; ring).
    rewrite Ea at 1. generalize dependent col. intros. zlia.
Qed.

Lemma reads_B_panel N K b_x :
  0 <= K -> K mod 16 = 0 -> 0 <= b_x -> 128 * b_x + 128 <= N -> K * N <= Int32.max_int ->
  Permutation (panel_B N K b_x) (reads_B N b_x (slices_sync K)).
Proof.
  intros HK HK16 Hbx HbxN HKN.
  assert (HKmax : K <= Int32.max_int) by nia.
  assert (Hsl : slices_sync K = zrange (K / 16)).
  { unfold slices_sync. now rewrite steps_eq by lia. }
  apply NoDup_Permutation_bis.
  - unfold panel_B. apply NoDup_flat_map.
    + apply NoDup_zrange.
    + intros k _. apply Finite.Injective_map_NoDup; [|apply NoDup_zrange].
      intros c c' H. lia.
    + intros k k' y Hk Hk' Hy Hy'. apply in_map_iff in Hy, Hy'.
      destruct Hy as [c [<- Hc]], Hy' as [c' [E Hc']]. apply In_zrange in Hc, Hc'.
      geom. nia.
  - rewrite length_reads_B, Hsl, length_zrange. unfold panel_B.
    rewrite (length_flat_map_const _ _ (Z.to_nat 128)).
    + rewrite length_zrange. zlia.
    + intros k _. now rewrite length_map, length_zrange.
  - intros a Ha. unfold panel_B in Ha. apply in_flat_map in Ha.
    destruct Ha as [k [Hk Ha]]. apply in_map_iff in Ha. destruct Ha as [c [<- Hc]].
    apply In_zrange in Hk, Hc. apply In_reads_B. rewrite Hsl.
    exists (k / 16), (16 * (k mod 16) + c / 8), (c mod 8).
    split; [apply In_zrange; zlia|]. split; [geom; zlia|]. split; [geom; zlia|].
    rewrite (load_g_B_off_eq N K) by first [assumption | geom; zlia].
    replace ((16 * (k mod 16) + c / 8) / 16) with (k mod 16) by (geom; zlia).
    replace (16 * (k / 16) + k mod 16) with k by zlia.
    geom. zlia.
Qed.

Lemma reads_A_in_bounds M K b_y a :
  0 <= K -> K mod 16 = 0 -> 0 <= b_y -> 128 * b_y + 128 <= M -> M * K <= Int32.max_int ->
  In a (reads_A K b_y (slices_sync K)) -> 0 <= a < M * K.
Proof.
  intros HK HK16 Hby HbyM HMK Ha.
  apply (Permutation_in _ (Permutation_sym (reads_A_panel M K b_y HK HK16 Hby HbyM HMK))) in Ha.
  unfold panel_A in Ha. apply In_zrange_from in Ha. nia.
Qed.

Lemma reads_B_in_bounds N K b_x a :
  0 <= K -> K mod 16 = 0 -> 0 <= b_x -> 128 * b_x + 128 <= N -> K * N <= Int32.max_int ->
  In a (reads_B N b_x (slices_sync K)) -> 0 <= a < K * N.
Proof.
  intros HK HK16 Hbx HbxN HKN Ha.
  apply (Permutation_in _ (Permutation_sym (reads_B_panel N K b_x HK HK16 Hbx HbxN HKN))) in Ha.
  unfold panel_B in Ha. apply in_flat_map in Ha.
  destruct Ha as [k [Hk Ha]]. apply in_map_iff in Ha. destruct Ha as [c [<- Hc]].
  apply In_zrange in Hk, Hc. geom. nia.
Qed.

Section AccessFacts.
Context {half : Type} (hzero : half).
Variable mma_sync : @fragment half -> @fragment half -> @fragment half -> @fragment half.

Lemma launch_ext_in gx gy (blk blk' : Z -> Z -> list (@write half)) :
  (forall b_x b_y, 0 <= b_x < gx -> 0 <= b_y < gy -> blk b_x b_y = blk' b_x b_y) ->
  launch gx gy blk = launch gx gy blk'.
Proof.
  intros H. unfold launch. apply flat_map_ext_in. intros b_y Hy.
  apply flat_map_ext_in. intros b_x Hx. apply In_zrange in Hx, Hy. now apply H.
Qed.

(** A fragment of slice [idx_k] is made of values read by the staging
    copies of that slice. *)
Lemma tile_A_ext (A A' : @mem half) K b_y idx_k w i :
  (forall a, In a (reads_A K b_y [idx_k]) -> A a = A' a) ->
  0 <= w < NUM_WARPS -> 0 <= i < WMMA_PER_WARP_M ->
  tile_A A K b_y idx_k w i = tile_A A' K b_y idx_k w i.
Proof.
  intros H Hw Hi. unfold tile_A. apply flat_map_ext_in. intros r Hr.
  apply map_ext_in. intros c Hc. apply In_zrange in Hr, Hc. unfold slice_A.
  apply H. apply In_reads_A.
  exists idx_k, (2 * (frag_row (warp_m (lane0 w)) i + r) + c / VEC), (c mod VEC).
  split; [now left|]. rewrite frag_row_range by assumption.
  split; [geom; zlia|]. split; [geom; zlia|reflexivity].
Qed.

Lemma tile_B_ext (B B' : @mem half) N b_x idx_k w j :
  (forall a, In a (reads_B N b_x [idx_k]) -> B a = B' a) ->
  0 <= w < NUM_WARPS -> 0 <= j < WMMA_PER_WARP_N ->
  tile_B B N b_x idx_k w j = tile_B B' N b_x idx_k w j.
Proof.
  intros H Hw Hj. unfold tile_B. apply flat_map_ext_in. intros r Hr.
  apply map_ext_in. intros c Hc. apply In_zrange in Hr, Hc. unfold slice_B.
  apply H. apply In_reads_B.
  exists idx_k, (16 * r + (frag_col (warp_n (lane0 w)) j + c) / VEC),
    ((frag_col (warp_n (lane0 w)) j + c) mod VEC).
  split; [now left|]. rewrite frag_col_range by assumption.
  split; [geom; zlia|]. split; [geom; zlia|reflexivity].
Qed.

Lemma reads_A_slice K b_y slices idx_k a :
  In idx_k slices -> In a (reads_A K b_y [idx_k]) -> In a (reads_A K b_y slices).
Proof.
  intros Hi Ha. apply In_reads_A in Ha. destruct Ha as (k & tid & e & [<-|[]] & Ht & He & ->).
  apply In_reads_A. eauto 8.
Qed.

Lemma reads_B_slice N b_x slices idx_k a :
  In idx_k slices -> In a (reads_B N b_x [idx_k]) -> In a (reads_B N b_x slices).
Proof.
  intros Hi Ha. apply In_reads_B in Ha. destruct Ha as (k & tid & e & [<-|[]] & Ht & He & ->).
  apply In_reads_B. eauto 8.
Qed.

Lemma reduce_ext (A A' B B' : @mem half) N K b_x b_y slices w i j :
  (forall a, In a (reads_A K b_y slices) -> A a = A' a) ->
  (forall a, In a (reads_B N b_x slices) -> B a = B' a) ->
  0 <= w < NUM_WARPS -> 0 <= i < WMMA_PER_WARP_M -> 0 <= j < WMMA_PER_WARP_N ->
  reduce hzero mma_sync A B N K b_x b_y slices w i j =
  reduce hzero mma_sync A' B' N K b_x b_y slices w i j.
Proof.
  intros HA HB Hw Hi Hj. unfold reduce. apply fold_left_ext_in. intros acc idx_k Hin.
  rewrite (tile_A_ext A A'), (tile_B_ext B B'); try assumption; try reflexivity.
  - intros a Ha. apply HB. now apply (reads_B_slice N b_x slices idx_k).
  - intros a Ha. apply HA. now apply (reads_A_slice K b_y slices idx_k).
Qed.

(** The store offsets of a launch with the wrappers' grid. *)
Lemma kernel_offsets_permutation M N (blk : Z -> Z -> @block_state half) :
  0 <= M -> 0 <= N -> M mod 128 = 0 -> N mod 128 = 0 -> M * N <= Int32.max_int ->
  Permutation (zrange (M * N))
    (map fst (launch (grid_x N) (grid_y M)
                (fun b_x b_y => block_stores hzero N b_x b_y (blk b_x b_y)))).
Proof.
  intros HM HN HM128 HN128 HMN.
  destruct (Z.eq_dec N 0) as [->|HN0].
  - replace (M * 0) with 0 by lia. replace (grid_x 0) with 0 by reflexivity.
    unfold launch. cbn [zrange Z.to_nat seq map flat_map].
    assert (E : forall l : list Z, flat_map (fun _ : Z => @nil (@write half)) l = [])
      by (induction l; auto).
    rewrite E. apply Permutation_refl.
  - destruct (Z.eq_dec M 0) as [->|HM0].
    + replace (0 * N) with 0 by lia. replace (grid_y 0) with 0 by reflexivity.
      unfold launch. cbn [zrange Z.to_nat seq map flat_map]. apply Permutation_refl.
    + assert (HMmax : M <= Int32.max_int) by nia.
      assert (HNmax : N <= Int32.max_int) by nia.
      rewrite grid_x_eq, grid_y_eq by lia. now apply launch_offsets_permutation.
Qed.

(** Stores to pairwise distinct offsets commute. *)
Lemma write_all_permutation (ws ws' : list (@write half)) (sm : @mem half) a :
  NoDup (map fst ws) -> Permutation ws ws' -> write_all ws' sm a = write_all ws sm a.
Proof.
  intros ND P.
  assert (ND' : NoDup (map fst ws')).
  { apply (Permutation_NoDup (Permutation_map fst P)), ND. }
  destruct (in_dec Z.eq_dec a (map fst ws)) as [Hin|Hout].
  - apply in_map_iff in Hin. destruct Hin as [[a' v] [E Hin]]. cbn [fst] in E. subst a'.
    rewrite (write_all_in ws sm a v), (write_all_in ws' sm a v); try reflexivity.
    + now apply (Permutation_in _ P).
    + intros v' Hv'. now apply (NoDup_fst_functional ws' a); [|apply (Permutation_in _ P)|].
    + assumption.
    + intros v' Hv'. now apply (NoDup_fst_functional ws a).
  - rewrite !write_all_notin; [reflexivity|assumption|].
    intros Hin. apply Hout.
    now apply (Permutation_in _ (Permutation_sym (Permutation_map fst P))).
Qed.

End AccessFacts.

(** Wrap-around keeps multiples of 8 and of 16. *)
Lemma wrap_divide8 z : (8 | z) -> (8 | Int32.wrap z).
Proof.
  intros H. apply Z.mod_divide; [lia|]. rewrite wrap_mod8. apply Z.mod_divide; [lia|exact H].
Qed.

Lemma wrap_divide16 z : (16 | z) -> (16 | Int32.wrap z).
Proof.
  intros [q ->]. exists (Int32.wrap (q * 16) / 16).
  unfold Int32.wrap. change (2 ^ 31) with 2147483648. change (2 ^ 32) with 4294967296. zlia.
Qed.

Lemma load_s_A_k_cases tid : load_s_A_k tid = 0 \/ load_s_A_k tid = 8.
Proof. unfold load_s_A_k. destruct (_ =? _); auto. Qed.

Lemma load_s_A_k_divide tid : (8 | load_s_A_k tid).
Proof. destruct (load_s_A_k_cases tid) as [-> | ->]; [exists 0|exists 1]; reflexivity. Qed.

Lemma load_s_B_n_divide tid : (8 | load_s_B_n tid).
Proof. unfold load_s_B_n, Int32.mul. apply wrap_divide8, Z.divide_factor_r. Qed.

Lemma load_g_A_off_divide K b_y idx_k tid : (8 | K) -> (8 | load_g_A_off K b_y idx_k tid).
Proof.
  intros HK. unfold load_g_A_off, load_g_A_k, Int32.add, Int32.mul. geom.
  apply wrap_divide8, Z.divide_add_r.
  - apply wrap_divide8. now apply Z.divide_mul_r.
  - apply wrap_divide8, Z.divide_add_r; [|apply load_s_A_k_divide].
    apply wrap_divide8. apply Z.divide_mul_r. now exists 2.
Qed.

Lemma load_g_B_off_divide N b_x idx_k tid : (8 | N) -> (8 | load_g_B_off N b_x idx_k tid).
Proof.
  intros HN. unfold load_g_B_off, load_g_B_n, Int32.add, Int32.mul. geom.
  apply wrap_divide8, Z.divide_add_r.
  - apply wrap_divide8. now apply Z.divide_mul_r.
  - apply wrap_divide8, Z.divide_add_r; [|apply load_s_B_n_divide].
    apply wrap_divide8. apply Z.divide_mul_r. now exists 16.
Qed.

Lemma frag_row_divide wm i : (16 | frag_row wm i).
Proof.
  unfold frag_row, Int32.add, Int32.mul. geom. apply wrap_divide16, Z.divide_add_r.
  - apply wrap_divide16, Z.divide_mul_r, wrap_divide16. now exists 2.
  - apply wrap_divide16, Z.divide_factor_r.
Qed.

Lemma frag_col_divide wn j : (16 | frag_col wn j).
Proof.
  unfold frag_col, Int32.add, Int32.mul. geom. apply wrap_divide16, Z.divide_add_r.
  - apply wrap_divide16, Z.divide_mul_r, wrap_divide16. now exists 4.
  - apply wrap_divide16, Z.divide_factor_r.
Qed.

Lemma store_g_C_off_divide N b_x b_y wm wn i j :
  (16 | N) -> (16 | store_g_C_off N b_x b_y wm wn i j).
Proof.
  intros HN. unfold store_g_C_off, store_g_C_n, Int32.add, Int32.mul. geom.
  apply Z.divide_add_r.
  - apply wrap_divide16. now apply Z.divide_mul_r.
  - apply wrap_divide16, Z.divide_add_r; [|apply wrap_divide16, Z.divide_factor_r].
    apply wrap_divide16, Z.divide_add_r.
    + apply wrap_divide16, Z.divide_mul_r. now exists 8.
    + apply wrap_divide16, Z.divide_mul_r, wrap_divide16. now exists 4.
Qed.

(** The buffer slots for every [int] value of the loop counter. *)
Lemma curr_buf_mod idx_k : curr_buf idx_k = (idx_k - 1) mod 2.
Proof. unfold curr_buf. rewrite land_1. unfold Int32.sub. apply wrap_mod2. Qed.

Lemma last_buf_range K : 0 <= last_buf K < 2.
Proof. unfold last_buf. rewrite land_1. apply Z.mod_pos_bound. lia. Qed.

Lemma buf_slots idx_k :
  0 <= next_buf idx_k < 2 /\ 0 <= curr_buf idx_k < 2 /\ next_buf idx_k <> curr_buf idx_k.
Proof. rewrite next_buf_eq, curr_buf_mod. zlia. Qed.

(** Row-major indexing of [half s_A[slots][BM][ld]] and
    [half s_B[slots][BK][ld]]. *)
Lemma s_A_idx_bounds slots ld buf m k :
  0 <= buf < slots -> BK <= ld -> 0 <= m < BM -> 0 <= k < BK ->
  0 <= s_A_idx ld buf m k < s_A_size slots ld /\ s_A_idx ld buf m k mod ld = k.
Proof.
  unfold s_A_idx, s_A_size. geom. intros Hb Hld Hm Hk. split; [nia|].
  rewrite Z.add_comm, Z.mod_add by lia. apply Z.mod_small. lia.
Qed.

Lemma s_B_idx_bounds slots ld buf k n :
  0 <= buf < slots -> BN <= ld -> 0 <= k < BK -> 0 <= n < BN ->
  0 <= s_B_idx ld buf k n < s_B_size slots ld /\ s_B_idx ld buf k n mod ld = n.
Proof.
  unfold s_B_idx, s_B_size. geom. intros Hb Hld Hk Hn. split; [nia|].
  rewrite Z.add_comm, Z.mod_add by lia. apply Z.mod_small. lia.
Qed.

Lemma In_frag_A_offsets ld buf w i a :
  0 <= w < NUM_WARPS -> 0 <= i < WMMA_PER_WARP_M ->
  In a (frag_A_offsets ld buf w i) <->
  exists r c, 0 <= r < WMMA_SIZE_M /\ 0 <= c < WMMA_SIZE_K /\
              a = s_A_idx ld buf (32 * (w / 2) + 16 * i + r) c.
Proof.
  intros Hw Hi. unfold frag_A_offsets, frag_offsets.
  rewrite frag_row_range by assumption. rewrite in_flat_map. split.
  - intros [r [Hr Hin]]. apply in_map_iff in Hin. destruct Hin as [c [<- Hc]].
    apply In_zrange in Hr, Hc. exists r, c. split; [assumption|]. split; [assumption|].
    unfold s_A_idx. ring.
  - intros (r & c & Hr & Hc & ->). exists r. split; [now apply In_zrange|].
    apply in_map_iff. exists c. split; [|now apply In_zrange]. unfold s_A_idx. ring.
Qed.

Lemma In_frag_B_offsets ld buf w j a :
  0 <= w < NUM_WARPS -> 0 <= j < WMMA_PER_WARP_N ->
  In a (frag_B_offsets ld buf w j) <->
  exists r c, 0 <= r < WMMA_SIZE_K /\ 0 <= c < WMMA_SIZE_N /\
              a = s_B_idx ld buf r (64 * (w mod 2) + 16 * j + c).
Proof.
  intros Hw Hj. unfold frag_B_offsets, frag_offsets.
  rewrite frag_col_range by assumption. rewrite in_flat_map. split.
  - intros [r [Hr Hin]]. apply in_map_iff in Hin. destruct Hin as [c [<- Hc]].
    apply In_zrange in Hr, Hc. exists r, c. split; [assumption|]. split; [assumption|].
    unfold s_B_idx. ring.
  - intros (r & c & Hr & Hc & ->). exists r. split; [now apply In_zrange|].
    apply in_map_iff. exists c. split; [|now apply In_zrange]. unfold s_B_idx. ring.
Qed.

Section SharedFacts.
Context {half : Type}.

(** A fragment load reads the offsets of [frag_offsets] only. *)
Lemma load_matrix_sync_ext rows cols (sm sm' : @mem half) base ldm :
  (forall a, In a (frag_offsets rows cols base ldm) -> sm a = sm' a) ->
  load_matrix_sync rows cols sm base ldm = load_matrix_sync rows cols sm' base ldm.
Proof.
  intros H. unfold load_matrix_sync. apply flat_map_ext_in. intros r Hr.
  apply map_ext_in. intros c Hc. apply H. unfold frag_offsets.
  apply in_flat_map. exists r. split; [assumption|]. apply in_map_iff. eauto.
Qed.

Lemma In_stage_A_one (A : @mem half) K b_y ld buf idx_k tid a v :
  0 <= tid < NUM_THREADS ->
  In (a, v) (stage_A A K b_y ld buf idx_k tid) ->
  exists e, 0 <= e < VEC /\ a = s_A_idx ld buf (tid / 2) (8 * (tid mod 2) + e).
Proof.
  intros Ht Hin. unfold stage_A in Hin. apply In_copy128 in Hin.
  destruct Hin as [e (He & -> & _)]. exists e. split; [assumption|].
  rewrite load_s_A_m_eq, load_s_A_k_eq by assumption. unfold s_A_idx. ring.
Qed.

Lemma In_stage_B_one (B : @mem half) N b_x ld buf idx_k tid a v :
  0 <= tid < NUM_THREADS ->
  In (a, v) (stage_B B N b_x ld buf idx_k tid) ->
  exists e, 0 <= e < VEC /\ a = s_B_idx ld buf (tid / 16) (8 * (tid mod 16) + e).
Proof.
  intros Ht Hin. unfold stage_B in Hin. apply In_copy128 in Hin.
  destruct Hin as [e (He & -> & _)]. exists e. split; [assumption|].
  rewrite load_s_B_k_eq, load_s_B_n_eq by assumption. unfold s_B_idx. ring.
Qed.

End SharedFacts.

(** * Further properties of the kernels and the wrappers *)

Lemma reversed_env_fair : fair reversed_env.
Proof. intros idx_k. apply Permutation_sym, Permutation_rev. Qed.

Lemma steps_at_least_one K : 16 <= K <= Int32.max_int -> 1 <= K /i WMMA_SIZE_K.
Proof. intros H. rewrite steps_eq by lia. zlia. Qed.

Section KernelExtras.
Context {half : Type} (hzero : half).
Variable mma_sync : @fragment half -> @fragment half -> @fragment half -> @fragment half.

(** X1. With at least one slice ([K >= 16]) and a non-negative padding the
    asynchronous kernel performs the stores of the synchronous kernel: the
    same offsets with the same values in the same order, whatever the mma
    primitive, the thread schedules and the entry contents of shared memory
    of the two launches; so both leave the same [C]. *)
Theorem async_kernel_matches_sync
        PAD (A B : @mem half) M N K gx gy (envs envs' : Z -> Z -> @block_env half) :
  (forall b_x b_y, fair (envs b_x b_y)) -> (forall b_x b_y, fair (envs' b_x b_y)) ->
  0 <= PAD -> 16 <= K <= Int32.max_int ->
  hgemm_m16n16k16mma2x4_wp4x2_async hzero mma_sync PAD A B M N K gx gy envs' =
  hgemm_m16n16k16mma2x4_wp4x2 hzero mma_sync A B M N K gx gy envs /\
  (forall C0 a,
      C_after C0 (hgemm_m16n16k16mma2x4_wp4x2_async hzero mma_sync PAD A B M N K gx gy envs') a
      = C_after C0 (hgemm_m16n16k16mma2x4_wp4x2 hzero mma_sync A B M N K gx gy envs) a).
Proof.
  intros Hf Hf' HP HK.
  assert (E : hgemm_m16n16k16mma2x4_wp4x2_async hzero mma_sync PAD A B M N K gx gy envs' =
              hgemm_m16n16k16mma2x4_wp4x2 hzero mma_sync A B M N K gx gy envs).
  { apply sync_async_agree; try assumption. now apply steps_at_least_one. }
  split; [exact E|]. intros C0 a. now rewrite E.
Qed.

(** X2. The stores of the synchronous kernel do not depend on the order in
    which the threads' staging copies land, nor on what shared memory and
    the accumulator registers hold at entry: this for every [K], [K = 0]
    included. *)
Theorem sync_kernel_ignores_environment
        (A B : @mem half) M N K gx gy (envs envs' : Z -> Z -> @block_env half) :
  (forall b_x b_y, fair (envs b_x b_y)) -> (forall b_x b_y, fair (envs' b_x b_y)) ->
  hgemm_m16n16k16mma2x4_wp4x2 hzero mma_sync A B M N K gx gy envs =
  hgemm_m16n16k16mma2x4_wp4x2 hzero mma_sync A B M N K gx gy envs'.
Proof.
  intros Hf Hf'. unfold hgemm_m16n16k16mma2x4_wp4x2.
  apply launch_ext. intros b_x b_y. apply block_stores_ext. intros w i j Hw Hi Hj.
  rewrite (sync_block_frag hzero mma_sync A B N K b_x b_y (envs b_x b_y)) by auto.
  now rewrite (sync_block_frag hzero mma_sync A B N K b_x b_y (envs' b_x b_y)) by auto.
Qed.

(** X3. With at least one slice the stores of the asynchronous kernel
    depend neither on the padding (any [PAD >= 0]) nor on the environment:
    the order in which cp.async copies land, how many in-flight copies a
    warp already sees when it loads its fragments, and the entry contents
    of shared memory and registers. *)
Theorem async_kernel_ignores_padding_and_environment
        PAD PAD' (A B : @mem half) M N K gx gy (envs envs' : Z -> Z -> @block_env half) :
  (forall b_x b_y, fair (envs b_x b_y)) -> (forall b_x b_y, fair (envs' b_x b_y)) ->
  0 <= PAD -> 0 <= PAD' -> 16 <= K <= Int32.max_int ->
  hgemm_m16n16k16mma2x4_wp4x2_async hzero mma_sync PAD A B M N K gx gy envs =
  hgemm_m16n16k16mma2x4_wp4x2_async hzero mma_sync PAD' A B M N K gx gy envs'.
Proof.
  intros Hf Hf' HP HP' HK. unfold hgemm_m16n16k16mma2x4_wp4x2_async.
  apply launch_ext. intros b_x b_y. apply block_stores_ext. intros w i j Hw Hi Hj.
  pose proof (steps_at_least_one K HK) as Hn.
  rewrite (async_block_frag hzero mma_sync A B N K b_x b_y (envs b_x b_y)) by auto.
  now rewrite (async_block_frag hzero mma_sync A B N K b_x b_y (envs' b_x b_y)) by auto.
Qed.

(** X4. When [K < 16] the reduction loop of the synchronous kernel runs no
    iteration: every store of the launch carries [__float2half(0.0f)], for
    any operands, grid and environment. *)
Theorem sync_kernel_without_slices_stores_zero
        (A B : @mem half) M N K gx gy (envs : Z -> Z -> @block_env half) :
  Int32.in_range K -> K < 16 ->
  Forall (fun st => snd st = hzero)
         (hgemm_m16n16k16mma2x4_wp4x2 hzero mma_sync A B M N K gx gy envs).
Proof.
  intros HK HK16. apply Forall_forall. intros [a v] Hin.
  unfold hgemm_m16n16k16mma2x4_wp4x2 in Hin.
  apply (In_launch_stores hzero N gx gy
           (fun b_x b_y => sync_block hzero mma_sync A B N K b_x b_y (envs b_x b_y))) in Hin.
  destruct Hin as [t ((_ & _ & _ & Hi & Hj & Hr & Hc) & _ & ->)]. cbn [snd].
  unfold sync_block, for_. rewrite zrange_nonpos.
  - cbn [fold_left]. unfold block_entry. cbn [warps].
    rewrite init_frag_C_frag by assumption. apply frag_elt_fill; geom; lia.
  - unfold Int32.in_range, Int32.min_int, Int32.max_int in HK. geom. unwrap. zlia.
Qed.

End KernelExtras.

Lemma async_kernel_matches_sync_witness :
  let mma := fun a b c : list Z => map (fun x => x + 1) (a ++ b ++ c) in
  16 <= 48 <= Int32.max_int /\
  hgemm_m16n16k16mma2x4_wp4x2_async 0 mma 8 (fun x => x) (fun x => 2 * x) 128 256 48 2 1
    (fun _ _ => reversed_env)
  = hgemm_m16n16k16mma2x4_wp4x2 0 mma (fun x => x) (fun x => 2 * x) 128 256 48 2 1
      (fun _ _ => lockstep_env 0).
Proof.
  cbv zeta.
  assert (HK : 16 <= 48 <= Int32.max_int) by (unfold Int32.max_int; lia).
  split; [exact HK|].
  refine (proj1 (async_kernel_matches_sync 0 _ 8 _ _ 128 256 48 2 1
                   (fun _ _ => lockstep_env 0) (fun _ _ => reversed_env) _ _ _ HK)).
  - intros. apply lockstep_env_fair.
  - intros. apply reversed_env_fair.
  - lia.
Defined.

Lemma sync_kernel_ignores_environment_witness :
  let mma := fun a b c : list Z => map (fun x => x + 1) (a ++ b ++ c) in
  fair reversed_env /\ fair (lockstep_env 7) /\
  hgemm_m16n16k16mma2x4_wp4x2 0 mma (fun x => x) (fun x => 2 * x) 128 256 0 2 1
    (fun _ _ => lockstep_env 7)
  = hgemm_m16n16k16mma2x4_wp4x2 0 mma (fun x => x) (fun x => 2 * x) 128 256 0 2 1
      (fun _ _ => reversed_env).
Proof.
  cbv zeta. split; [apply reversed_env_fair|]. split; [apply lockstep_env_fair|].
  refine (sync_kernel_ignores_environment 0 _ _ _ 128 256 0 2 1
            (fun _ _ => lockstep_env 7) (fun _ _ => reversed_env) _ _).
  - intros. apply lockstep_env_fair.
  - intros. apply reversed_env_fair.
Defined.

Lemma async_kernel_ignores_padding_and_environment_witness :
  let mma := fun a b c : list Z => map (fun x => x + 1) (a ++ b ++ c) in
  0 <= 0 /\ 0 <= 8 /\ 16 <= 16 <= Int32.max_int /\
  hgemm_m16n16k16mma2x4_wp4x2_async 0 mma 0 (fun x => x) (fun x => 2 * x) 128 128 16 1 1
    (fun _ _ => lockstep_env 7)
  = hgemm_m16n16k16mma2x4_wp4x2_async 0 mma 8 (fun x => x) (fun x => 2 * x) 128 128 16 1 1
      (fun _ _ => reversed_env).
Proof.
  cbv zeta.
  assert (HK : 16 <= 16 <= Int32.max_int) by (unfold Int32.max_int; lia).
  split; [lia|]. split; [lia|]. split; [exact HK|].
  refine (async_kernel_ignores_padding_and_environment 0 _ 0 8 _ _ 128 128 16 1 1
            (fun _ _ => lockstep_env 7) (fun _ _ => reversed_env) _ _ _ _ HK).
  - intros. apply lockstep_env_fair.
  - intros. apply reversed_env_fair.
  - lia.
  - lia.
Defined.

Lemma sync_kernel_without_slices_stores_zero_witness :
  Int32.in_range 0 /\ 0 < 16 /\
  Forall (fun st => snd st = 0)
         (hgemm_m16n16k16mma2x4_wp4x2 0 (fun a b c : list Z => a) (fun x => x) (fun x => x)
            128 128 0 1 1 (fun _ _ => reversed_env)).
Proof.
  assert (HK : Int32.in_range 0)
    by (unfold Int32.in_range, Int32.min_int, Int32.max_int; lia).
  split; [exact HK|]. split; [lia|].
  exact (sync_kernel_without_slices_stores_zero 0 (fun a b c : list Z => a)
           (fun x => x) (fun x => x) 128 128 0 1 1 (fun _ _ => reversed_env) HK ltac:(lia)).
Defined.



(** X6. [const int M = a.size(0)] truncates a 64-bit size, and the shape
    check of [a] against its own truncated sizes catches it: for half
    tensors, when a size of [a] or the second size of [b] does not fit an
    [int], both wrappers throw (the divisibility message, or the size
    mismatch message when the truncated values happen to be divisible)
    and launch nothing. *)
Theorem wrapper_rejects_sizes_beyond_int (a b c : Host.Tensor) :
  Host.dtype a = Host.kHalf -> Host.dtype b = Host.kHalf -> Host.dtype c = Host.kHalf ->
  ~ (Int32.in_range (Host.size a 0) /\ Int32.in_range (Host.size a 1) /\
     Int32.in_range (Host.size b 1)) ->
  exists what,
    (what = Host.divisibility_message \/ what = Host.shape_message) /\
    (what = Host.divisibility_message <->
     ~ (Z.rem (Int32.wrap (Host.size a 0)) 128 = 0 /\
        Z.rem (Int32.wrap (Host.size b 1)) 128 = 0 /\
        Z.rem (Int32.wrap (Host.size a 1)) 16 = 0)) /\
    Host.hgemm_m16n16k16mma2x4_wp4x2 a b c = Host.Throws what /\
    Host.hgemm_m16n16k16mma2x4_wp4x2_async a b c = Host.Throws what.
Proof.
  intros Ha Hb Hc Hr.
  unfold Host.hgemm_m16n16k16mma2x4_wp4x2, Host.hgemm_m16n16k16mma2x4_wp4x2_async,
    Host.checked_launch, Host.throw_if.
  apply dtype_mismatch_false in Ha, Hb, Hc. rewrite Ha, Hb, Hc. cbv zeta.
  destruct (Host.not_divisible _ _ _) eqn:Ed.
  { exists Host.divisibility_message. split; [now left|]. split; [|split; reflexivity].
    split; [|reflexivity]. intros _ D. apply not_divisible_false in D. congruence. }
  exists Host.shape_message. split; [now right|].
  apply not_divisible_false in Ed. unfold Int32.rem in Ed. split.
  { split; [discriminate|]. intros D. contradiction. }
  destruct (Host.shape_mismatch a _ _) eqn:Esa; [split; reflexivity|].
  destruct (Host.shape_mismatch b _ _) eqn:Esb; [split; reflexivity|].
  exfalso. apply Hr.
  apply shape_mismatch_false in Esa, Esb. destruct Esa as (A0 & A1), Esb as (_ & B1).
  rewrite A0, A1, B1. repeat split; apply wrap_in_range.
Qed.

Lemma wrapper_rejects_sizes_beyond_int_witness :
  let a := Host.matrix Host.kHalf (2 ^ 32 + 128) 16 in
  let b := Host.matrix Host.kHalf 16 128 in
  let c := Host.matrix Host.kHalf 128 128 in
  ~ (Int32.in_range (Host.size a 0) /\ Int32.in_range (Host.size a 1) /\
     Int32.in_range (Host.size b 1)) /\
  Int32.wrap (Host.size a 0) = 128 /\
  Host.hgemm_m16n16k16mma2x4_wp4x2 a b c = Host.Throws Host.shape_message /\
  Host.hgemm_m16n16k16mma2x4_wp4x2_async a b c = Host.Throws Host.shape_message.
Proof.
  cbv zeta.
  assert (Hr : ~ (Int32.in_range (Host.size (Host.matrix Host.kHalf (2 ^ 32 + 128) 16) 0) /\
                  Int32.in_range (Host.size (Host.matrix Host.kHalf (2 ^ 32 + 128) 16) 1) /\
                  Int32.in_range (Host.size (Host.matrix Host.kHalf 16 128) 1))).
  { intros ([_ H] & _). vm_compute in H. apply H. reflexivity. }
  split; [exact Hr|]. split; [reflexivity|].
  destruct (wrapper_rejects_sizes_beyond_int
              (Host.matrix Host.kHalf (2 ^ 32 + 128) 16) (Host.matrix Host.kHalf 16 128)
              (Host.matrix Host.kHalf 128 128) eq_refl eq_refl eq_refl Hr)
    as (what & _ & _ & Es & Ea).
  split; reflexivity.
Defined.



Section AccessExtras.
Context {half : Type} (hzero : half).
Variable mma_sync : @fragment half -> @fragment half -> @fragment half -> @fragment half.

(** X7. The kernels use [A] and [B] only through the offsets their
    128-bit staging copies read: two pairs of operands that agree on the
    offsets read by the blocks of the grid give the same stores.  For the
    asynchronous kernel this holds with at least one slice. *)
Theorem kernels_use_staged_offsets_only
        PAD (A A' B B' : @mem half) M N K gx gy (envs : Z -> Z -> @block_env half) :
  (forall b_x b_y, fair (envs b_x b_y)) -> 0 <= PAD ->
  ((forall b_y a, 0 <= b_y < gy -> In a (reads_A K b_y (slices_sync K)) -> A a = A' a) ->
   (forall b_x a, 0 <= b_x < gx -> In a (reads_B N b_x (slices_sync K)) -> B a = B' a) ->
   hgemm_m16n16k16mma2x4_wp4x2 hzero mma_sync A B M N K gx gy envs =
   hgemm_m16n16k16mma2x4_wp4x2 hzero mma_sync A' B' M N K gx gy envs) /\
  (16 <= K <= Int32.max_int ->
   (forall b_y a, 0 <= b_y < gy -> In a (reads_A K b_y (slices_async K)) -> A a = A' a) ->
   (forall b_x a, 0 <= b_x < gx -> In a (reads_B N b_x (slices_async K)) -> B a = B' a) ->
   hgemm_m16n16k16mma2x4_wp4x2_async hzero mma_sync PAD A B M N K gx gy envs =
   hgemm_m16n16k16mma2x4_wp4x2_async hzero mma_sync PAD A' B' M N K gx gy envs).
Proof.
  intros Hf HP. split.
  - intros HA HB. unfold hgemm_m16n16k16mma2x4_wp4x2.
    apply launch_ext_in. intros b_x b_y Hx Hy. apply block_stores_ext. intros w i j Hw Hi Hj.
    rewrite !sync_block_frag by auto.
    apply reduce_ext; try assumption.
    + intros a Ha. now apply (HA b_y).
    + intros a Ha. now apply (HB b_x).
  - intros HK HA HB. pose proof (steps_at_least_one K HK) as Hn.
    rewrite slices_async_eq in HA, HB by assumption.
    unfold hgemm_m16n16k16mma2x4_wp4x2_async.
    apply launch_ext_in. intros b_x b_y Hx Hy. apply block_stores_ext. intros w i j Hw Hi Hj.
    rewrite !async_block_frag by auto.
    apply reduce_ext; try assumption.
    + intros a Ha. now apply (HA b_y).
    + intros a Ha. now apply (HB b_x).
Qed.

End AccessExtras.

(** X8. A block reads its operands exactly once and nothing else: when
    the offsets fit an [int], the offsets read from [A] by block row [b_y]
    over the [K / 16] slices are, each exactly once, the offsets of rows
    [128 b_y .. 128 b_y + 127] of [A], and those read from [B] by block
    column [b_x] are, each exactly once, the offsets of columns
    [128 b_x .. 128 b_x + 127] of [B]; so every read stays inside the
    [M x K] and [K x N] operands. *)
Theorem block_reads_cover_panels_once (M N K b_x b_y : Z) :
  0 <= K -> K mod 16 = 0 ->
  0 <= b_y -> 128 * b_y + 128 <= M -> M * K <= Int32.max_int ->
  0 <= b_x -> 128 * b_x + 128 <= N -> K * N <= Int32.max_int ->
  Permutation (panel_A K b_y) (reads_A K b_y (slices_sync K)) /\
  Permutation (panel_B N K b_x) (reads_B N b_x (slices_sync K)) /\
  (forall a, In a (reads_A K b_y (slices_sync K)) -> 0 <= a < M * K) /\
  (forall a, In a (reads_B N b_x (slices_sync K)) -> 0 <= a < K * N) /\
  (16 <= K -> slices_async K = slices_sync K).
Proof.
  intros HK HK16 Hby HbyM HMK Hbx HbxN HKN.
  assert (HKmax : K <= Int32.max_int) by nia.
  split; [now apply (reads_A_panel M)|]. split; [now apply reads_B_panel|].
  split; [|split].
  - intros a. now apply reads_A_in_bounds.
  - intros a. now apply reads_B_in_bounds.
  - intros HK1. apply slices_async_eq. rewrite steps_eq by lia. zlia.
Qed.

(** X9. Every 128-bit transfer is aligned: when [K] and [N] are
    multiples of 8 (the wrappers require 16 and 128) and [PAD] is a
    multiple of 8 (the wrapper passes 8), the global offsets read by the
    staging copies and the shared offsets they write, in both kernels and
    either buffer slot, are multiples of 8 halves: this for every block,
    slice and thread, wrap-around of the [int] arithmetic included. *)
Theorem staging_transfers_are_aligned (K N PAD b_x b_y idx_k buf tid : Z) :
  K mod 8 = 0 -> N mod 8 = 0 -> PAD mod 8 = 0 ->
  load_g_A_off K b_y idx_k tid mod 8 = 0 /\
  load_g_B_off N b_x idx_k tid mod 8 = 0 /\
  s_A_idx BK 0 (load_s_A_m tid) (load_s_A_k tid) mod 8 = 0 /\
  s_B_idx BN 0 (load_s_B_k tid) (load_s_B_n tid) mod 8 = 0 /\
  s_A_idx (ldA PAD) buf (load_s_A_m tid) (load_s_A_k tid) mod 8 = 0 /\
  s_B_idx (ldB PAD) buf (load_s_B_k tid) (load_s_B_n tid) mod 8 = 0.
Proof.
  intros HK HN HP.
  apply Z.mod_divide in HK, HN, HP; try lia.
  assert (HldA : (8 | ldA PAD)).
  { unfold ldA. geom. apply Z.divide_add_r; [now exists 2|assumption]. }
  assert (HldB : (8 | ldB PAD)).
  { unfold ldB. geom. apply Z.divide_add_r; [now exists 16|assumption]. }
  repeat split; apply Z.mod_divide; try lia.
  - now apply load_g_A_off_divide.
  - now apply load_g_B_off_divide.
  - unfold s_A_idx. apply Z.divide_add_r; [|apply load_s_A_k_divide].
    apply Z.divide_mul_r. geom. now exists 2.
  - unfold s_B_idx. apply Z.divide_add_r; [|apply load_s_B_n_divide].
    apply Z.divide_mul_r. geom. now exists 16.
  - unfold s_A_idx. apply Z.divide_add_r; [|apply load_s_A_k_divide].
    now apply Z.divide_mul_r.
  - unfold s_B_idx. apply Z.divide_add_r; [|apply load_s_B_n_divide].
    now apply Z.divide_mul_r.
Qed.

(** X10. The tiles handed to the WMMA loads and stores start at
    multiples of 16 halves (256 bits): the rows of [s_A] and the columns
    of [s_B] at which the fragments of a warp start, in either slot and
    with any padding, and, when [N] is a multiple of 16, the offsets into
    [C] at which the accumulators are stored. *)
Theorem fragment_tiles_are_aligned (N PAD b_x b_y buf tid i j : Z) :
  N mod 16 = 0 ->
  s_A_idx BK 0 (frag_row (warp_m tid) i) 0 mod 16 = 0 /\
  s_B_idx BN 0 0 (frag_col (warp_n tid) j) mod 16 = 0 /\
  s_A_idx (ldA PAD) buf (frag_row (warp_m tid) i) 0 mod 16 = 0 /\
  s_B_idx (ldB PAD) buf 0 (frag_col (warp_n tid) j) mod 16 = 0 /\
  store_g_C_off N b_x b_y (warp_m tid) (warp_n tid) i j mod 16 = 0.
Proof.
  intros HN. apply Z.mod_divide in HN; try lia.
  assert (HA : forall ld b, (16 | s_A_idx ld b (frag_row (warp_m tid) i) 0)).
  { intros ld b. unfold s_A_idx. rewrite Z.add_0_r. apply Z.divide_mul_l.
    apply Z.divide_add_r; [|apply frag_row_divide].
    apply Z.divide_mul_r. geom. now exists 8. }
  assert (HB : forall ld b, (16 | s_B_idx ld b 0 (frag_col (warp_n tid) j))).
  { intros ld b. unfold s_B_idx. apply Z.divide_add_r; [|apply frag_col_divide].
    apply Z.divide_mul_l. rewrite Z.add_0_r. apply Z.divide_factor_r. }
  repeat split; apply Z.mod_divide; try lia; auto.
  now apply store_g_C_off_divide.
Qed.

Section SharedExtras.
Context {half : Type}.
Variable mma_sync : @fragment half -> @fragment half -> @fragment half -> @fragment half.

(** X11. The staging copies stay inside the shared arrays and never
    write a padding column: for every thread of the block, any slice and
    any operands, each destination of the synchronous kernel lies in
    [s_A[BM][BK]] or [s_B[BK][BN]], and each destination of the
    asynchronous kernel, in slot 0 of the prologue or in slot [next_buf]
    of any iteration, lies in [s_A[2][BM][BK+PAD]] or [s_B[2][BK][BN+PAD]]
    at a column below [BK] or [BN]. *)
Theorem staging_writes_stay_in_bounds
        (A B : @mem half) (PAD N K b_x b_y idx_k tid a : Z) (v : half) :
  0 <= PAD -> 0 <= tid < NUM_THREADS ->
  (In (a, v) (stage_A A K b_y BK 0 idx_k tid) -> 0 <= a < s_A_size 1 BK) /\
  (In (a, v) (stage_B B N b_x BN 0 idx_k tid) -> 0 <= a < s_B_size 1 BN) /\
  (In (a, v) (stage_A A K b_y (ldA PAD) 0 0 tid) \/
   In (a, v) (stage_A A K b_y (ldA PAD) (next_buf idx_k) idx_k tid) ->
   0 <= a < s_A_size 2 (ldA PAD) /\ a mod ldA PAD < BK) /\
  (In (a, v) (stage_B B N b_x (ldB PAD) 0 0 tid) \/
   In (a, v) (stage_B B N b_x (ldB PAD) (next_buf idx_k) idx_k tid) ->
   0 <= a < s_B_size 2 (ldB PAD) /\ a mod ldB PAD < BN).
Proof.
  intros HP Ht. destruct (buf_slots idx_k) as (Hn & _ & _).
  assert (HA : forall slots ld buf k, 0 <= buf < slots -> BK <= ld ->
             In (a, v) (stage_A A K b_y ld buf k tid) ->
             0 <= a < s_A_size slots ld /\ a mod ld < BK).
  { intros slots ld buf k Hb Hld Hin. apply In_stage_A_one in Hin; [|assumption].
    destruct Hin as [e [He ->]].
    destruct (s_A_idx_bounds slots ld buf (tid / 2) (8 * (tid mod 2) + e)) as [H1 H2];
      [assumption|assumption|geom; zlia|geom; zlia|].
    rewrite H2. split; [assumption|geom; zlia]. }
  assert (HB : forall slots ld buf k, 0 <= buf < slots -> BN <= ld ->
             In (a, v) (stage_B B N b_x ld buf k tid) ->
             0 <= a < s_B_size slots ld /\ a mod ld < BN).
  { intros slots ld buf k Hb Hld Hin. apply In_stage_B_one in Hin; [|assumption].
    destruct Hin as [e [He ->]].
    destruct (s_B_idx_bounds slots ld buf (tid / 16) (8 * (tid mod 16) + e)) as [H1 H2];
      [assumption|assumption|geom; zlia|geom; zlia|].
    rewrite H2. split; [assumption|geom; zlia]. }
  assert (HldA : BK <= ldA PAD) by (unfold ldA; lia).
  assert (HldB : BN <= ldB PAD) by (unfold ldB; lia).
  split; [|split; [|split]].
  - intros Hin. apply (HA 1 BK 0 idx_k); [lia|lia|assumption].
  - intros Hin. apply (HB 1 BN 0 idx_k); [lia|lia|assumption].
  - intros [Hin|Hin]; [apply (HA 2 (ldA PAD) 0 0)|apply (HA 2 (ldA PAD) (next_buf idx_k) idx_k)];
      try assumption; lia.
  - intros [Hin|Hin]; [apply (HB 2 (ldB PAD) 0 0)|apply (HB 2 (ldB PAD) (next_buf idx_k) idx_k)];
      try assumption; lia.
Qed.

(** X12. A fragment load depends on shared memory only at the 256
    offsets of its tile, and these stay inside the shared arrays and
    outside the padding columns: in [s_A[BM][BK]] and [s_B[BK][BN]] for the
    synchronous kernel, and in the slot [curr_buf] of any iteration or the
    slot [last_buf] of the drain of [s_A[2][BM][BK+PAD]] and
    [s_B[2][BK][BN+PAD]] for the asynchronous one, for any [K]. *)
Theorem fragment_loads_stay_in_bounds (PAD K idx_k w i j a : Z) :
  0 <= PAD -> 0 <= w < NUM_WARPS -> 0 <= i < WMMA_PER_WARP_M -> 0 <= j < WMMA_PER_WARP_N ->
  (forall (sA sA' : @mem half) ld buf,
      (forall x, In x (frag_A_offsets ld buf w i) -> sA x = sA' x) ->
      load_frag_A sA ld buf w i = load_frag_A sA' ld buf w i) /\
  (forall (sB sB' : @mem half) ld buf,
      (forall x, In x (frag_B_offsets ld buf w j) -> sB x = sB' x) ->
      load_frag_B sB ld buf w j = load_frag_B sB' ld buf w j) /\
  (In a (frag_A_offsets BK 0 w i) -> 0 <= a < s_A_size 1 BK) /\
  (In a (frag_B_offsets BN 0 w j) -> 0 <= a < s_B_size 1 BN) /\
  (In a (frag_A_offsets (ldA PAD) (curr_buf idx_k) w i) \/
   In a (frag_A_offsets (ldA PAD) (last_buf K) w i) ->
   0 <= a < s_A_size 2 (ldA PAD) /\ a mod ldA PAD < BK) /\
  (In a (frag_B_offsets (ldB PAD) (curr_buf idx_k) w j) \/
   In a (frag_B_offsets (ldB PAD) (last_buf K) w j) ->
   0 <= a < s_B_size 2 (ldB PAD) /\ a mod ldB PAD < BN).
Proof.
  intros HP Hw Hi Hj. destruct (buf_slots idx_k) as (_ & Hc & _).
  pose proof (last_buf_range K) as Hl.
  assert (HA : forall slots ld buf, 0 <= buf < slots -> BK <= ld ->
             In a (frag_A_offsets ld buf w i) ->
             0 <= a < s_A_size slots ld /\ a mod ld < BK).
  { intros slots ld buf Hb Hld Hin. apply In_frag_A_offsets in Hin; try assumption.
    destruct Hin as (r & c & Hr & Hc' & ->).
    destruct (s_A_idx_bounds slots ld buf (32 * (w / 2) + 16 * i + r) c) as [H1 H2];
      [assumption|assumption|geom; zlia|geom; zlia|].
    rewrite H2. split; [assumption|geom; lia]. }
  assert (HB : forall slots ld buf, 0 <= buf < slots -> BN <= ld ->
             In a (frag_B_offsets ld buf w j) ->
             0 <= a < s_B_size slots ld /\ a mod ld < BN).
  { intros slots ld buf Hb Hld Hin. apply In_frag_B_offsets in Hin; try assumption.
    destruct Hin as (r & c & Hr & Hc' & ->).
    destruct (s_B_idx_bounds slots ld buf r (64 * (w mod 2) + 16 * j + c)) as [H1 H2];
      [assumption|assumption|geom; zlia|geom; zlia|].
    rewrite H2. split; [assumption|geom; zlia]. }
  assert (HldA : BK <= ldA PAD) by (unfold ldA; lia).
  assert (HldB : BN <= ldB PAD) by (unfold ldB; lia).
  split; [|split; [|split; [|split; [|split]]]].
  - intros sA sA' ld buf H. apply load_matrix_sync_ext. exact H.
  - intros sB sB' ld buf H. apply load_matrix_sync_ext. exact H.
  - intros Hin. apply (HA 1 BK 0); [lia|lia|assumption].
  - intros Hin. apply (HB 1 BN 0); [lia|lia|assumption].
  - intros [Hin|Hin]; [apply (HA 2 (ldA PAD) (curr_buf idx_k))
                      |apply (HA 2 (ldA PAD) (last_buf K))]; try assumption; lia.
  - intros [Hin|Hin]; [apply (HB 2 (ldB PAD) (curr_buf idx_k))
                      |apply (HB 2 (ldB PAD) (last_buf K))]; try assumption; lia.
Qed.

(** X13. The double buffer is free of races between copy and compute:
    in any iteration of the asynchronous loop, for any [int] value of the
    counter, the copies in flight target slot [next_buf], which differs
    from [curr_buf], so the fragments a warp loads from slot [curr_buf] do
    not depend on how many of these copies have landed, and the step
    multiply-accumulates the fragments of the shared memory it started
    from and leaves slot [curr_buf] as it was. *)
Theorem async_compute_ignores_inflight_copies
        PAD (A B : @mem half) N K b_x b_y (env : @block_env half) idx_k
        (st : @block_state half) w i j :
  fair env -> 0 <= PAD ->
  0 <= w < NUM_WARPS -> 0 <= i < WMMA_PER_WARP_M -> 0 <= j < WMMA_PER_WARP_N ->
  next_buf idx_k <> curr_buf idx_k /\
  load_frag_A (seen_A PAD A K b_y env idx_k w st) (ldA PAD) (curr_buf idx_k) w i
  = load_frag_A (s_A st) (ldA PAD) (curr_buf idx_k) w i /\
  load_frag_B (seen_B PAD B N b_x env idx_k w st) (ldB PAD) (curr_buf idx_k) w j
  = load_frag_B (s_B st) (ldB PAD) (curr_buf idx_k) w j /\
  frag_C (warps (async_step mma_sync PAD A B N K b_x b_y env idx_k st) w) i j
  = mma_sync (load_frag_A (s_A st) (ldA PAD) (curr_buf idx_k) w i)
             (load_frag_B (s_B st) (ldB PAD) (curr_buf idx_k) w j)
             (frag_C (warps st w) i j) /\
  (forall m k, 0 <= m < BM -> 0 <= k < BK ->
     s_A (async_step mma_sync PAD A B N K b_x b_y env idx_k st)
         (s_A_idx (ldA PAD) (curr_buf idx_k) m k)
     = s_A st (s_A_idx (ldA PAD) (curr_buf idx_k) m k)) /\
  (forall k n, 0 <= k < BK -> 0 <= n < BN ->
     s_B (async_step mma_sync PAD A B N K b_x b_y env idx_k st)
         (s_B_idx (ldB PAD) (curr_buf idx_k) k n)
     = s_B st (s_B_idx (ldB PAD) (curr_buf idx_k) k n)).
Proof.
  intros Hf HP Hw Hi Hj. destruct (buf_slots idx_k) as (Hn & Hc & Hne).
  assert (HldA : BK <= ldA PAD) by (unfold ldA; lia).
  assert (HldB : BN <= ldB PAD) by (unfold ldB; lia).
  assert (FA : forall n m k, 0 <= m < BM -> 0 <= k < BK ->
             write_all (firstn n (pending_A PAD A K b_y env (next_buf idx_k) idx_k)) (s_A st)
                       (s_A_idx (ldA PAD) (curr_buf idx_k) m k)
             = s_A st (s_A_idx (ldA PAD) (curr_buf idx_k) m k)).
  { intros n m k Hm Hk. unfold pending_A. apply stage_A_frame; try assumption; try lia.
    apply Hf. }
  assert (FB : forall n k c, 0 <= k < BK -> 0 <= c < BN ->
             write_all (firstn n (pending_B PAD B N b_x env (next_buf idx_k) idx_k)) (s_B st)
                       (s_B_idx (ldB PAD) (curr_buf idx_k) k c)
             = s_B st (s_B_idx (ldB PAD) (curr_buf idx_k) k c)).
  { intros n k c Hk Hc'. unfold pending_B. apply stage_B_frame; try assumption; try lia.
    apply Hf. }
  assert (LA : load_frag_A (seen_A PAD A K b_y env idx_k w st) (ldA PAD) (curr_buf idx_k) w i
               = load_frag_A (s_A st) (ldA PAD) (curr_buf idx_k) w i).
  { apply load_matrix_sync_ext. intros x Hx. fold (frag_A_offsets (ldA PAD) (curr_buf idx_k) w i) in Hx.
    apply In_frag_A_offsets in Hx; try assumption. destruct Hx as (r & c & Hr & Hc' & ->).
    unfold seen_A. apply FA; geom; zlia. }
  assert (LB : load_frag_B (seen_B PAD B N b_x env idx_k w st) (ldB PAD) (curr_buf idx_k) w j
               = load_frag_B (s_B st) (ldB PAD) (curr_buf idx_k) w j).
  { apply load_matrix_sync_ext. intros x Hx. fold (frag_B_offsets (ldB PAD) (curr_buf idx_k) w j) in Hx.
    apply In_frag_B_offsets in Hx; try assumption. destruct Hx as (r & c & Hr & Hc' & ->).
    unfold seen_B. apply FB; geom; zlia. }
  split; [exact Hne|]. split; [exact LA|]. split; [exact LB|]. split; [|split].
  - unfold async_step. cbn [warps]. unfold warp_compute.
    rewrite mma_pass_frag by assumption. now rewrite LA, LB.
  - intros m k Hm Hk. unfold async_step. cbn [s_A].
    rewrite <- (firstn_all (pending_A PAD A K b_y env (next_buf idx_k) idx_k)). now apply FA.
  - intros k n Hk Hn'. unfold async_step. cbn [s_B].
    rewrite <- (firstn_all (pending_B PAD B N b_x env (next_buf idx_k) idx_k)). now apply FB.
Qed.

(** X20. A staging step leaves the whole slice in shared memory, row
    major: after iteration [idx_k] of the synchronous loop, cell [(m, k)]
    of [s_A] is [A[128 b_y + m][16 idx_k + k]] and cell [(k, n)] of [s_B]
    is [B[16 idx_k + k][128 b_x + n]], and after the copies of iteration
    [idx_k] of the asynchronous loop the same holds of slot [next_buf]:
    whatever the arrays held before and in whatever order the copies of
    the 256 threads land. *)
Theorem staging_fills_slice_row_major
        PAD (A B : @mem half) M N K b_x b_y (env : @block_env half) idx_k
        (st : @block_state half) m k n :
  fair env -> 0 <= PAD ->
  0 <= M -> 0 <= N -> 0 <= K -> M * K <= Int32.max_int -> K * N <= Int32.max_int ->
  0 <= b_y -> 128 * b_y + 128 <= M -> 0 <= b_x -> 128 * b_x + 128 <= N ->
  0 <= idx_k -> 16 * idx_k + 16 <= K ->
  0 <= m < BM -> 0 <= k < BK -> 0 <= n < BN ->
  s_A (sync_step mma_sync A B N K b_x b_y env idx_k st) (s_A_idx BK 0 m k)
  = A ((128 * b_y + m) * K + 16 * idx_k + k) /\
  s_B (sync_step mma_sync A B N K b_x b_y env idx_k st) (s_B_idx BN 0 k n)
  = B ((16 * idx_k + k) * N + 128 * b_x + n) /\
  s_A (async_step mma_sync PAD A B N K b_x b_y env idx_k st)
      (s_A_idx (ldA PAD) (next_buf idx_k) m k)
  = A ((128 * b_y + m) * K + 16 * idx_k + k) /\
  s_B (async_step mma_sync PAD A B N K b_x b_y env idx_k st)
      (s_B_idx (ldB PAD) (next_buf idx_k) k n)
  = B ((16 * idx_k + k) * N + 128 * b_x + n).
Proof.
  intros Hf HP HM HN HK HMK HKN Hby HbyM Hbx HbxN Hidx HidxK Hm Hk Hn.
  destruct (buf_slots idx_k) as (Hnb & _ & _).
  assert (HldA : BK <= ldA PAD) by (unfold ldA; lia).
  assert (HldB : BN <= ldB PAD) by (unfold ldB; lia).
  rewrite <- (slice_A_eq A M K b_y idx_k m k) by first [assumption | geom; lia].
  rewrite <- (slice_B_eq B N K b_x idx_k k n) by first [assumption | geom; lia].
  unfold sync_step, async_step, pending_A, pending_B. cbv zeta. cbn [s_A s_B].
  split; [|split; [|split]].
  - apply stage_A_holds; try assumption; [apply Hf|lia|lia].
  - apply stage_B_holds; try assumption; [apply Hf|lia|lia].
  - apply stage_A_holds; try assumption; [apply Hf|lia].
  - apply stage_B_holds; try assumption; [apply Hf|lia].
Qed.

End SharedExtras.

(** X14. The threads of a warp agree on their warp tile: thread [tid]
    is in warp [tid / 32], every thread of warp [w] computes the tile
    [(w / 2, w mod 2)] of its first thread, inside the 4 x 2 arrangement,
    and a tile [(wm, wn)] belongs to the 32 threads of warp [2 wm + wn]
    and to no other thread. *)
Theorem warp_tile_ownership (tid wm wn : Z) :
  0 <= tid < NUM_THREADS -> 0 <= wm < WARPS_PER_BLOCK_M -> 0 <= wn < WARPS_PER_BLOCK_N ->
  warp_id tid = tid / 32 /\ 0 <= warp_id tid < NUM_WARPS /\
  warp_m tid = warp_m (lane0 (warp_id tid)) /\ warp_n tid = warp_n (lane0 (warp_id tid)) /\
  warp_m tid = warp_id tid / 2 /\ warp_n tid = warp_id tid mod 2 /\
  (warp_m tid = wm /\ warp_n tid = wn <->
   32 * (2 * wm + wn) <= tid < 32 * (2 * wm + wn) + 32).
Proof.
  intros Ht Hwm Hwn.
  assert (Hw : 0 <= tid / 32 < NUM_WARPS) by (geom; zlia).
  rewrite warp_id_eq by assumption.
  rewrite warp_m_lane0, warp_n_lane0 by assumption.
  rewrite warp_m_eq, warp_n_eq by assumption.
  geom. repeat split; try zlia.
Qed.

Lemma warp_tile_ownership_witness :
  warp_m 200 = 3 /\ warp_n 200 = 0 /\ 32 * (2 * 3 + 0) <= 200 < 32 * (2 * 3 + 0) + 32.
Proof.
  assert (Ht : 0 <= 200 < NUM_THREADS) by (unfold NUM_THREADS; vm_compute; split; congruence).
  assert (Hm : 0 <= 3 < WARPS_PER_BLOCK_M) by (vm_compute; split; congruence).
  assert (Hn : 0 <= 0 < WARPS_PER_BLOCK_N) by (vm_compute; split; congruence).
  destruct (warp_tile_ownership 200 3 0 Ht Hm Hn) as (_ & _ & _ & _ & _ & _ & [_ H]).
  assert (R : 32 * (2 * 3 + 0) <= 200 < 32 * (2 * 3 + 0) + 32) by lia.
  destruct (H R) as [E1 E2]. split; [exact E1|]. split; [exact E2|exact R].
Defined.

Section EdgeExtras.
Context {half : Type} (hzero : half).
Variable mma_sync : @fragment half -> @fragment half -> @fragment half -> @fragment half.

(** X15. The kernels overwrite [C] and touch nothing else: for a
    problem that satisfies the divisibility preconditions and whose output
    is addressable with an [int], launched with the wrappers' grid, what an
    element of [C] holds afterwards does not depend on what [C] held
    before, and memory outside the [M * N] elements of [C] is left as it
    was; this for either kernel, any [K], padding and environment. *)
Theorem kernels_overwrite_output_only
        PAD (A B C0 C1 : @mem half) M N K (envs : Z -> Z -> @block_env half) a :
  0 <= M -> 0 <= N -> M mod 128 = 0 -> N mod 128 = 0 -> M * N <= Int32.max_int ->
  let sync := hgemm_m16n16k16mma2x4_wp4x2 hzero mma_sync A B M N K
                (grid_x N) (grid_y M) envs in
  let async := hgemm_m16n16k16mma2x4_wp4x2_async hzero mma_sync PAD A B M N K
                 (grid_x N) (grid_y M) envs in
  (0 <= a < M * N ->
   C_after C0 sync a = C_after C1 sync a /\ C_after C0 async a = C_after C1 async a) /\
  (~ 0 <= a < M * N ->
   C_after C0 sync a = C0 a /\ C_after C0 async a = C0 a).
Proof.
  intros HM HN HM128 HN128 HMN sync async.
  assert (G : forall blk : Z -> Z -> @block_state half,
             let stores := launch (grid_x N) (grid_y M)
                             (fun b_x b_y => block_stores hzero N b_x b_y (blk b_x b_y)) in
             (0 <= a < M * N -> C_after C0 stores a = C_after C1 stores a) /\
             (~ 0 <= a < M * N -> C_after C0 stores a = C0 a)).
  { intros blk stores.
    assert (P : Permutation (zrange (M * N)) (map fst stores))
      by (subst stores; now apply kernel_offsets_permutation).
    assert (ND : NoDup (map fst stores)).
    { apply (Permutation_NoDup P), NoDup_zrange. }
    unfold C_after. split.
    - intros Ha. assert (Hin : In a (map fst stores)).
      { apply (Permutation_in _ P). now apply In_zrange. }
      apply in_map_iff in Hin. destruct Hin as [[a' v] [E Hin]]. cbn [fst] in E. subst a'.
      rewrite (write_all_in stores C0 a v), (write_all_in stores C1 a v); try assumption;
        try reflexivity; intros v' Hv'; apply (NoDup_fst_functional stores a); assumption.
    - intros Ha. apply write_all_notin. intros Hin.
      apply (Permutation_in _ (Permutation_sym P)), In_zrange in Hin. contradiction. }
  split.
  - intros Ha. split; [apply (G (fun b_x b_y => sync_block hzero mma_sync A B N K b_x b_y
                                                           (envs b_x b_y)))
                      |apply (G (fun b_x b_y => async_block hzero mma_sync PAD A B N K b_x b_y
                                                            (envs b_x b_y)))]; exact Ha.
  - intros Ha. split; [apply (G (fun b_x b_y => sync_block hzero mma_sync A B N K b_x b_y
                                                           (envs b_x b_y)))
                      |apply (G (fun b_x b_y => async_block hzero mma_sync PAD A B N K b_x b_y
                                                            (envs b_x b_y)))]; exact Ha.
Qed.

(** X16. With [K = 0], which the wrappers accept, the operands have no
    element, yet the prologue of the asynchronous kernel still copies: at
    the end of the block slot 0 of [s_A] holds [A[0..15]] in each of its
    128 rows and slot 0 of [s_B] holds rows 0 to 15 of a [B] with row
    stride [N]. *)
Theorem async_prologue_reads_without_slices
        PAD (A B : @mem half) N b_x b_y (env : @block_env half) :
  fair env -> 0 <= PAD -> 0 <= b_x -> 128 * b_x + 128 <= N -> 16 * N <= Int32.max_int ->
  let st := async_block hzero mma_sync PAD A B N 0 b_x b_y env in
  (forall m k, 0 <= m < BM -> 0 <= k < BK -> s_A st (s_A_idx (ldA PAD) 0 m k) = A k) /\
  (forall k n, 0 <= k < BK -> 0 <= n < BN ->
     s_B st (s_B_idx (ldB PAD) 0 k n) = B (k * N + 128 * b_x + n)).
Proof.
  intros Hf HP Hbx HbxN HN st.
  assert (E : st = async_drain mma_sync PAD 0
                     (async_fill PAD A B N 0 b_x b_y env (block_entry hzero env))) by reflexivity.
  destruct (async_fill_holds A B N 0 b_x b_y env Hf PAD HP (block_entry hzero env)) as [FA FB].
  rewrite E. unfold async_drain. cbn [s_A s_B]. split.
  - intros m k Hm Hk. rewrite FA by assumption. unfold slice_A. f_equal.
    assert (Ht : 0 <= 2 * m + k / VEC < NUM_THREADS) by (geom; zlia).
    unfold load_g_A_off, load_g_A_k. rewrite load_s_A_k_eq by assumption.
    unfold Int32.mul at 1. rewrite Z.mul_0_r. geom. unwrap. zlia.
  - intros k n Hk Hn. rewrite FB by assumption. unfold slice_B. f_equal.
    assert (Ht : 0 <= 16 * k + n / VEC < NUM_THREADS) by (geom; zlia).
    rewrite (load_g_B_off_eq N 16) by first [assumption | lia]. geom. zlia.
Qed.

(** X17. The offsets into [C] are computed in [int]: when the output has
    so many elements that [(M - 16) * N] lies between [2^31] and [2^32],
    which the wrappers do not exclude, the product [store_g_C_m * N] of
    the last row tile wraps around and either kernel stores at a negative
    offset, before the start of [C]. *)
Theorem large_output_stores_before_C
        PAD (A B : @mem half) M N K (envs : Z -> Z -> @block_env half) :
  0 < M <= Int32.max_int -> 0 < N <= Int32.max_int -> M mod 128 = 0 -> N mod 128 = 0 ->
  2 ^ 31 <= (M - 16) * N < 2 ^ 32 ->
  (exists a v, a < 0 /\
     In (a, v) (hgemm_m16n16k16mma2x4_wp4x2 hzero mma_sync A B M N K
                  (grid_x N) (grid_y M) envs)) /\
  (exists a v, a < 0 /\
     In (a, v) (hgemm_m16n16k16mma2x4_wp4x2_async hzero mma_sync PAD A B M N K
                  (grid_x N) (grid_y M) envs)).
Proof.
  intros HM HN HM128 HN128 Hbig.
  set (t := {| w_bx := 0; w_by := M / 128 - 1; w_warp := 6; w_i := 1; w_j := 0;
               w_r := 0; w_c := 0 |}).
  assert (V : writer_valid (grid_x N) (grid_y M) t).
  { rewrite grid_x_eq, grid_y_eq by lia. unfold writer_valid, t.
    cbn [w_bx w_by w_warp w_i w_j w_r w_c]. geom. zlia. }
  assert (Hoff : writer_off N t = (M - 16) * N - 2 ^ 32).
  { unfold writer_off, t. cbn [w_bx w_by w_warp w_i w_j w_r w_c].
    rewrite warp_m_lane0, warp_n_lane0 by (geom; lia).
    unfold store_g_C_off.
    assert (Em : store_g_C_m (M / 128 - 1) (6 / 2) 1 = M - 16).
    { unfold store_g_C_m. geom. unfold Int32.max_int in *. unwrap. zlia. }
    assert (En : store_g_C_n 0 (6 mod 2) 0 = 0) by reflexivity.
    rewrite Em, En. unfold Int32.mul. generalize dependent ((M - 16) * N). intros p Hp.
    unfold Int32.wrap. change (2 ^ 31) with 2147483648 in *.
    change (2 ^ 32) with 4294967296 in *. zlia. }
  assert (Hneg : writer_off N t < 0) by (rewrite Hoff; lia).
  split.
  - eexists (writer_off N t), _. split; [exact Hneg|].
    unfold hgemm_m16n16k16mma2x4_wp4x2.
    apply (In_launch_stores hzero N (grid_x N) (grid_y M)
             (fun b_x b_y => sync_block hzero mma_sync A B N K b_x b_y (envs b_x b_y))).
    exists t. split; [exact V|]. split; reflexivity.
  - eexists (writer_off N t), _. split; [exact Hneg|].
    unfold hgemm_m16n16k16mma2x4_wp4x2_async.
    apply (In_launch_stores hzero N (grid_x N) (grid_y M)
             (fun b_x b_y => async_block hzero mma_sync PAD A B N K b_x b_y (envs b_x b_y))).
    exists t. split; [exact V|]. split; reflexivity.
Qed.

(** X19. The kernels handle no partial tile: launched with the wrappers'
    grid [(N / 128, M / 128)] on sizes that are not multiples of 128,
    they leave the rows of [C] from [128 * (M / 128)] on and the columns
    from [128 * (N / 128)] on as they were. *)
Theorem kernels_skip_partial_tiles
        PAD (A B C0 : @mem half) M N K (envs : Z -> Z -> @block_env half) m n :
  0 <= M -> 0 <= N -> M * N <= Int32.max_int -> 0 <= m < M -> 0 <= n < N ->
  128 * (M / 128) <= m \/ 128 * (N / 128) <= n ->
  C_after C0 (hgemm_m16n16k16mma2x4_wp4x2 hzero mma_sync A B M N K
                (grid_x N) (grid_y M) envs) (m * N + n) = C0 (m * N + n) /\
  C_after C0 (hgemm_m16n16k16mma2x4_wp4x2_async hzero mma_sync PAD A B M N K
                (grid_x N) (grid_y M) envs) (m * N + n) = C0 (m * N + n).
Proof.
  intros HM HN HMN Hm Hn Hout.
  assert (HMmax : M <= Int32.max_int) by nia.
  assert (HNmax : N <= Int32.max_int) by nia.
  assert (G : forall blk : Z -> Z -> @block_state half,
             C_after C0 (launch (grid_x N) (grid_y M)
                           (fun b_x b_y => block_stores hzero N b_x b_y (blk b_x b_y)))
                     (m * N + n) = C0 (m * N + n)).
  { intros blk. unfold C_after. apply write_all_notin. intros Hin.
    apply in_map_iff in Hin. destruct Hin as [[a v] [E Hin]]. cbn [fst] in E. subst a.
    apply In_launch_stores in Hin. destruct Hin as [t (V & Hoff & _)].
    rewrite grid_x_eq, grid_y_eq in V by lia.
    rewrite (writer_off_eq M N (N / 128) (M / 128)) in Hoff; try assumption; try zlia.
    unfold writer_valid in V. geom.
    apply row_col_unique in Hoff; [|assumption|zlia].
    destruct Hoff as [Er Ec]. zlia. }
  split; [apply (G (fun b_x b_y => sync_block hzero mma_sync A B N K b_x b_y (envs b_x b_y)))
         |apply (G (fun b_x b_y => async_block hzero mma_sync PAD A B N K b_x b_y
                                               (envs b_x b_y)))].
Qed.

(** X21. The result does not depend on the order in which the stores of
    the blocks and warps take effect: for a problem that satisfies the
    divisibility preconditions and whose output is addressable with an
    [int], performing the stores of either kernel in any other order
    leaves the same [C]. *)
Theorem output_independent_of_store_order
        PAD (A B C0 : @mem half) M N K (envs : Z -> Z -> @block_env half)
        (stores : list (@write half)) a :
  0 <= M -> 0 <= N -> M mod 128 = 0 -> N mod 128 = 0 -> M * N <= Int32.max_int ->
  (Permutation (hgemm_m16n16k16mma2x4_wp4x2 hzero mma_sync A B M N K
                  (grid_x N) (grid_y M) envs) stores ->
   C_after C0 stores a
   = C_after C0 (hgemm_m16n16k16mma2x4_wp4x2 hzero mma_sync A B M N K
                   (grid_x N) (grid_y M) envs) a) /\
  (Permutation (hgemm_m16n16k16mma2x4_wp4x2_async hzero mma_sync PAD A B M N K
                  (grid_x N) (grid_y M) envs) stores ->
   C_after C0 stores a
   = C_after C0 (hgemm_m16n16k16mma2x4_wp4x2_async hzero mma_sync PAD A B M N K
                   (grid_x N) (grid_y M) envs) a).
Proof.
  intros HM HN HM128 HN128 HMN.
  assert (G : forall blk : Z -> Z -> @block_state half,
             let ws := launch (grid_x N) (grid_y M)
                         (fun b_x b_y => block_stores hzero N b_x b_y (blk b_x b_y)) in
             Permutation ws stores -> C_after C0 stores a = C_after C0 ws a).
  { intros blk ws P. unfold C_after. apply write_all_permutation; [|exact P].
    apply (Permutation_NoDup (kernel_offsets_permutation hzero M N blk HM HN HM128 HN128 HMN)),
      NoDup_zrange. }
  split; [apply (G (fun b_x b_y => sync_block hzero mma_sync A B N K b_x b_y (envs b_x b_y)))
         |apply (G (fun b_x b_y => async_block hzero mma_sync PAD A B N K b_x b_y
                                               (envs b_x b_y)))].
Qed.

End EdgeExtras.

Section RemainderExtras.
Context {half : Type} (hzero : half).
Variables (hadd hmul : half -> half -> half).

(** X18. The kernels do not check [K]: when it is not a multiple of 16
    the loop runs [K / 16] whole slices and the last [K mod 16] columns
    of [A] and rows of [B] are never used.  With the modelled
    multiply-accumulate, every [C[m][n]] of the synchronous kernel, and
    of the asynchronous kernel when [K >= 16], is the half-precision sum
    over [k < 16 * (K / 16)] of [A[m][k] * B[k][n]], the row stride of [A]
    still being [K]. *)
Theorem kernels_drop_remainder_of_K
        PAD (A B C0 : @mem half) M N K (envs : Z -> Z -> @block_env half) m n :
  (forall b_x b_y, fair (envs b_x b_y)) -> 0 <= PAD ->
  0 <= M -> 0 <= N -> 0 <= K -> M mod 128 = 0 -> N mod 128 = 0 ->
  M * N <= Int32.max_int -> M * K <= Int32.max_int -> K * N <= Int32.max_int ->
  0 <= m < M -> 0 <= n < N ->
  C_after C0 (hgemm_m16n16k16mma2x4_wp4x2 hzero (mma_seq hzero hadd hmul) A B M N K
                (grid_x N) (grid_y M) envs) (m * N + n)
  = hdot hzero hadd hmul (16 * (K / 16)) (fun k => A (m * K + k)) (fun k => B (k * N + n)) /\
  (16 <= K ->
   C_after C0 (hgemm_m16n16k16mma2x4_wp4x2_async hzero (mma_seq hzero hadd hmul) PAD A B M N K
                 (grid_x N) (grid_y M) envs) (m * N + n)
   = hdot hzero hadd hmul (16 * (K / 16)) (fun k => A (m * K + k)) (fun k => B (k * N + n))).
Proof.
  intros Hf HP HM HN HK HM128 HN128 HMN HMK HKN Hm Hn.
  assert (HMmax : M <= Int32.max_int) by nia.
  assert (HNmax : N <= Int32.max_int) by nia.
  assert (HKmax : K <= Int32.max_int) by nia.
  assert (S : C_after C0 (hgemm_m16n16k16mma2x4_wp4x2 hzero (mma_seq hzero hadd hmul) A B M N K
                            (grid_x N) (grid_y M) envs) (m * N + n)
              = hdot hzero hadd hmul (16 * (K / 16))
                     (fun k => A (m * K + k)) (fun k => B (k * N + n))).
  { rewrite grid_x_eq, grid_y_eq by lia. unfold hgemm_m16n16k16mma2x4_wp4x2.
    rewrite (C_after_launch hzero M N
               (fun b_x b_y => sync_block hzero (mma_seq hzero hadd hmul) A B N K b_x b_y
                                          (envs b_x b_y))) by assumption.
    destruct (writer_of_valid M N m n) as (V & Hrow & Hcol); try assumption.
    set (t := writer_of m n) in *. destruct V as (Vbx & Vby & Vw & Vi & Vj & Vr & Vc).
    rewrite sync_block_frag by auto. rewrite steps_eq by lia.
    rewrite reduce_elt by (geom; zlia).
    unfold hdot. apply fold_left_ext_in. intros acc k Hk. apply In_zrange in Hk.
    rewrite frag_row_range, frag_col_range by assumption.
    unfold writer_row in Hrow. unfold writer_col in Hcol.
    rewrite (slice_A_eq A M K), (slice_B_eq B N K); try assumption; try (geom; zlia).
    replace (128 * w_by t + (32 * (w_warp t / 2) + 16 * w_i t + w_r t)) with m by lia.
    replace (m * K + 16 * (k / 16) + k mod 16) with (m * K + k) by zlia.
    replace (16 * (k / 16) + k mod 16) with k by zlia.
    replace (k * N + 128 * w_bx t + (64 * (w_warp t mod 2) + 16 * w_j t + w_c t))
      with (k * N + n) by lia.
    reflexivity. }
  split; [exact S|]. intros HK16.
  rewrite (sync_async_agree hzero _ PAD A B M M N K _ _ envs envs); try assumption.
  rewrite steps_eq by lia. zlia.
Qed.

End RemainderExtras.

(** * The further properties at concrete launches *)

Lemma kernels_use_staged_offsets_only_witness :
  let mma := fun a b c : list Z => map (fun x => x + 1) (a ++ b ++ c) in
  let A' := fun x => if x <? 2048 then x else 0 in
  (forall b_x b_y : Z, fair ((fun _ _ => lockstep_env 0) b_x b_y)) /\ 0 <= 8 /\
  hgemm_m16n16k16mma2x4_wp4x2 0 mma (fun x => x) (fun x => x) 128 128 16 1 1
    (fun _ _ => lockstep_env 0)
  = hgemm_m16n16k16mma2x4_wp4x2 0 mma A' (fun x => x) 128 128 16 1 1
      (fun _ _ => lockstep_env 0).
Proof.
  cbv zeta.
  assert (Hf : forall b_x b_y : Z, fair ((fun _ _ => lockstep_env 0) b_x b_y))
    by (intros; apply lockstep_env_fair).
  split; [exact Hf|]. split; [lia|].
  refine (proj1 (kernels_use_staged_offsets_only 0 _ 8 (fun x => x)
                   (fun x => if x <? 2048 then x else 0) (fun x => x) (fun x => x)
                   128 128 16 1 1 (fun _ _ => lockstep_env 0) Hf ltac:(lia)) _ _).
  - intros b_y a Hb Ha. assert (b_y = 0) by lia. subst b_y.
    assert (F : forallb (fun x => x <? 2048) (reads_A 16 0 (slices_sync 16)) = true)
      by (vm_compute; reflexivity).
    rewrite forallb_forall in F. now rewrite (F a Ha).
  - reflexivity.
Defined.

Lemma block_reads_cover_panels_once_witness :
  0 <= 32 /\ 32 mod 16 = 0 /\ 128 * 1 + 128 <= 256 /\ 256 * 32 <= Int32.max_int /\
  128 * 0 + 128 <= 128 /\ 32 * 128 <= Int32.max_int /\
  Permutation (panel_A 32 1) (reads_A 32 1 (slices_sync 32)) /\
  Permutation (panel_B 128 32 0) (reads_B 128 0 (slices_sync 32)).
Proof.
  assert (H1 : 256 * 32 <= Int32.max_int) by (unfold Int32.max_int; lia).
  assert (H2 : 32 * 128 <= Int32.max_int) by (unfold Int32.max_int; lia).
  split; [lia|]. split; [reflexivity|]. split; [lia|]. split; [exact H1|].
  split; [lia|]. split; [exact H2|].
  destruct (block_reads_cover_panels_once 256 128 32 0 1
              ltac:(lia) ltac:(reflexivity) ltac:(lia) ltac:(lia) H1
              ltac:(lia) ltac:(lia) H2) as (PA & PB & _).
  split; [exact PA|exact PB].
Defined.

Lemma staging_transfers_are_aligned_witness :
  32 mod 8 = 0 /\ 128 mod 8 = 0 /\ 8 mod 8 = 0 /\
  load_g_A_off 32 5 1 37 mod 8 = 0 /\ load_g_B_off 128 3 1 37 mod 8 = 0 /\
  s_A_idx (ldA 8) 1 (load_s_A_m 37) (load_s_A_k 37) mod 8 = 0.
Proof.
  split; [reflexivity|]. split; [reflexivity|]. split; [reflexivity|].
  destruct (staging_transfers_are_aligned 32 128 8 3 5 1 1 37 eq_refl eq_refl eq_refl)
    as (H1 & H2 & _ & _ & H5 & _).
  split; [exact H1|]. split; [exact H2|exact H5].
Defined.

Lemma fragment_tiles_are_aligned_witness :
  128 mod 16 = 0 /\
  s_B_idx (ldB 8) 1 0 (frag_col (warp_n 100) 3) mod 16 = 0 /\
  store_g_C_off 128 0 1 (warp_m 100) (warp_n 100) 1 3 mod 16 = 0.
Proof.
  split; [reflexivity|].
  destruct (fragment_tiles_are_aligned 128 8 0 1 1 100 1 3 eq_refl)
    as (_ & _ & _ & H4 & H5).
  split; [exact H4|exact H5].
Defined.

Lemma staging_writes_stay_in_bounds_witness :
  0 <= 8 /\ 0 <= 37 < NUM_THREADS /\
  In (296, 584) (stage_A (fun x => x) 32 0 BK 0 0 37) /\
  0 <= 296 < s_A_size 1 BK.
Proof.
  assert (Ht : 0 <= 37 < NUM_THREADS) by (geom; lia).
  assert (Hin : In (296, 584) (stage_A (fun x => x) 32 0 BK 0 0 37))
    by (vm_compute; left; reflexivity).
  split; [lia|]. split; [exact Ht|]. split; [exact Hin|].
  destruct (staging_writes_stay_in_bounds (fun x => x) (fun x => x) 8 128 32 0 0 0 37
              296 584 ltac:(lia) Ht) as (H1 & _).
  exact (H1 Hin).
Defined.

Lemma fragment_loads_stay_in_bounds_witness :
  0 <= 8 /\ 0 <= 3 < NUM_WARPS /\ 0 <= 1 < WMMA_PER_WARP_M /\ 0 <= 2 < WMMA_PER_WARP_N /\
  In 4224 (frag_A_offsets (ldA 8) (curr_buf 4) 3 1) /\
  0 <= 4224 < s_A_size 2 (ldA 8) /\ 4224 mod ldA 8 < BK.
Proof.
  assert (Hw : 0 <= 3 < NUM_WARPS) by (geom; lia).
  assert (Hi : 0 <= 1 < WMMA_PER_WARP_M) by (geom; lia).
  assert (Hj : 0 <= 2 < WMMA_PER_WARP_N) by (geom; lia).
  assert (Hin : In 4224 (frag_A_offsets (ldA 8) (curr_buf 4) 3 1))
    by (vm_compute; left; reflexivity).
  split; [lia|]. split; [exact Hw|]. split; [exact Hi|]. split; [exact Hj|].
  split; [exact Hin|].
  destruct (fragment_loads_stay_in_bounds (half := Z) 8 64 4 3 1 2 4224 ltac:(lia) Hw Hi Hj)
    as (_ & _ & _ & _ & H5 & _).
  exact (H5 (or_introl Hin)).
Defined.

Lemma async_compute_ignores_inflight_copies_witness :
  let st := block_entry 0 reversed_env in
  fair reversed_env /\ 0 <= 8 /\
  load_frag_A (seen_A 8 (fun x => x) 64 0 reversed_env 3 5 st) (ldA 8) (curr_buf 3) 5 1
  = load_frag_A (s_A st) (ldA 8) (curr_buf 3) 5 1.
Proof.
  cbv zeta. split; [apply reversed_env_fair|]. split; [lia|].
  destruct (async_compute_ignores_inflight_copies
              (fun a b c : list Z => c) 8 (fun x => x) (fun x => x) 128 64 0 0
              reversed_env 3 (block_entry 0 reversed_env) 5 1 2
              reversed_env_fair ltac:(lia) ltac:(geom; lia) ltac:(geom; lia) ltac:(geom; lia))
    as (_ & LA & _).
  exact LA.
Defined.

Lemma kernels_overwrite_output_only_witness :
  let mma := fun a b c : list Z => c in
  128 mod 128 = 0 /\ 128 * 128 <= Int32.max_int /\
  C_after (fun _ => 1)
    (hgemm_m16n16k16mma2x4_wp4x2 0 mma (fun x => x) (fun x => x) 128 128 32
       (grid_x 128) (grid_y 128) (fun _ _ => reversed_env)) (128 * 128)
  = 1.
Proof.
  cbv zeta.
  assert (H : 128 * 128 <= Int32.max_int) by (unfold Int32.max_int; lia).
  split; [reflexivity|]. split; [exact H|].
  destruct (kernels_overwrite_output_only 0 (fun a b c : list Z => c) 8
              (fun x => x) (fun x => x) (fun _ => 1) (fun _ => 2) 128 128 32
              (fun _ _ => reversed_env) (128 * 128)
              ltac:(lia) ltac:(lia) eq_refl eq_refl H) as (_ & Hout).
  destruct Hout as [Hs _]; [lia|]. exact Hs.
Defined.

Lemma async_prologue_reads_without_slices_witness :
  let st := async_block 0 (fun a b c : list Z => c) 8 (fun x => x + 1000) (fun x => x)
                        128 0 0 0 reversed_env in
  fair reversed_env /\ 128 * 0 + 128 <= 128 /\ 16 * 128 <= Int32.max_int /\
  s_A st (s_A_idx (ldA 8) 0 100 11) = 1011.
Proof.
  cbv zeta.
  assert (H : 16 * 128 <= Int32.max_int) by (unfold Int32.max_int; lia).
  split; [apply reversed_env_fair|]. split; [lia|]. split; [exact H|].
  destruct (async_prologue_reads_without_slices 0 (fun a b c : list Z => c) 8
              (fun x => x + 1000) (fun x => x) 128 0 0 reversed_env
              reversed_env_fair ltac:(lia) ltac:(lia) ltac:(lia) H) as (HA & _).
  apply (HA 100 11); geom; lia.
Defined.

Lemma large_output_stores_before_C_witness :
  0 < 46464 <= Int32.max_int /\ 46464 mod 128 = 0 /\
  2 ^ 31 <= (46464 - 16) * 46464 < 2 ^ 32 /\
  exists a v, a < 0 /\
    In (a, v) (hgemm_m16n16k16mma2x4_wp4x2 0 (fun a b c : list Z => c)
                 (fun x => x) (fun x => x) 46464 46464 16
                 (grid_x 46464) (grid_y 46464) (fun _ _ => lockstep_env 0)).
Proof.
  assert (H1 : 0 < 46464 <= Int32.max_int) by (unfold Int32.max_int; lia).
  assert (H2 : 2 ^ 31 <= (46464 - 16) * 46464 < 2 ^ 32) by lia.
  split; [exact H1|]. split; [reflexivity|]. split; [exact H2|].
  exact (proj1 (large_output_stores_before_C 0 (fun a b c : list Z => c) 8
                  (fun x => x) (fun x => x) 46464 46464 16 (fun _ _ => lockstep_env 0)
                  H1 H1 eq_refl eq_refl H2)).
Defined.

Lemma kernels_drop_remainder_of_K_witness :
  (forall b_x b_y : Z, fair ((fun _ _ => lockstep_env 0) b_x b_y)) /\
  128 * 24 <= Int32.max_int /\ 24 mod 16 = 8 /\
  C_after (fun _ => 0)
    (hgemm_m16n16k16mma2x4_wp4x2 0 (mma_seq 0 Z.add Z.mul) (fun _ => 1) (fun _ => 1)
       128 128 24 (grid_x 128) (grid_y 128) (fun _ _ => lockstep_env 0)) (3 * 128 + 5)
  = 16.
Proof.
  assert (Hf : forall b_x b_y : Z, fair ((fun _ _ => lockstep_env 0) b_x b_y))
    by (intros; apply lockstep_env_fair).
  assert (H1 : 128 * 128 <= Int32.max_int) by (unfold Int32.max_int; lia).
  assert (H2 : 128 * 24 <= Int32.max_int) by (unfold Int32.max_int; lia).
  assert (H3 : 24 * 128 <= Int32.max_int) by (unfold Int32.max_int; lia).
  split; [exact Hf|]. split; [exact H2|]. split; [reflexivity|].
  destruct (kernels_drop_remainder_of_K 0 Z.add Z.mul 8 (fun _ => 1) (fun _ => 1) (fun _ => 0)
              128 128 24 (fun _ _ => lockstep_env 0) 3 5 Hf
              ltac:(lia) ltac:(lia) ltac:(lia) ltac:(lia) eq_refl eq_refl H1 H2 H3
              ltac:(lia) ltac:(lia)) as (Hs & _).
  rewrite Hs. reflexivity.
Defined.

Lemma kernels_skip_partial_tiles_witness :
  200 * 128 <= Int32.max_int /\ 128 * (200 / 128) <= 150 /\
  C_after (fun x => x + 7)
    (hgemm_m16n16k16mma2x4_wp4x2 0 (fun a b c : list Z => c) (fun x => x) (fun x => x)
       200 128 16 (grid_x 128) (grid_y 200) (fun _ _ => lockstep_env 0)) (150 * 128 + 3)
  = 150 * 128 + 3 + 7.
Proof.
  assert (H : 200 * 128 <= Int32.max_int) by (unfold Int32.max_int; lia).
  assert (H' : 128 * (200 / 128) <= 150) by (vm_compute; congruence).
  split; [exact H|]. split; [exact H'|].
  exact (proj1 (kernels_skip_partial_tiles 0 (fun a b c : list Z => c) 8
                  (fun x => x) (fun x => x) (fun x => x + 7) 200 128 16
                  (fun _ _ => lockstep_env 0) 150 3
                  ltac:(lia) ltac:(lia) H ltac:(lia) ltac:(lia) (or_introl H'))).
Defined.

Lemma staging_fills_slice_row_major_witness :
  let st := block_entry 0 reversed_env in
  fair reversed_env /\ 256 * 64 <= Int32.max_int /\ 64 * 128 <= Int32.max_int /\
  16 * 2 + 16 <= 64 /\
  s_A (async_step (fun a b c : list Z => c) 8 (fun x => x) (fun x => - x) 128 64 0 1
         reversed_env 2 st) (s_A_idx (ldA 8) (next_buf 2) 100 11)
  = (128 * 1 + 100) * 64 + 16 * 2 + 11.
Proof.
  cbv zeta.
  assert (H1 : 256 * 64 <= Int32.max_int) by (unfold Int32.max_int; lia).
  assert (H2 : 64 * 128 <= Int32.max_int) by (unfold Int32.max_int; lia).
  split; [apply reversed_env_fair|]. split; [exact H1|]. split; [exact H2|]. split; [lia|].
  destruct (staging_fills_slice_row_major (fun a b c : list Z => c) 8
              (fun x => x) (fun x => - x) 256 128 64 0 1 reversed_env 2
              (block_entry 0 reversed_env) 100 11 5
              reversed_env_fair ltac:(lia) ltac:(lia) ltac:(lia) ltac:(lia) H1 H2
              ltac:(lia) ltac:(lia) ltac:(lia) ltac:(lia) ltac:(lia) ltac:(lia)
              ltac:(geom; lia) ltac:(geom; lia) ltac:(geom; lia)) as (_ & _ & HA & _).
  exact HA.
Defined.

Lemma output_independent_of_store_order_witness :
  let stores := hgemm_m16n16k16mma2x4_wp4x2 0 (fun a b c : list Z => a) (fun x => x)
                  (fun x => x) 128 128 16 (grid_x 128) (grid_y 128)
                  (fun _ _ => lockstep_env 0) in
  128 mod 128 = 0 /\ 128 * 128 <= Int32.max_int /\
  C_after (fun _ => 0) (rev stores) 77 = C_after (fun _ => 0) stores 77.
Proof.
  cbv zeta.
  assert (H : 128 * 128 <= Int32.max_int) by (unfold Int32.max_int; lia).
  split; [reflexivity|]. split; [exact H|].
  refine (proj1 (output_independent_of_store_order 0 (fun a b c : list Z => a) 8
                   (fun x => x) (fun x => x) (fun _ => 0) 128 128 16
                   (fun _ _ => lockstep_env 0) _ 77
                   ltac:(lia) ltac:(lia) eq_refl eq_refl H) _).
  apply Permutation_rev.
Defined.
